(** * The canvas space animation of the portfolio, embedded and verified

    The development follows the two scripts of the repository:
    - [Space]  is  src/space.js  (stars, black hole, big bang particles,
      pooled meteors with trails, lightning bolts, the frame loop);
    - [Script] is  src/script.js (the older drifting star field).

    JavaScript numbers are modelled as exact rationals ([Qc], canonical
    fractions with Leibniz equality): NaN and infinities are out of the
    model, and so is rounding, except where it changes an outcome: the
    rounding of binary64 is [double], and the helpers [rand] and [randInt]
    also come in double arithmetic ([rand64], [randInt64]), where they can
    reach the upper end of their range.  Bounds on random draws are
    therefore stated closed.  [Math.random] is a seeded source, a function from the call
    index to the value returned by that call; the index of the next call is
    part of the scene state.  [Math.sin] and [Math.cos] are parameters.
    A [TypeError] (reading a field of [undefined]) is the [None] of an
    [option].  Canvas calls are recorded as a list of [Draw] commands. *)

From Stdlib Require Import QArith Qcanon Qround Qabs Qpower Lqa Lia ZArith.
From stdpp Require Import base numbers option list.

Local Open Scope Qc_scope.

(** ** Numbers *)

Definition lit (q : Q) : Qc := Q2Qc q.
Arguments lit q%_Q.

Definition ofZ (z : Z) : Qc := Q2Qc (inject_Z z).
Definition ofNat (n : nat) : Qc := ofZ (Z.of_nat n).

Definition Math_floor (x : Qc) : Z := Qfloor x.
Definition Math_max (a b : Qc) : Qc := if decide (a < b) then b else a.
Definition Math_min (a b : Qc) : Qc := if decide (b < a) then b else a.

(** [Math.PI] is the double nearest to pi, itself a rational. *)
Definition Math_PI : Qc := lit (884279719003555 # 281474976710656).

(** [a || b] on numbers: [0] is the falsy number. *)
Definition orElse (a b : Qc) : Qc := if decide (a = 0) then b else a.

(** Order facts on [Qc] are sent to [Q], where [lra] and [nra] decide them. *)
Ltac qc_unfold :=
  unfold Qcle, Qclt, Qcminus, Qcdiv, Qcplus, Qcmult, Qcopp, Qcinv, lit, ofNat,
    ofZ, Q2Qc in *;
  cbn [this] in *;
  repeat match goal with
  | H : context [Qred _] |- _ => rewrite Qred_correct in H
  end;
  rewrite ?Qred_correct;
  repeat match goal with
  | |- context [Qinv (?a # ?b)] =>
      let v := eval vm_compute in (Qinv (a # b)) in change (Qinv (a # b)) with v
  | H : context [Qinv (?a # ?b)] |- _ =>
      let v := eval vm_compute in (Qinv (a # b)) in
      change (Qinv (a # b)) with v in H
  end.

Ltac qc_lra := qc_unfold; lra.
Ltac qc_nra := qc_unfold; nra.

(** ** Double arithmetic

    The rounding of a number to binary64, to nearest with ties to even:
    53 bits of precision, exponents down to the subnormal numbers.
    Overflow to [Infinity] is left out (it starts at [2^1024]). *)
Module Binary64.

Local Open Scope Q_scope.

Definition pow2 (e : Z) : Q := 2 ^ e.

(** [floor (log2 |x|)], for [x] other than 0. *)
Definition binade (x : Q) : Z :=
  let e := (Z.log2 (Z.abs (Qnum x)) - Z.log2 (Z.pos (Qden x)))%Z in
  if Qle_bool (pow2 e) (Qabs x) then e else (e - 1)%Z.

(** The nearest integer, the even one in case of a tie. *)
Definition nearest_even (x : Q) : Z :=
  let f := Qfloor x in
  match Qcompare (x - inject_Z f) (1 # 2) with
  | Lt => f
  | Gt => (f + 1)%Z
  | Eq => if Z.even f then f else (f + 1)%Z
  end.

(** The exponent of the unit in the last place of [x]. *)
Definition ulp (x : Q) : Z := Z.max (binade x - 52) (-1074).

(** Rounding to a multiple of [2^q]. *)
Definition round_at (q : Z) (x : Q) : Q :=
  inject_Z (nearest_even (x / pow2 q)) * pow2 q.

Definition round (x : Q) : Q := round_at (ulp x) x.

Lemma pow2_pos e : 0 < pow2 e.
Proof. apply Qpower_0_lt. reflexivity. Qed.

Lemma pow2_le e1 e2 : (e1 <= e2)%Z -> pow2 e1 <= pow2 e2.
Proof. intros H. apply Qpower_le_compat_l; [done|]. discriminate. Qed.

Lemma pow2_lt_inv e1 e2 : pow2 e1 < pow2 e2 -> (e1 < e2)%Z.
Proof. intros H. apply (Qpower_lt_compat_l_inv 2); [done|reflexivity]. Qed.

Lemma pow2_add a b : pow2 (a + b) == pow2 a * pow2 b.
Proof. apply Qpower_plus. discriminate. Qed.

Lemma pow2_Z n : (0 <= n)%Z -> pow2 n == inject_Z (2 ^ n).
Proof. intros H. unfold pow2. by rewrite Zpower_Qpower. Qed.

Lemma binade_spec x :
  ~ x == 0 -> pow2 (binade x) <= Qabs x /\ Qabs x < pow2 (binade x + 1).
Proof.
  intros Hx. unfold binade.
  set (n := Z.abs (Qnum x)). set (d := Z.pos (Qden x)).
  set (e := (Z.log2 n - Z.log2 d)%Z).
  assert (Hn : (0 < n)%Z).
  { subst n. destruct x as [[|p|p] q]; cbn; try lia. elim Hx. reflexivity. }
  assert (Hd : (0 < d)%Z) by (subst d; lia).
  destruct (Z.log2_spec n Hn) as [Hn1 Hn2].
  destruct (Z.log2_spec d Hd) as [Hd1 Hd2].
  pose proof (Z.log2_nonneg n) as Hln. pose proof (Z.log2_nonneg d) as Hld.
  assert (Ea : Qabs x == inject_Z n / inject_Z d).
  { destruct x as [xn xd]. cbn [Qabs]. subst n d. cbn [Qnum Qden].
    apply Qmake_Qdiv. }
  assert (Hdq : 0 < inject_Z d).
  { change 0 with (inject_Z 0). rewrite <- Zlt_Qlt. lia. }
  (* bounds on n / d through the powers of two *)
  assert (Hlow : pow2 (e - 1) < Qabs x).
  { rewrite Ea. apply Qlt_shift_div_l; [done|].
    assert (E : pow2 (e - 1) * pow2 (Z.log2 d + 1) == pow2 (Z.log2 n)).
    { rewrite <- pow2_add. subst e.
      by replace (Z.log2 n - Z.log2 d - 1 + (Z.log2 d + 1))%Z
        with (Z.log2 n) by lia. }
    apply Qlt_le_trans with (pow2 (e - 1) * pow2 (Z.log2 d + 1)).
    - apply Qmult_lt_l; [apply pow2_pos|].
      rewrite pow2_Z by lia. rewrite <- Zlt_Qlt.
      by replace (Z.log2 d + 1)%Z with (Z.succ (Z.log2 d)) by lia.
    - rewrite E, pow2_Z by lia. by rewrite <- Zle_Qle. }
  assert (Hup : Qabs x < pow2 (e + 1)).
  { rewrite Ea. apply Qlt_shift_div_r; [done|].
    assert (E : pow2 (e + 1) * pow2 (Z.log2 d) == pow2 (Z.log2 n + 1)).
    { rewrite <- pow2_add. subst e.
      by replace (Z.log2 n - Z.log2 d + 1 + Z.log2 d)%Z
        with (Z.log2 n + 1)%Z by lia. }
    apply Qlt_le_trans with (pow2 (e + 1) * pow2 (Z.log2 d)).
    - rewrite E, pow2_Z by lia. rewrite <- Zlt_Qlt.
      by replace (Z.log2 n + 1)%Z with (Z.succ (Z.log2 n)) by lia.
    - apply Qmult_le_l; [apply pow2_pos|].
      rewrite pow2_Z by lia. by rewrite <- Zle_Qle. }
  destruct (Qle_bool (pow2 e) (Qabs x)) eqn:Hb.
  - apply Qle_bool_iff in Hb. by split.
  - split.
    + by apply Qlt_le_weak.
    + replace (e - 1 + 1)%Z with e by lia.
      apply Qnot_le_lt. intros H. apply Qle_bool_iff in H. congruence.
Qed.

Lemma binade_mono x y :
  ~ x == 0 -> ~ y == 0 -> Qabs x <= Qabs y -> (binade x <= binade y)%Z.
Proof.
  intros Hx Hy Hxy.
  destruct (binade_spec x Hx) as [Hx1 _]. destruct (binade_spec y Hy) as [_ Hy2].
  apply Z.lt_succ_r, pow2_lt_inv. rewrite <- Z.add_1_r.
  eapply Qle_lt_trans; [|exact Hy2]. by eapply Qle_trans.
Qed.

#[global] Instance nearest_even_comp : Proper (Qeq ==> eq) nearest_even.
Proof.
  intros x y E. unfold nearest_even.
  rewrite (Qfloor_comp x y E).
  by rewrite (Qcompare_comp (x - inject_Z (Qfloor y)) (y - inject_Z (Qfloor y))
                ltac:(by rewrite E) (1 # 2) (1 # 2) ltac:(reflexivity)).
Qed.

Lemma nearest_even_Z k : nearest_even (inject_Z k) = k.
Proof.
  unfold nearest_even. rewrite Qfloor_Z.
  assert (inject_Z k - inject_Z k == 0) as -> by ring. reflexivity.
Qed.

Lemma nearest_even_floor x :
  (Qfloor x <= nearest_even x <= Qfloor x + 1)%Z.
Proof.
  unfold nearest_even. destruct (Qcompare _ _); [destruct (Z.even _)| |]; lia.
Qed.

Lemma nearest_even_mono x y : x <= y -> (nearest_even x <= nearest_even y)%Z.
Proof.
  intros Hxy. pose proof (Qfloor_resp_le x y Hxy) as Hf.
  pose proof (nearest_even_floor x) as Hx.
  pose proof (nearest_even_floor y) as Hy.
  destruct (Z.eq_dec (Qfloor x) (Qfloor y)) as [E|E]; [|lia].
  unfold nearest_even in *. rewrite E in *.
  destruct (Qcompare_spec (x - inject_Z (Qfloor y)) (1 # 2)) as [H1|H1|H1];
    destruct (Qcompare_spec (y - inject_Z (Qfloor y)) (1 # 2)) as [H2|H2|H2];
    try lia; try (destruct (Z.even _); lia); exfalso; lra.
Qed.

Lemma nearest_even_nonneg x : 0 <= x -> (0 <= nearest_even x)%Z.
Proof.
  intros H. rewrite <- (nearest_even_Z 0). by apply nearest_even_mono.
Qed.

Lemma nearest_even_nonpos x : x <= 0 -> (nearest_even x <= 0)%Z.
Proof.
  intros H. rewrite <- (nearest_even_Z 0). by apply nearest_even_mono.
Qed.

Lemma round_at_mono q x y : x <= y -> round_at q x <= round_at q y.
Proof.
  intros H. unfold round_at. pose proof (pow2_pos q) as Hq.
  apply Qmult_le_compat_r; [|by apply Qlt_le_weak].
  rewrite <- Zle_Qle. apply nearest_even_mono.
  apply Qmult_le_compat_r; [done|]. apply Qlt_le_weak, Qinv_lt_0_compat, Hq.
Qed.

#[global] Instance round_at_comp q : Proper (Qeq ==> Qeq) (round_at q).
Proof. intros x y E. unfold round_at. by rewrite E. Qed.

(** A multiple of [2^q] is left as it is. *)
Lemma round_at_multiple q k : round_at q (inject_Z k * pow2 q) == inject_Z k * pow2 q.
Proof.
  unfold round_at. pose proof (pow2_pos q) as Hq.
  assert (inject_Z k * pow2 q / pow2 q == inject_Z k) as ->.
  { field. intros E. rewrite E in Hq. by apply Qlt_irrefl in Hq. }
  by rewrite nearest_even_Z.
Qed.

Lemma pow2_multiple q e : (q <= e)%Z -> pow2 e == inject_Z (2 ^ (e - q)) * pow2 q.
Proof.
  intros H. rewrite <- pow2_Z by lia. rewrite <- pow2_add.
  by replace (e - q + q)%Z with e by lia.
Qed.

Lemma round_at_pow2 q e : (q <= e)%Z -> round_at q (pow2 e) == pow2 e.
Proof.
  intros H. rewrite (pow2_multiple q e H). apply round_at_multiple.
Qed.

Lemma round_at_opp_pow2 q e : (q <= e)%Z -> round_at q (- pow2 e) == - pow2 e.
Proof.
  intros H. rewrite (pow2_multiple q e H).
  assert (- (inject_Z (2 ^ (e - q)) * pow2 q)
          == inject_Z (- 2 ^ (e - q)) * pow2 q) as ->.
  { rewrite inject_Z_opp. ring. }
  apply round_at_multiple.
Qed.

Lemma ulp_le_binade x : (-1074 <= binade x - 52)%Z -> ulp x = (binade x - 52)%Z.
Proof. unfold ulp. lia. Qed.

Theorem round_mono x y : x <= y -> round x <= round y.
Proof.
  intros Hxy. unfold round.
  destruct (Qlt_le_dec 0 x) as [Hx|Hx].
  - (* 0 < x <= y *)
    assert (Hx0 : ~ x == 0) by lra. assert (Hy0 : ~ y == 0) by lra.
    assert (Hb : (binade x <= binade y)%Z).
    { apply binade_mono; [done..|]. rewrite !Qabs_pos by lra. done. }
    destruct (Z.eq_dec (ulp x) (ulp y)) as [E|E].
    { rewrite E. by apply round_at_mono. }
    assert (Hlt : (binade x < binade y)%Z /\ ulp y = (binade y - 52)%Z
                  /\ (ulp x <= binade y)%Z).
    { unfold ulp in *. lia. }
    destruct Hlt as (Hlt & Ey & Huy).
    destruct (binade_spec x Hx0) as [_ Hx2]. destruct (binade_spec y Hy0) as [Hy1 _].
    rewrite Qabs_pos in Hx2, Hy1 by lra.
    apply Qle_trans with (pow2 (binade y)).
    + rewrite <- (round_at_pow2 (ulp x) (binade y)) by done.
      apply round_at_mono. apply Qle_trans with (pow2 (binade x + 1)).
      * by apply Qlt_le_weak.
      * apply pow2_le. lia.
    + rewrite <- (round_at_pow2 (ulp y) (binade y)) at 1 by lia.
      by apply round_at_mono.
  - destruct (Qlt_le_dec y 0) as [Hy|Hy].
    + (* x <= y < 0 *)
      assert (Hx0 : ~ x == 0) by lra. assert (Hy0 : ~ y == 0) by lra.
      assert (Hb : (binade y <= binade x)%Z).
      { apply binade_mono; [done..|]. rewrite !Qabs_neg by lra. lra. }
      destruct (Z.eq_dec (ulp x) (ulp y)) as [E|E].
      { rewrite E. by apply round_at_mono. }
      assert (Hlt : (binade y < binade x)%Z /\ ulp x = (binade x - 52)%Z
                    /\ (ulp y <= binade x)%Z).
      { unfold ulp in *. lia. }
      destruct Hlt as (Hlt & Ex & Huy).
      destruct (binade_spec x Hx0) as [Hx1 _].
      destruct (binade_spec y Hy0) as [_ Hy2].
      rewrite Qabs_neg in Hx1, Hy2 by lra.
      apply Qle_trans with (- pow2 (binade x)).
      * rewrite <- (round_at_opp_pow2 (ulp x) (binade x)) by lia.
        apply round_at_mono. lra.
      * rewrite <- (round_at_opp_pow2 (ulp y) (binade x)) by done.
        apply round_at_mono.
        assert (pow2 (binade y + 1) <= pow2 (binade x)) by (apply pow2_le; lia).
        lra.
    + (* x <= 0 <= y *)
      apply Qle_trans with 0.
      * unfold round_at. pose proof (pow2_pos (ulp x)) as Hq.
        assert (Hn : (nearest_even (x / pow2 (ulp x)) <= 0)%Z).
        { apply nearest_even_nonpos.
          assert (0 < / pow2 (ulp x)) by by apply Qinv_lt_0_compat.
          unfold Qdiv. nra. }
        rewrite Zle_Qle in Hn. change (inject_Z 0) with 0 in Hn. nra.
      * unfold round_at. pose proof (pow2_pos (ulp y)) as Hq.
        assert (Hn : (0 <= nearest_even (y / pow2 (ulp y)))%Z).
        { apply nearest_even_nonneg.
          assert (0 < / pow2 (ulp y)) by by apply Qinv_lt_0_compat.
          unfold Qdiv. nra. }
        rewrite Zle_Qle in Hn. change (inject_Z 0) with 0 in Hn. nra.
Qed.

End Binary64.

(** The double nearest to a number. *)
Definition double (x : Qc) : Qc := Q2Qc (Binary64.round x).

Lemma double_mono (x y : Qc) : x <= y -> double x <= double y.
Proof.
  intros H. unfold double, Qcle, Q2Qc. cbn [this].
  rewrite !Qred_correct. by apply Binary64.round_mono.
Qed.

Lemma double_0 : double 0 = 0.
Proof. apply Qc_is_canon. reflexivity. Qed.

(** ** Arrays *)

Definition Array_pop {A} (l : list A) : option A * list A :=
  (last l, take (length l - 1) l).
Definition Array_shift {A} (l : list A) : list A := tail l.
Definition Array_splice1 {A} (i : nat) (l : list A) : list A := delete i l.

Lemma Array_shift_length {A} (l : list A) :
  length (Array_shift l) = (length l - 1)%nat.
Proof. destruct l; cbn; lia. Qed.

Lemma Array_shift_snoc {A} (l : list A) (a : A) :
  l <> [] -> Array_shift (l ++ [a]) = Array_shift l ++ [a].
Proof. by destruct l. Qed.

(** ** Drawing random numbers: a state monad over the index of the next call *)

Definition Rand (A : Type) : Type := nat -> A * nat.

#[global] Instance Rand_ret : MRet Rand := fun A a n => (a, n).
#[global] Instance Rand_bind : MBind Rand :=
  fun A B f c n => let (a, n') := c n in f a n'.

(** [for (let i = 0; i < count; i++) arr.push(gen())] *)
Fixpoint pushN {A} (count : nat) (gen : Rand A) (arr : list A) : Rand (list A) :=
  match count with
  | O => mret arr
  | S count' => a ← gen; pushN count' gen (arr ++ [a])
  end.

(** * script.js *)

Module Script.

Module Star.
Record t := mk { x : Qc; y : Qc; r : Qc; alpha : Qc; dx : Qc; dy : Qc }.
End Star.

Definition starCount : nat := 300.

Inductive Draw : Type :=
  | Clear (w h : Qc)
  | StarDot (x y r alpha : Qc)
  | BlackHole (cx cy radius : Qc)
  | Explosion (cx cy maxRadius : Qc).

Record Scene := mkScene {
  width : Qc; height : Qc;
  stars : list Star.t;
  blackHoleRadius : Qc;
  timer : nat;
  seed : nat }.

Section Model.

Variable Math_random : nat -> Qc.

Definition random : Rand Qc := fun n => (Math_random n, S n).

Definition newStar (width height : Qc) : Rand Star.t :=
  rx ← random; ry ← random; rr ← random; ra ← random; rdx ← random;
  rdy ← random;
  mret (Star.mk (rx * width) (ry * height) (rr * lit 1.5) ra
          ((rdx - lit 0.5) * lit 0.2) ((rdy - lit 0.5) * lit 0.2)).

(** The top-level statements of the script, up to the first [animate()]. *)
Definition start (innerWidth innerHeight : Qc) : Scene :=
  let (l, n) := pushN starCount (newStar innerWidth innerHeight) [] O in
  mkScene innerWidth innerHeight l (lit 50) O n.

Definition resize (innerWidth innerHeight : Qc) (s : Scene) : Scene :=
  mkScene innerWidth innerHeight (stars s) (blackHoleRadius s) (timer s) (seed s).

(** The body of [for (let s of stars)]: the star is drawn, then moved,
    wrapped and twinkled. *)
Definition drawStar (width height : Qc) (st : Star.t) : Rand (Star.t * Draw) :=
  let dot := StarDot (Star.x st) (Star.y st) (Star.r st) (Star.alpha st) in
  let x := Star.x st + Star.dx st in
  let y := Star.y st + Star.dy st in
  let x := if decide (x < 0) then width else x in
  let x := if decide (width < x) then 0 else x in
  let y := if decide (y < 0) then height else y in
  let y := if decide (height < y) then 0 else y in
  r ← random;
  let alpha := Star.alpha st + (r - lit 0.5) * lit 0.02 in
  let alpha := if decide (alpha < 0) then 0 else alpha in
  let alpha := if decide (1 < alpha) then 1 else alpha in
  mret (Star.mk x y (Star.r st) alpha (Star.dx st) (Star.dy st), dot).

Fixpoint drawStars_loop (width height : Qc) (l : list Star.t)
    : Rand (list Star.t * list Draw) :=
  match l with
  | [] => mret ([], [])
  | st :: l' =>
      '(st', dot) ← drawStar width height st;
      '(l'', dots) ← drawStars_loop width height l';
      mret (st' :: l'', dot :: dots)
  end.

Definition drawStars (s : Scene) : Scene * list Draw :=
  let '(l, dots, n) := drawStars_loop (width s) (height s) (stars s) (seed s) in
  (mkScene (width s) (height s) l (blackHoleRadius s) (timer s) n, dots).

Definition drawBlackHole (s : Scene) : Draw :=
  BlackHole (width s / lit 2) (height s / lit 2) (blackHoleRadius s).

Definition drawExplosion (s : Scene) : Draw :=
  Explosion (width s / lit 2) (height s / lit 2) (lit 300).

Definition set_hole (radius : Qc) (timer : nat) (s : Scene) : Scene :=
  mkScene (width s) (height s) (stars s) radius timer (seed s).

Definition animate (s : Scene) : Scene * list Draw :=
  let (s, dots) := drawStars s in
  let timer := S (timer s) in
  let out := Clear (width s) (height s) :: dots in
  if decide (timer < 300)%nat then
    let s := set_hole (Math_min (blackHoleRadius s + lit 0.5) (lit 80)) timer s in
    (s, out ++ [drawBlackHole s])
  else if decide (timer < 420)%nat then
    let s := set_hole (blackHoleRadius s) timer s in
    (s, out ++ [drawExplosion s])
  else if decide (timer < 720)%nat then
    let s := set_hole (Math_min (blackHoleRadius s + lit 0.3) (lit 100)) timer s in
    (s, out ++ [drawBlackHole s])
  else (set_hole (lit 50) O s, out).

Inductive Event : Type :=
  | Animate
  | Resize (innerWidth innerHeight : Qc).

Definition handle (s : Scene) (ev : Event) : Scene :=
  match ev with
  | Animate => fst (animate s)
  | Resize w h => resize w h s
  end.

Definition run (s : Scene) (evs : list Event) : Scene := foldl handle s evs.

End Model.
End Script.

(** * space.js *)

Module Space.

(** ** Configuration *)

Module CONFIG.
Definition maxStars : nat := 250.
Definition maxMeteors : nat := 6.
Definition meteorSpawnInterval : Qc := lit 800.
Definition maxMeteorTrail : nat := 8.
Definition maxParticles : nat := 180.
Definition lightningChancePerSecond : Qc := lit 0.6.
Definition starTwinkleSpeed : Qc := lit 0.0025.
Definition useDevicePixelRatio : bool := true.
Definition timeScale : Qc := lit 0.75.
End CONFIG.

(** ** Entities *)

Module Point.
Record t := mk { x : Qc; y : Qc }.
End Point.

Module Star.
Record t := mk {
  x : Qc; y : Qc; size : Qc; baseAlpha : Qc;
  twinklePhase : Qc; twinkleSpeed : Qc }.
End Star.

Module Particle.
(** [color] is [hsl(hue,100%,light%)]. *)
Record t := mk {
  x : Qc; y : Qc; vx : Qc; vy : Qc; life : Qc; age : Qc; size : Qc;
  hue : Z; light : Z }.
End Particle.

Module Meteor.
Record t := mk {
  x : Qc; y : Qc; vx : Qc; vy : Qc; life : Qc; age : Qc;
  trail : list Point.t; size : Qc; hue : Z }.
End Meteor.

Module Bolt.
Record t := mk { points : list Point.t; age : Qc; life : Qc; alpha : Qc }.
End Bolt.

(** The radial gradient of the black hole: its two circles (the colour stops
    are constants). *)
Module Gradient.
Record t := mk { x0 : Qc; y0 : Qc; r0 : Qc; x1 : Qc; y1 : Qc; r1 : Qc }.
End Gradient.

(** What a frame paints. *)
Inductive Draw : Type :=
  | Background (w h : Qc)
  | StarDot (alpha x y r : Qc)
  | HoleGlow (cx cy r : Qc) (g : option Gradient.t)
  | HoleDisc (cx cy r : Qc)
  | ParticleDot (alpha x y r : Qc) (hue light : Z)
  | TrailSegment (p0 p1 : Point.t) (alpha lineWidth : Qc)
  | MeteorHead (x y r : Qc) (green blue : Z)
  | BoltStroke (pts : list Point.t) (alpha lineWidth : Qc).

(** ** The scene: the module-level variables of space.js *)

Record Scene := mkScene {
  DPR : Qc; width : Qc; height : Qc; cx : Qc; cy : Qc;
  canvas_width : Z; canvas_height : Z;
  blackHoleGradient : option Gradient.t;
  running : bool;
  stars : list Star.t;
  particles : list Particle.t;
  bigBangTime : option Qc;            (* [None] is [-Infinity] *)
  heroShakeUntil : Qc;
  heroTransform : option (Qc * Qc);   (* [None] is the empty transform *)
  meteors : list Meteor.t;
  meteorPool : list Meteor.t;
  lightnings : list Bolt.t;
  lastTime : Qc;
  lastMeteorSpawn : Qc;
  seed : nat }.

(** Assignments to one variable. *)
Definition set_running (v : bool) (s : Scene) : Scene :=
  mkScene (DPR s) (width s) (height s) (cx s) (cy s) (canvas_width s)
    (canvas_height s) (blackHoleGradient s) v (stars s) (particles s)
    (bigBangTime s) (heroShakeUntil s) (heroTransform s) (meteors s)
    (meteorPool s) (lightnings s) (lastTime s) (lastMeteorSpawn s) (seed s).
Definition set_stars (v : list Star.t) (s : Scene) : Scene :=
  mkScene (DPR s) (width s) (height s) (cx s) (cy s) (canvas_width s)
    (canvas_height s) (blackHoleGradient s) (running s) v (particles s)
    (bigBangTime s) (heroShakeUntil s) (heroTransform s) (meteors s)
    (meteorPool s) (lightnings s) (lastTime s) (lastMeteorSpawn s) (seed s).
Definition set_particles (v : list Particle.t) (s : Scene) : Scene :=
  mkScene (DPR s) (width s) (height s) (cx s) (cy s) (canvas_width s)
    (canvas_height s) (blackHoleGradient s) (running s) (stars s) v
    (bigBangTime s) (heroShakeUntil s) (heroTransform s) (meteors s)
    (meteorPool s) (lightnings s) (lastTime s) (lastMeteorSpawn s) (seed s).
Definition set_bigBangTime (v : option Qc) (s : Scene) : Scene :=
  mkScene (DPR s) (width s) (height s) (cx s) (cy s) (canvas_width s)
    (canvas_height s) (blackHoleGradient s) (running s) (stars s) (particles
    s) v (heroShakeUntil s) (heroTransform s) (meteors s) (meteorPool s)
    (lightnings s) (lastTime s) (lastMeteorSpawn s) (seed s).
Definition set_heroShakeUntil (v : Qc) (s : Scene) : Scene :=
  mkScene (DPR s) (width s) (height s) (cx s) (cy s) (canvas_width s)
    (canvas_height s) (blackHoleGradient s) (running s) (stars s) (particles
    s) (bigBangTime s) v (heroTransform s) (meteors s) (meteorPool s)
    (lightnings s) (lastTime s) (lastMeteorSpawn s) (seed s).
Definition set_heroTransform (v : option (Qc * Qc)) (s : Scene) : Scene :=
  mkScene (DPR s) (width s) (height s) (cx s) (cy s) (canvas_width s)
    (canvas_height s) (blackHoleGradient s) (running s) (stars s) (particles
    s) (bigBangTime s) (heroShakeUntil s) v (meteors s) (meteorPool s)
    (lightnings s) (lastTime s) (lastMeteorSpawn s) (seed s).
Definition set_meteors (v : list Meteor.t) (s : Scene) : Scene :=
  mkScene (DPR s) (width s) (height s) (cx s) (cy s) (canvas_width s)
    (canvas_height s) (blackHoleGradient s) (running s) (stars s) (particles
    s) (bigBangTime s) (heroShakeUntil s) (heroTransform s) v (meteorPool s)
    (lightnings s) (lastTime s) (lastMeteorSpawn s) (seed s).
Definition set_meteorPool (v : list Meteor.t) (s : Scene) : Scene :=
  mkScene (DPR s) (width s) (height s) (cx s) (cy s) (canvas_width s)
    (canvas_height s) (blackHoleGradient s) (running s) (stars s) (particles
    s) (bigBangTime s) (heroShakeUntil s) (heroTransform s) (meteors s) v
    (lightnings s) (lastTime s) (lastMeteorSpawn s) (seed s).
Definition set_lightnings (v : list Bolt.t) (s : Scene) : Scene :=
  mkScene (DPR s) (width s) (height s) (cx s) (cy s) (canvas_width s)
    (canvas_height s) (blackHoleGradient s) (running s) (stars s) (particles
    s) (bigBangTime s) (heroShakeUntil s) (heroTransform s) (meteors s)
    (meteorPool s) v (lastTime s) (lastMeteorSpawn s) (seed s).
Definition set_lastTime (v : Qc) (s : Scene) : Scene :=
  mkScene (DPR s) (width s) (height s) (cx s) (cy s) (canvas_width s)
    (canvas_height s) (blackHoleGradient s) (running s) (stars s) (particles
    s) (bigBangTime s) (heroShakeUntil s) (heroTransform s) (meteors s)
    (meteorPool s) (lightnings s) v (lastMeteorSpawn s) (seed s).
Definition set_lastMeteorSpawn (v : Qc) (s : Scene) : Scene :=
  mkScene (DPR s) (width s) (height s) (cx s) (cy s) (canvas_width s)
    (canvas_height s) (blackHoleGradient s) (running s) (stars s) (particles
    s) (bigBangTime s) (heroShakeUntil s) (heroTransform s) (meteors s)
    (meteorPool s) (lightnings s) (lastTime s) v (seed s).
Definition set_seed (v : nat) (s : Scene) : Scene :=
  mkScene (DPR s) (width s) (height s) (cx s) (cy s) (canvas_width s)
    (canvas_height s) (blackHoleGradient s) (running s) (stars s) (particles
    s) (bigBangTime s) (heroShakeUntil s) (heroTransform s) (meteors s)
    (meteorPool s) (lightnings s) (lastTime s) (lastMeteorSpawn s) v.

Section Model.

(** The seeded source behind [Math.random], [Math.sin], [Math.cos], and
    whether the page has an element with id [hero]. *)
Variable Math_random : nat -> Qc.
Variables Math_sin Math_cos : Qc -> Qc.
Variable heroEl : bool.

(** ** Utility helpers *)

Definition random : Rand Qc := fun n => (Math_random n, S n).

(** [rand] and [randInt] in exact arithmetic. *)
Definition rand (min max : Qc) : Rand Qc :=
  r ← random; mret (r * (max - min) + min).

Definition randInt (min max : Qc) : Rand Z :=
  v ← rand min (max + 1); mret (Math_floor v).

(** The same helpers in double arithmetic, every operation rounded: there
    the sum of [rand] can be rounded up to [max], and [randInt] then returns
    [max + 1]. *)
Definition rand64 (min max : Qc) : Rand Qc :=
  r ← random; mret (double (double (r * double (max - min)) + min)).

Definition randInt64 (min max : Qc) : Rand Z :=
  v ← rand64 min (double (max + 1)); mret (Math_floor v).

Definition clamp (v a b : Qc) : Qc := Math_max a (Math_min b v).

(** ** Resize handling *)

Definition createBlackHoleGradient (width height cx cy : Qc) : Gradient.t :=
  let r := Math_min width height * lit 0.12 in
  Gradient.mk cx cy (r * lit 0.06) cx cy r.

(** [resize] reads the bounding rectangle of the canvas, the size of the
    window and the device pixel ratio: they are its arguments here. *)
Definition resize (rect_width rect_height innerWidth innerHeight
                   devicePixelRatio : Qc) (s : Scene) : Scene :=
  let DPR' := if CONFIG.useDevicePixelRatio
              then Math_max 1 (orElse devicePixelRatio 1) else 1 in
  let cssW := orElse rect_width innerWidth in
  let cssH := orElse rect_height innerHeight in
  let width' := Math_max 1 (ofZ (Math_floor cssW)) in
  let height' := Math_max 1 (ofZ (Math_floor cssH)) in
  let cx' := width' / lit 2 in
  let cy' := height' / lit 2 in
  mkScene DPR' width' height' cx' cy'
    (Math_floor (width' * DPR')) (Math_floor (height' * DPR'))
    (Some (createBlackHoleGradient width' height' cx' cy'))
    (running s) (stars s) (particles s) (bigBangTime s) (heroShakeUntil s)
    (heroTransform s) (meteors s) (meteorPool s) (lightnings s) (lastTime s)
    (lastMeteorSpawn s) (seed s).

(** ** Star system *)

Definition newStar (width height : Qc) : Rand Star.t :=
  rx ← random; ry ← random; rs ← random; ra ← random; rp ← random;
  rt ← random;
  mret {| Star.x := rx * width;
          Star.y := ry * height;
          Star.size := rs * lit 1.4 + lit 0.2;
          Star.baseAlpha := ra * lit 0.8 + lit 0.2;
          Star.twinklePhase := rp * Math_PI * lit 2;
          Star.twinkleSpeed := (rt * lit 0.8 + lit 0.2) * CONFIG.starTwinkleSpeed |}.

Definition initStars (s : Scene) : Scene :=
  let (l, n) := pushN CONFIG.maxStars (newStar (width s) (height s)) [] (seed s) in
  set_seed n (set_stars l s).

(** ** Big Bang explosion particles *)

Definition burstParticle (cx cy : Qc) : Rand Particle.t :=
  r ← random;
  let angle := r * Math_PI * lit 2 in
  speed ← rand (lit 80) (lit 480);
  life ← rand (lit 700) (lit 1400);
  rs ← random;
  hue ← randInt (lit 20) (lit 60);
  light ← randInt (lit 50) (lit 70);
  mret {| Particle.x := cx;
          Particle.y := cy;
          Particle.vx := Math_cos angle * speed * CONFIG.timeScale;
          Particle.vy := Math_sin angle * speed * CONFIG.timeScale;
          Particle.life := life;
          Particle.age := 0;
          Particle.size := rs * lit 2.5 + lit 0.6;
          Particle.hue := hue;
          Particle.light := light |}.

(** [now] is what [performance.now()] returns inside [pulseHero]. *)
Definition pulseHero (now : Qc) (s : Scene) : Scene :=
  if heroEl then set_heroShakeUntil (now + lit 900) s else s.

(** [t] is the time read by [triggerBigBang], [t'] the one read by
    [pulseHero]. *)
Definition triggerBigBang (t t' : Qc) (s : Scene) : Scene :=
  let count := Nat.min CONFIG.maxParticles 140 in
  let (l, n) := pushN count (burstParticle (cx s) (cy s)) [] (seed s) in
  pulseHero t' (set_seed n (set_particles l (set_bigBangTime (Some t) s))).

(** ** Meteor system (pooled) *)

Definition freshMeteor : Meteor.t :=
  Meteor.mk 0 0 0 0 0 0 [] (lit 2) 40.

(** The assignments of [createMeteor] to the meteor [m] taken from the pool
    (or fresh): every field but the trail array is overwritten; the trail is
    emptied and primed with the spawn point. *)
Definition spawnMeteor (width height : Qc) (m : Meteor.t) : Rand Meteor.t :=
  side ← random;
  '(x, y, vx, vy) ←
    (if decide (side < lit 0.6) then
       x ← rand (- width * lit 0.2) (width * lit 1.2);
       angle ← rand (Math_PI * lit 0.15) (Math_PI * lit 0.35);
       d ← random;
       let dir := if decide (d < lit 0.5) then 1 else - (1) in
       mret (x, - lit 20,
             Math_cos angle * lit 900 * dir * CONFIG.timeScale,
             Math_sin angle * lit 900 * CONFIG.timeScale)
     else
       tb ← random;
       if decide (tb < lit 0.5) then
         y ← rand 0 height;
         vx ← rand (lit 600) (lit 1100);
         vy ← rand (- lit 200) (lit 200);
         mret (- lit 30, y, vx * CONFIG.timeScale, vy * CONFIG.timeScale)
       else
         y ← rand 0 height;
         vx ← rand (lit 600) (lit 1100);
         vy ← rand (- lit 200) (lit 200);
         mret (width + lit 30, y, - vx * CONFIG.timeScale, vy * CONFIG.timeScale));
  life ← rand (lit 900) (lit 2200);
  size ← rand 1 (lit 2.6);
  hue ← randInt (lit 20) (lit 45);
  mret {| Meteor.x := x; Meteor.y := y; Meteor.vx := vx; Meteor.vy := vy;
          Meteor.life := life; Meteor.age := 0;
          Meteor.trail := take 0 (Meteor.trail m) ++ [Point.mk x y];
          Meteor.size := size; Meteor.hue := hue |}.

Definition createMeteor (s : Scene) : Scene :=
  if decide (CONFIG.maxMeteors <= length (meteors s))%nat then s else
  let (popped, pool) := Array_pop (meteorPool s) in
  let m := default freshMeteor popped in
  let (m', n) := spawnMeteor (width s) (height s) m (seed s) in
  set_seed n (set_meteors (meteors s ++ [m']) (set_meteorPool pool s)).

(** ** Lightning shots *)

(** The body of the loop [for (let i = 1; i <= segments; i++)], run [k] more
    times. *)
Fixpoint boltPath (k : nat) (segments startY endY lastX lastY : Qc)
    (points : list Point.t) : Rand (list Point.t) :=
  match k with
  | O => mret points
  | S k' =>
      jx ← rand (- lit 80) (lit 80);
      let px := lastX + jx in
      jy ← rand (- lit 20) (lit 40);
      let py := lastY + (endY - startY) / segments + jy in
      boltPath k' segments startY endY px py (points ++ [Point.mk px py])
  end.

Definition newBolt (width height : Qc) : Rand Bolt.t :=
  startX ← rand 0 width;
  startY ← rand 0 (height * lit 0.2);
  endY ← rand (height * lit 0.2) (height * lit 0.8);
  segments ← randInt (lit 4) (lit 8);
  points ← boltPath (Z.to_nat segments) (ofZ segments) startY endY startX startY
             [Point.mk startX startY];
  life ← rand (lit 120) (lit 260);
  mret (Bolt.mk points 0 life 1).

Definition spawnLightning (s : Scene) : Scene :=
  let (b, n) := newBolt (width s) (height s) (seed s) in
  let l := lightnings s ++ [b] in
  set_seed n
    (set_lightnings (if decide (6 < length l)%nat then Array_shift l else l) s).




(** ** Draw functions *)

Definition drawBackground (s : Scene) : list Draw :=
  [Background (width s) (height s)].

Definition drawStars (t : Qc) (s : Scene) : list Draw :=
  map (fun st =>
         let a := Star.baseAlpha st
                  + Math_sin (t * Star.twinkleSpeed st * CONFIG.timeScale
                              + Star.twinklePhase st) * lit 0.35 in
         StarDot (clamp a (lit 0.05) 1) (Star.x st) (Star.y st) (Star.size st))
      (stars s).

Definition drawBlackHole (s : Scene) : list Draw :=
  let r := Math_min (width s) (height s) * lit 0.12 in
  [HoleGlow (cx s) (cy s) r (blackHoleGradient s);
   HoleDisc (cx s) (cy s) (r * lit 0.38)].

(** The loop [for (let i = particles.length - 1; i >= 0; i--)]: [k] is
    [i + 1]. *)
Fixpoint drawParticles_loop (dt : Qc) (k : nat) (ps : list Particle.t)
    (out : list Draw) : option (list Particle.t * list Draw) :=
  match k with
  | O => Some (ps, out)
  | S i =>
      p ← ps !! i;
      let age := Particle.age p + dt in
      if decide (Particle.life p <= age) then
        drawParticles_loop dt i (Array_splice1 i ps) out
      else
        let t := age / Particle.life p in
        let vy := Particle.vy p
                  + lit 600 * (dt / lit 1000) * lit 0.45 * CONFIG.timeScale in
        let x := Particle.x p
                 + Particle.vx p * (dt / lit 1000) * CONFIG.timeScale in
        let y := Particle.y p + vy * (dt / lit 1000) * CONFIG.timeScale in
        let alpha := 1 - t in
        let p' := Particle.mk x y (Particle.vx p) vy (Particle.life p) age
                    (Particle.size p) (Particle.hue p) (Particle.light p) in
        drawParticles_loop dt i (<[i:=p']> ps)
          (out ++ [ParticleDot alpha x y (Particle.size p * (1 - t) + lit 0.3)
                     (Particle.hue p) (Particle.light p)])
  end.

Definition drawParticles (dt : Qc) (s : Scene) : option (Scene * list Draw) :=
  match particles s with
  | [] => Some (s, [])
  | ps =>
      '(ps', out) ← drawParticles_loop dt (length ps) ps [];
      Some (set_particles ps' s, out)
  end.

(** Age and Euler step of one meteor. *)
Definition integrateMeteor (dt : Qc) (m : Meteor.t) : Meteor.t :=
  let age := Meteor.age m + dt in
  let vy := Meteor.vy m + lit 300 * (dt / lit 1000) * CONFIG.timeScale in
  let x := Meteor.x m + Meteor.vx m * (dt / lit 1000) * CONFIG.timeScale in
  let y := Meteor.y m + vy * (dt / lit 1000) * CONFIG.timeScale in
  Meteor.mk x y (Meteor.vx m) vy (Meteor.life m) age (Meteor.trail m)
    (Meteor.size m) (Meteor.hue m).

Definition set_trail (tr : list Point.t) (m : Meteor.t) : Meteor.t :=
  Meteor.mk (Meteor.x m) (Meteor.y m) (Meteor.vx m) (Meteor.vy m)
    (Meteor.life m) (Meteor.age m) tr (Meteor.size m) (Meteor.hue m).

(** Push a trail point or move the last one; reading the last point of an
    empty trail is a [TypeError]. *)
Definition updateTrail (m : Meteor.t) : option Meteor.t :=
  lastp ← Meteor.trail m !! (length (Meteor.trail m) - 1)%nat;
  let dx := Meteor.x m - Point.x lastp in
  let dy := Meteor.y m - Point.y lastp in
  let here := Point.mk (Meteor.x m) (Meteor.y m) in
  if decide (lit 16 < dx * dx + dy * dy) then
    let tr := Meteor.trail m ++ [here] in
    Some (set_trail (if decide (CONFIG.maxMeteorTrail < length tr)%nat
                     then Array_shift tr else tr) m)
  else
    Some (set_trail (<[(length (Meteor.trail m) - 1)%nat := here]> (Meteor.trail m)) m).

(** The segments [trail[j], trail[j+1]] for [j] from the given index on. *)
Fixpoint trailSegments (len size : Qc) (j : nat) (tr : list Point.t) : list Draw :=
  match tr with
  | p0 :: ((p1 :: _) as rest) =>
      TrailSegment p0 p1 (ofNat j / len * lit 0.65)
        (1 + size * (1 - ofNat j / len) * lit 1.8)
      :: trailSegments len size (S j) rest
  | _ => []
  end.

Definition drawTrail (m : Meteor.t) : list Draw :=
  trailSegments (ofNat (length (Meteor.trail m))) (Meteor.size m) 0 (Meteor.trail m).

Definition headGlow (m : Meteor.t) : Rand Draw :=
  green ← randInt (lit 200) (lit 255);
  blue ← randInt (lit 160) (lit 230);
  mret (MeteorHead (Meteor.x m) (Meteor.y m) (Meteor.size m * lit 2.2) green blue).

(** The test that removes a meteor at the end of its update. *)
Definition leaves (width height : Qc) (m : Meteor.t) : Prop :=
  Meteor.life m < Meteor.age m \/ Meteor.x m < - lit 200
  \/ width + lit 200 < Meteor.x m \/ height + lit 200 < Meteor.y m.

#[global] Instance leaves_dec width height m : Decision (leaves width height m).
Proof. unfold leaves. apply _. Defined.

(** The loop [for (let i = meteors.length - 1; i >= 0; i--)]: [k] is [i + 1],
    [n] the cursor of the random source. *)
Fixpoint drawMeteors_loop (dt width height : Qc) (k : nat)
    (ms pool : list Meteor.t) (out : list Draw) (n : nat)
    : option (list Meteor.t * list Meteor.t * list Draw * nat) :=
  match k with
  | O => Some (ms, pool, out, n)
  | S i =>
      m ← ms !! i;
      m' ← updateTrail (integrateMeteor dt m);
      let (head, n') := headGlow m' n in
      let out' := out ++ drawTrail m' ++ [head] in
      if decide (leaves width height m') then
        drawMeteors_loop dt width height i (Array_splice1 i ms) (pool ++ [m'])
          out' n'
      else
        drawMeteors_loop dt width height i (<[i:=m']> ms) pool out' n'
  end.

Definition drawMeteors (dt : Qc) (s : Scene) : option (Scene * list Draw) :=
  match meteors s with
  | [] => Some (s, [])
  | ms =>
      '(ms', pool, out, n) ←
        drawMeteors_loop dt (width s) (height s) (length ms) ms (meteorPool s)
          [] (seed s);
      Some (set_seed n (set_meteors ms' (set_meteorPool pool s)), out)
  end.

(** The loop of [drawLightning]; [lineWidth] is [ctx.lineWidth], which the
    body leaves at 6.  Reading [pts[0].x] of an empty path is a
    [TypeError]. *)
Fixpoint drawLightning_loop (dt : Qc) (k : nat) (ls : list Bolt.t)
    (lineWidth : Qc) (out : list Draw) : option (list Bolt.t * list Draw) :=
  match k with
  | O => Some (ls, out)
  | S i =>
      L ← ls !! i;
      let age := Bolt.age L + dt in
      let alpha := clamp (1 - age / Bolt.life L) 0 1 in
      let pts := Bolt.points L in
      _ ← pts !! 0%nat;
      let out' := out ++ [BoltStroke pts alpha lineWidth;
                          BoltStroke pts (alpha * lit 0.25) (lit 6)] in
      if decide (Bolt.life L < age) then
        drawLightning_loop dt i (Array_splice1 i ls) (lit 6) out'
      else
        drawLightning_loop dt i
          (<[i:=Bolt.mk pts age (Bolt.life L) (Bolt.alpha L)]> ls) (lit 6) out'
  end.

Definition drawLightning (dt : Qc) (s : Scene) : option (Scene * list Draw) :=
  match lightnings s with
  | [] => Some (s, [])
  | ls =>
      '(ls', out) ← drawLightning_loop dt (length ls) ls (lit 2.2) [];
      Some (set_lightnings ls' s, out)
  end.

(** ** Main loop *)

Definition clampedDt (now : Qc) (s : Scene) : Qc :=
  Math_min (now - lastTime s) (lit 48).

(** Timers for the meteor spawn. *)
Definition meteorTimer (now : Qc) (s : Scene) : Scene :=
  let (r, n) := rand (lit 200) CONFIG.meteorSpawnInterval (seed s) in
  let s := set_seed n s in
  if decide (r < now - lastMeteorSpawn s)
  then set_lastMeteorSpawn now (createMeteor s) else s.

(** Probabilistic lightning spawn. *)
Definition lightningTimer (dt : Qc) (s : Scene) : Scene :=
  let (r, n) := random (seed s) in
  let s := set_seed n s in
  if decide (r < CONFIG.lightningChancePerSecond * (dt / lit 1000))
  then spawnLightning s else s.

(** Update of the hero shake. *)
Definition heroShake (now : Qc) (s : Scene) : Scene :=
  if heroEl then
    if decide (now < heroShakeUntil s) then
      let mag := (heroShakeUntil s - now) / lit 300 in
      let (a, n) := rand (- lit 3) (lit 3) (seed s) in
      let (b, n') := rand (- lit 2) (lit 2) n in
      set_seed n' (set_heroTransform (Some (a * mag, b * mag)) s)
    else set_heroTransform None s
  else s.

Definition flare (cx cy : Qc) : Rand Particle.t :=
  jx ← rand (- lit 20) (lit 20);
  jy ← rand (- lit 20) (lit 20);
  vx ← rand (- lit 160) (lit 160);
  vy ← rand (- lit 180) (lit 180);
  life ← rand (lit 200) (lit 900);
  size ← rand (lit 0.6) (lit 1.6);
  hue ← randInt (lit 20) (lit 50);
  light ← randInt (lit 60) (lit 80);
  mret (Particle.mk (cx + jx) (cy + jy) (vx * CONFIG.timeScale)
          (vy * CONFIG.timeScale) life 0 size hue light).

(** Big bang lifetime management: flares for 1200 ms after a big bang. *)
Definition flares (now : Qc) (s : Scene) : Scene :=
  match bigBangTime s with
  | Some t0 =>
      if decide (now - t0 < lit 1200) then
        let (r, n) := random (seed s) in
        let s := set_seed n s in
        if decide (r < lit 0.2) then
          let (p, n') := flare (cx s) (cy s) (seed s) in
          let ps := particles s ++ [p] in
          set_seed n'
            (set_particles (if decide (CONFIG.maxParticles < length ps)%nat
                            then Array_shift ps else ps) s)
        else s
      else s
  | None => s
  end.

(** The state on which the paint of the frame at [now] runs. *)
Definition timers (now : Qc) (s : Scene) : Scene :=
  let dt := clampedDt now s in
  heroShake now (lightningTimer dt (meteorTimer now (set_lastTime now s))).

Definition paint (now dt : Qc) (s : Scene) : option (Scene * list Draw) :=
  let d0 := drawBackground s ++ drawStars now s ++ drawBlackHole s in
  '(s, d1) ← drawParticles dt s;
  '(s, d2) ← drawMeteors dt s;
  '(s, d3) ← drawLightning dt s;
  Some (s, d0 ++ d1 ++ d2 ++ d3).

Definition loop (now : Qc) (s : Scene) : option (Scene * list Draw) :=
  if running s then
    let dt := clampedDt now s in
    '(s', out) ← paint now dt (timers now s);
    Some (flares now s', out)
  else Some (s, []).

(** ** Start, and what happens between frames *)

(** The module-level initialisers, [tLoad] being the time read at line
    [let lastTime = performance.now()]. *)
Definition initial (devicePixelRatio tLoad : Qc) : Scene :=
  mkScene (if CONFIG.useDevicePixelRatio
           then Math_max 1 (orElse devicePixelRatio 1) else 1)
    0 0 0 0 0%Z 0%Z None true [] [] None 0 None [] [] [] tLoad 0 O.

(** [init], without the timer it arms (the big bang it schedules is an
    event). *)
Definition init (rect_width rect_height innerWidth innerHeight
                 devicePixelRatio now : Qc) (s : Scene) : Scene :=
  let s := resize rect_width rect_height innerWidth innerHeight
             devicePixelRatio s in
  let s := initStars s in
  let s := createMeteor (createMeteor s) in
  set_lastTime now s.

Inductive Event : Type :=
  | Frame (now : Qc)
  | BigBang (t t' : Qc)
  | Resize (rect_width rect_height innerWidth innerHeight devicePixelRatio : Qc)
  | Visibility (visible : bool) (now : Qc).

Definition handle (s : Scene) (ev : Event) : option Scene :=
  match ev with
  | Frame now => fst <$> loop now s
  | BigBang t t' => Some (triggerBigBang t t' s)
  | Resize rw rh iw ih dpr => Some (resize rw rh iw ih dpr s)
  | Visibility visible now =>
      let s := set_running visible s in
      Some (if visible then set_lastTime now s else s)
  end.

Fixpoint run (s : Scene) (evs : list Event) : option Scene :=
  match evs with
  | [] => Some s
  | ev :: evs' => s' ← handle s ev; run s' evs'
  end.

(** ** The loops, entity by entity

    What one pass of a draw loop does to one entity; the loops are shown
    below to filter and map their array with these. *)

(** The particle after its update, [None] when it is spliced out. *)
Definition stepParticle (dt : Qc) (p : Particle.t) : option Particle.t :=
  let age := Particle.age p + dt in
  if decide (Particle.life p <= age) then None else
  let vy := Particle.vy p
            + lit 600 * (dt / lit 1000) * lit 0.45 * CONFIG.timeScale in
  Some (Particle.mk
          (Particle.x p + Particle.vx p * (dt / lit 1000) * CONFIG.timeScale)
          (Particle.y p + vy * (dt / lit 1000) * CONFIG.timeScale)
          (Particle.vx p) vy (Particle.life p) age (Particle.size p)
          (Particle.hue p) (Particle.light p)).

Definition dotParticle (dt : Qc) (p : Particle.t) : option Draw :=
  p' ← stepParticle dt p;
  let t := Particle.age p' / Particle.life p' in
  Some (ParticleDot (1 - t) (Particle.x p') (Particle.y p')
          (Particle.size p' * (1 - t) + lit 0.3)
          (Particle.hue p') (Particle.light p')).

(** The meteor after integration and trail update (the integrated meteor
    itself when the trail is empty, a case that raises in the loop). *)
Definition advance (dt : Qc) (m : Meteor.t) : Meteor.t :=
  default (integrateMeteor dt m) (updateTrail (integrateMeteor dt m)).

Definition stepBolt (dt : Qc) (b : Bolt.t) : Bolt.t :=
  Bolt.mk (Bolt.points b) (Bolt.age b + dt) (Bolt.life b) (Bolt.alpha b).

Definition fades (b : Bolt.t) : Prop := Bolt.life b < Bolt.age b.

(** ** Assumptions on the environment *)

(** [Math.random] returns a number of [[0, 1)]. *)
Definition seeded : Prop := forall n, 0 <= Math_random n /\ Math_random n < 1.

(** [Math.sin] is not negative on the angles of a meteor dropped from the
    top. *)
Definition sin_dives : Prop :=
  forall a, Math_PI * lit 0.15 <= a -> a <= Math_PI * lit 0.35 -> 0 <= Math_sin a.

(** Frames come with a time stamp that is not before the last one. *)
Definition timely (s : Scene) (ev : Event) : Prop :=
  match ev with
  | Frame now => lastTime s <= now
  | _ => True
  end.

Fixpoint chronological (s : Scene) (evs : list Event) : Prop :=
  match evs with
  | [] => True
  | ev :: evs' =>
      timely s ev /\
      match handle s ev with
      | Some s' => chronological s' evs'
      | None => True
      end
  end.

(** ** Invariants *)

(** The capacity ceilings and the shape of trails and paths. *)
Record bounded (s : Scene) : Prop := mkBounded {
  bounded_stars : length (stars s) = CONFIG.maxStars;
  bounded_meteors : (length (meteors s) <= CONFIG.maxMeteors)%nat;
  bounded_allocated :
    (length (meteors s) + length (meteorPool s) <= CONFIG.maxMeteors)%nat;
  bounded_particles : (length (particles s) <= CONFIG.maxParticles)%nat;
  bounded_lightnings : (length (lightnings s) <= 6)%nat;
  bounded_trails :
    Forall (fun m => (1 <= length (Meteor.trail m) <= CONFIG.maxMeteorTrail)%nat)
      (meteors s);
  bounded_paths : Forall (fun b => (1 <= length (Bolt.points b))%nat) (lightnings s) }.

(** How far above the spawn line a meteor can still climb: its upward speed
    is spent against the pull of [drawMeteors]. *)
Definition climb (vy : Qc) : Qc :=
  if decide (vy < 0) then vy * vy / lit 600 else 0.

Definition airborne (m : Meteor.t) : Prop :=
  climb (Meteor.vy m) - lit 37.5 <= Meteor.y m.

(** No entity that outlived its life is left in a pool, and every bolt has
    its 4 to 8 segments. *)
Record fresh (s : Scene) : Prop := mkFresh {
  fresh_particles :
    Forall (fun p => Particle.age p < Particle.life p) (particles s);
  fresh_meteors : Forall (fun m => Meteor.age m <= Meteor.life m) (meteors s);
  fresh_lightnings :
    Forall (fun b => Bolt.age b <= Bolt.life b
                     /\ (5 <= length (Bolt.points b) <= 9)%nat) (lightnings s) }.

(** No meteor is far above the surface. *)
Record aloft (s : Scene) : Prop := mkAloft {
  aloft_height : 0 <= height s;
  aloft_meteors : Forall airborne (meteors s) }.

(** The scene after the three draw loops of a frame. *)
Definition painted (dt : Qc) (s : Scene) : Scene :=
  let ms := advance dt <$> meteors s in
  set_lightnings (filter (fun b => ~ fades b) (stepBolt dt <$> lightnings s))
    (set_seed (seed s + 2 * length (meteors s))%nat
       (set_meteors (filter (fun m => ~ leaves (width s) (height s) m) ms)
          (set_meteorPool
             (meteorPool s ++ filter (leaves (width s) (height s)) (reverse ms))
             (set_particles (omap (stepParticle dt) (particles s)) s)))).

(** The exits of the surface by more than 200 pixels, side by side. *)
Definition exits (width height : Qc) (m : Meteor.t) : Prop :=
  Meteor.x m < - lit 200 \/ width + lit 200 < Meteor.x m
  \/ Meteor.y m < - lit 200 \/ height + lit 200 < Meteor.y m.

(** The start of the program. *)
Definition boot (rect_width rect_height innerWidth innerHeight
                 devicePixelRatio tLoad now : Qc) : Scene :=
  init rect_width rect_height innerWidth innerHeight devicePixelRatio now
    (initial devicePixelRatio tLoad).

(** ** The draw loops as filters *)

Lemma stepParticle_None dt p :
  Particle.life p <= Particle.age p + dt -> stepParticle dt p = None.
Proof. intros H. unfold stepParticle. by rewrite decide_True. Qed.

Lemma dotParticle_None dt p : stepParticle dt p = None -> dotParticle dt p = None.
Proof. intros H. unfold dotParticle. by rewrite H. Qed.

Lemma drawParticles_loop_spec dt pre post out :
  drawParticles_loop dt (length pre) (pre ++ post) out
  = Some (omap (stepParticle dt) pre ++ post,
          out ++ omap (dotParticle dt) (reverse pre)).
Proof.
  revert post out. induction pre as [|p pre IH] using rev_ind; intros post out.
  - cbn. by rewrite app_nil_r.
  - rewrite length_app, Nat.add_1_r, <- app_assoc. cbn [drawParticles_loop].
    change ([p] ++ post) with (p :: post).
    rewrite list_lookup_middle by done. cbn [mbind option_bind].
    rewrite reverse_app, !omap_app. change (reverse [p]) with [p].
    change (omap (stepParticle dt) [p])
      with (match stepParticle dt p with Some y => [y] | None => [] end).
    change (omap (dotParticle dt) [p])
      with (match dotParticle dt p with Some y => [y] | None => [] end).
    unfold Array_splice1.
    destruct (decide (Particle.life p <= Particle.age p + dt)) as [Hd|Hd].
    + rewrite (dotParticle_None dt p), (stepParticle_None dt p) by
        auto using stepParticle_None.
      rewrite delete_middle, IH, app_nil_r. done.
    + unfold dotParticle. unfold stepParticle at 2 3.
      rewrite decide_False by done. cbn [mbind option_bind].
      cbn [Particle.age Particle.life Particle.x Particle.y Particle.size
           Particle.hue Particle.light].
      rewrite insert_app_r_alt by done.
      rewrite Nat.sub_diag. cbn [insert list_insert app].
      rewrite IH, <- !app_assoc. done.
Qed.

Lemma drawParticles_spec dt s :
  drawParticles dt s
  = Some (set_particles (omap (stepParticle dt) (particles s)) s,
          omap (dotParticle dt) (reverse (particles s))).
Proof.
  unfold drawParticles. destruct (particles s) as [|p ps] eqn:E.
  - destruct s; cbn in *; by subst.
  - pose proof (drawParticles_loop_spec dt (p :: ps) [] []) as H.
    rewrite app_nil_r in H. rewrite H. cbn [mbind option_bind].
    by rewrite app_nil_r.
Qed.

(** *** Meteors *)

Lemma updateTrail_Some m :
  Meteor.trail m <> [] -> exists m', updateTrail m = Some m'.
Proof.
  intros Hne. unfold updateTrail.
  destruct (lookup_lt_is_Some_2 (Meteor.trail m) (length (Meteor.trail m) - 1))
    as [lastp ->].
  { destruct (Meteor.trail m); [done | cbn; lia]. }
  cbn [mbind option_bind]. case_decide; eauto.
Qed.

Lemma advance_Some dt m :
  Meteor.trail m <> [] ->
  updateTrail (integrateMeteor dt m) = Some (advance dt m).
Proof.
  intros Hne. unfold advance.
  destruct (updateTrail_Some (integrateMeteor dt m)) as [m' ->]; done.
Qed.

Lemma headGlow_cursor m n : (headGlow m n).2 = S (S n).
Proof. reflexivity. Qed.

Lemma drawMeteors_loop_spec dt w h pre post pool out n :
  Forall (fun m => Meteor.trail m <> []) pre ->
  exists out',
    drawMeteors_loop dt w h (length pre) (pre ++ post) pool out n
    = Some (filter (fun m => ~ leaves w h m) (advance dt <$> pre) ++ post,
            pool ++ filter (leaves w h) (reverse (advance dt <$> pre)),
            out', (n + 2 * length pre)%nat).
Proof.
  revert post pool out n.
  induction pre as [|m pre IH] using rev_ind; intros post pool out n Hne.
  - cbn. rewrite app_nil_r, Nat.add_0_r. eauto.
  - rewrite Forall_app, Forall_singleton in Hne. destruct Hne as [Hpre Hm].
    rewrite length_app, Nat.add_1_r, <- app_assoc. cbn [drawMeteors_loop].
    change ([m] ++ post) with (m :: post).
    rewrite list_lookup_middle by done. cbn [mbind option_bind].
    rewrite advance_Some by exact Hm. cbn [mbind option_bind].
    destruct (headGlow (advance dt m) n) as [hd n'] eqn:Ehd.
    assert (n' = S (S n)) as -> by (by rewrite <- (headGlow_cursor (advance dt m) n), Ehd).
    rewrite fmap_app, reverse_app, !filter_app.
    change (reverse (advance dt <$> [m])) with [advance dt m].
    change (advance dt <$> [m]) with [advance dt m].
    rewrite !filter_cons, !filter_nil. unfold Array_splice1.
    destruct (decide (leaves w h (advance dt m))) as [Hl|Hl].
    + rewrite decide_False by tauto.
      rewrite delete_middle.
      destruct (IH post (pool ++ [advance dt m])
                  (out ++ drawTrail (advance dt m) ++ [hd]) (S (S n)) Hpre)
        as [out' ->].
      exists out'. rewrite app_nil_r, <- !app_assoc.
      replace (n + 2 * S (length pre))%nat with (S (S n) + 2 * length pre)%nat
        by lia.
      done.
    + rewrite decide_True by tauto.
      rewrite insert_app_r_alt by done.
      rewrite Nat.sub_diag. cbn [insert list_insert app].
      destruct (IH (advance dt m :: post) pool
                  (out ++ drawTrail (advance dt m) ++ [hd]) (S (S n)) Hpre)
        as [out' ->].
      exists out'. rewrite <- !app_assoc. cbn [app].
      replace (n + 2 * S (length pre))%nat with (S (S n) + 2 * length pre)%nat
        by lia.
      done.
Qed.

Lemma drawMeteors_spec dt s :
  Forall (fun m => Meteor.trail m <> []) (meteors s) ->
  exists out,
    drawMeteors dt s
    = Some (set_seed (seed s + 2 * length (meteors s))%nat
              (set_meteors
                 (filter (fun m => ~ leaves (width s) (height s) m)
                    (advance dt <$> meteors s))
                 (set_meteorPool
                    (meteorPool s
                     ++ filter (leaves (width s) (height s))
                          (reverse (advance dt <$> meteors s))) s)),
            out).
Proof.
  intros Hne. unfold drawMeteors. destruct (meteors s) as [|m ms] eqn:E.
  - exists []. destruct s; cbn in *; subst.
    by rewrite app_nil_r, Nat.add_0_r.
  - destruct (drawMeteors_loop_spec dt (width s) (height s) (m :: ms) []
                (meteorPool s) [] (seed s) Hne) as [out H].
    rewrite app_nil_r in H. rewrite H. cbn [mbind option_bind].
    exists out. by rewrite app_nil_r.
Qed.

(** *** Lightning *)

Lemma drawLightning_loop_spec dt pre post lw out :
  Forall (fun b => Bolt.points b <> []) pre ->
  exists out',
    drawLightning_loop dt (length pre) (pre ++ post) lw out
    = Some (filter (fun b => ~ fades b) (stepBolt dt <$> pre) ++ post, out').
Proof.
  revert post lw out.
  induction pre as [|b pre IH] using rev_ind; intros post lw out Hne.
  - cbn. eauto.
  - rewrite Forall_app, Forall_singleton in Hne. destruct Hne as [Hpre Hb].
    rewrite length_app, Nat.add_1_r, <- app_assoc. cbn [drawLightning_loop].
    change ([b] ++ post) with (b :: post).
    rewrite list_lookup_middle by done. cbn [mbind option_bind].
    destruct (Bolt.points b) as [|pt pts] eqn:Ept; [done|].
    cbn [lookup list_lookup mbind option_bind].
    rewrite fmap_app, filter_app.
    change (stepBolt dt <$> [b]) with [stepBolt dt b].
    rewrite filter_cons, filter_nil. unfold Array_splice1, fades at 2.
    cbn [stepBolt Bolt.life Bolt.age].
    destruct (decide (Bolt.life b < Bolt.age b + dt)) as [Hf|Hf].
    + rewrite decide_False by tauto. rewrite delete_middle.
      edestruct IH as [out' ->]; [done|]. exists out'.
      by rewrite app_nil_r.
    + rewrite decide_True by tauto.
      rewrite insert_app_r_alt by done.
      rewrite Nat.sub_diag. cbn [insert list_insert app].
      edestruct IH as [out' ->]; [done|]. exists out'.
      rewrite <- app_assoc. unfold stepBolt. rewrite Ept. done.
Qed.

Lemma drawLightning_spec dt s :
  Forall (fun b => Bolt.points b <> []) (lightnings s) ->
  exists out,
    drawLightning dt s
    = Some (set_lightnings
              (filter (fun b => ~ fades b) (stepBolt dt <$> lightnings s)) s,
            out).
Proof.
  intros Hne. unfold drawLightning. destruct (lightnings s) as [|b bs] eqn:E.
  - exists []. destruct s; cbn in *; by subst.
  - destruct (drawLightning_loop_spec dt (b :: bs) [] (lit 2.2) [] Hne)
      as [out H].
    rewrite app_nil_r in H. rewrite H. cbn [mbind option_bind].
    exists out. by rewrite app_nil_r.
Qed.


(** ** Generators *)

Ltac cfg :=
  unfold CONFIG.maxMeteors, CONFIG.maxMeteorTrail, CONFIG.maxParticles,
    CONFIG.maxStars in *.

Ltac scene_simpl :=
  cbn [DPR width height cx cy canvas_width canvas_height blackHoleGradient
       running stars particles bigBangTime heroShakeUntil heroTransform
       meteors meteorPool lightnings lastTime lastMeteorSpawn seed
       set_running set_stars set_particles set_bigBangTime set_heroShakeUntil
       set_heroTransform set_meteors set_meteorPool set_lightnings
       set_lastTime set_lastMeteorSpawn set_seed fst snd] in *.

Ltac rand_simpl f :=
  cbv [f rand randInt random mbind Rand_bind mret Rand_ret]; cbn [fst snd].


Lemma pushN_length {A} (gen : Rand A) count arr n :
  length (pushN count gen arr n).1 = (length arr + count)%nat.
Proof.
  revert arr n. induction count as [|count IH]; intros arr n; cbn.
  - lia.
  - unfold mbind, Rand_bind. destruct (gen n) as [a n'].
    rewrite IH, length_app. cbn. lia.
Qed.

Lemma pushN_Forall {A} (P : A -> Prop) (gen : Rand A) count arr n :
  (forall k, P (gen k).1) -> Forall P arr -> Forall P (pushN count gen arr n).1.
Proof.
  intros Hgen. revert arr n. induction count as [|count IH]; intros arr n Harr; cbn.
  - done.
  - unfold mbind, Rand_bind. destruct (gen n) as [a n'] eqn:E.
    apply IH. apply Forall_app. split; [done|].
    apply Forall_singleton. specialize (Hgen n). by rewrite E in Hgen.
Qed.

Lemma boltPath_S k segments startY endY lastX lastY points n :
  boltPath (S k) segments startY endY lastX lastY points n
  = let px := lastX + (Math_random n * (lit 80 - - lit 80) + - lit 80) in
    let py := lastY + (endY - startY) / segments
              + (Math_random (S n) * (lit 40 - - lit 20) + - lit 20) in
    boltPath k segments startY endY px py (points ++ [Point.mk px py]) (S (S n)).
Proof. reflexivity. Qed.

Lemma boltPath_length k segments startY endY lastX lastY points n :
  length (boltPath k segments startY endY lastX lastY points n).1
  = (length points + k)%nat.
Proof.
  revert lastX lastY points n.
  induction k as [|k IH]; intros lastX lastY points n.
  - cbn. lia.
  - rewrite boltPath_S, IH, length_app. cbn. lia.
Qed.

Lemma newBolt_points w h n :
  exists segments : Z,
    segments = Math_floor (Math_random (n + 3)%nat * (lit 8 + 1 - lit 4) + lit 4)
    /\ length (Bolt.points (newBolt w h n).1) = S (Z.to_nat segments)
    /\ Bolt.age (newBolt w h n).1 = 0
    /\ Bolt.life (newBolt w h n).1
       = Math_random ((newBolt w h n).2 - 1)%nat * (lit 260 - lit 120) + lit 120.
Proof.
  eexists. split; [reflexivity|].
  replace (n + 3)%nat with (S (S (S n))) by lia.
  rand_simpl newBolt.
  match goal with
  | |- context [boltPath ?k ?a ?b ?c ?d ?e ?f ?g] =>
      pose proof (boltPath_length k a b c d e f g) as Hlen;
      destruct (boltPath k a b c d e f g) as [pts n']
  end.
  cbn [fst snd Bolt.points Bolt.age Bolt.life] in *.
  replace (S n' - 1)%nat with n' by lia. rewrite Hlen. auto.
Qed.

(** ** Ranges of the random draws *)

Lemma rand64_range a b n :
  seeded -> a <= b ->
  double a <= (rand64 a b n).1
  /\ (rand64 a b n).1 <= double (double (double (b - a)) + a).
Proof.
  intros Hs Hab. destruct (Hs n) as [H0 H1].
  cbv [rand64 random mbind Rand_bind mret Rand_ret]. cbn [fst].
  assert (Hd : 0 <= double (b - a)).
  { rewrite <- double_0. apply double_mono. qc_lra. }
  set (d := double (b - a)) in *. clearbody d.
  assert (Hp0 : 0 <= double (Math_random n * d)).
  { rewrite <- double_0. apply double_mono. qc_nra. }
  assert (Hp1 : double (Math_random n * d) <= double d).
  { apply double_mono. qc_nra. }
  set (p := double (Math_random n * d)) in *. set (dd := double d) in *.
  clearbody p dd. split; apply double_mono; qc_lra.
Qed.

Lemma floor_between (x : Qc) (lo hi : Z) :
  ofZ lo <= x -> x <= ofZ hi -> (lo <= Math_floor x <= hi)%Z.
Proof.
  intros Hlo Hhi. unfold Math_floor. split.
  - rewrite <- (Qfloor_Z lo). apply Qfloor_resp_le. revert Hlo. by qc_unfold.
  - rewrite <- (Qfloor_Z hi). apply Qfloor_resp_le. revert Hhi. by qc_unfold.
Qed.

Lemma randInt64_range (lo hi : Z) n :
  seeded -> (lo <= hi)%Z ->
  double (ofZ lo) = ofZ lo ->
  double (double (double (double (ofZ hi + 1) - ofZ lo)) + ofZ lo)
  = ofZ (hi + 1) ->
  (lo <= (randInt64 (ofZ lo) (ofZ hi) n).1 <= hi + 1)%Z.
Proof.
  intros Hs Hlh Elo Ehi.
  assert (Hle : ofZ lo <= double (ofZ hi + 1)).
  { rewrite <- Elo. apply double_mono. rewrite Zle_Qle in Hlh. qc_lra. }
  destruct (rand64_range (ofZ lo) (double (ofZ hi + 1)) n Hs Hle) as [H1 H2].
  rewrite Elo in H1. rewrite Ehi in H2.
  cbv [randInt64 mbind Rand_bind mret Rand_ret].
  destruct (rand64 _ _ n) as [v n']. cbn [fst] in *.
  by apply floor_between.
Qed.




Lemma affine_range (r a b : Qc) :
  0 <= r -> r < 1 -> a <= b -> a <= r * (b - a) + a /\ r * (b - a) + a <= b.
Proof. intros. split; qc_nra. Qed.

Lemma affine_below (r a b : Qc) :
  0 <= r -> r < 1 -> a < b -> r * (b - a) + a < b.
Proof. intros. qc_nra. Qed.

Lemma floor_range (x : Qc) (lo hi : Z) :
  ofZ lo <= x -> x < ofZ (hi + 1) -> (lo <= Math_floor x <= hi)%Z.
Proof.
  intros Hlo Hhi. unfold Math_floor.
  pose proof (Qfloor_le x) as H1. pose proof (Qlt_floor x) as H2.
  qc_unfold. split.
  - apply Z.lt_succ_r. rewrite <- Z.add_1_r, Zlt_Qlt.
    eapply Qle_lt_trans; eassumption.
  - apply Z.lt_succ_r. rewrite <- Z.add_1_r, Zlt_Qlt.
    eapply Qle_lt_trans; eassumption.
Qed.

Lemma rand_range a b n :
  seeded -> a <= b -> a <= (rand a b n).1 /\ (rand a b n).1 <= b.
Proof. intros Hs Hab. destruct (Hs n). by apply affine_range. Qed.

Lemma randInt_range (lo hi : Z) n :
  seeded -> (lo <= hi)%Z ->
  (lo <= (randInt (ofZ lo) (ofZ hi) n).1 <= hi)%Z.
Proof.
  intros Hs Hab. destruct (Hs n) as [H0 H1].
  rand_simpl randInt. apply floor_range.
  - apply affine_range; [done..|]. rewrite Zle_Qle in Hab. qc_lra.
  - replace (ofZ (hi + 1)) with (ofZ hi + 1).
    + apply affine_below; [done..|]. rewrite Zle_Qle in Hab. qc_lra.
    + apply Qc_is_canon. qc_unfold. rewrite inject_Z_plus. reflexivity.
Qed.

(** ** The capacity ceilings are invariant *)

Lemma updateTrail_snoc m tr lastp :
  Meteor.trail m = tr ++ [lastp] ->
  let dx := Meteor.x m - Point.x lastp in
  let dy := Meteor.y m - Point.y lastp in
  let here := Point.mk (Meteor.x m) (Meteor.y m) in
  updateTrail m
  = Some (set_trail
            (if decide (lit 16 < dx * dx + dy * dy) then
               if decide (CONFIG.maxMeteorTrail < length (tr ++ [lastp; here]))%nat
               then Array_shift (tr ++ [lastp; here]) else tr ++ [lastp; here]
             else tr ++ [here]) m).
Proof.
  intros E. cbv zeta. unfold updateTrail. rewrite E.
  assert (length (tr ++ [lastp]) - 1 = length tr)%nat as ->
    by (rewrite length_app; cbn; lia).
  rewrite list_lookup_middle by done. cbn [mbind option_bind].
  case_decide.
  - rewrite <- app_assoc. done.
  - rewrite insert_app_r_alt, Nat.sub_diag by done. done.
Qed.

Lemma advance_trail dt m :
  (1 <= length (Meteor.trail m) <= CONFIG.maxMeteorTrail)%nat ->
  (1 <= length (Meteor.trail (advance dt m)) <= CONFIG.maxMeteorTrail)%nat.
Proof.
  intros Hlen. unfold advance.
  destruct (exists_last (l := Meteor.trail m)) as (tr0 & p0 & E).
  { intros E. rewrite E in Hlen. cbn in Hlen. lia. }
  rewrite (updateTrail_snoc (integrateMeteor dt m) tr0 p0) by done.
  change (default ?a (Some ?b)) with b.
  cbn [set_trail Meteor.trail]. unfold CONFIG.maxMeteorTrail in *.
  rewrite E, length_app in Hlen. cbn [length] in Hlen.
  repeat case_decide;
    rewrite ?Array_shift_length, ?length_app in *; cbn [length] in *; lia.
Qed.

Lemma spawnMeteor_trail w h m n :
  let m' := (spawnMeteor w h m n).1 in
  Meteor.trail m' = [Point.mk (Meteor.x m') (Meteor.y m')] /\ Meteor.age m' = 0.
Proof.
  rand_simpl spawnMeteor.
  repeat case_decide; cbn [fst Meteor.trail Meteor.x Meteor.y Meteor.age];
    by rewrite take_0.
Qed.

Lemma Array_pop_length {A} (l : list A) :
  length (Array_pop l).2 = (length l - 1)%nat
  /\ (l <> [] -> is_Some (Array_pop l).1).
Proof.
  unfold Array_pop. cbn. rewrite length_take. split; [lia|].
  intros Hne. by apply last_is_Some.
Qed.

Lemma filter_split_length {A} (P : A -> Prop) `{!forall x, Decision (P x)} l :
  (length (filter (fun x => ~ P x) l) + length (filter P l))%nat = length l.
Proof.
  rewrite <- (Permutation_length (filter_app_complement P l)), length_app. lia.
Qed.

Lemma bounded_resize rw rh iw ih dpr s :
  bounded s -> bounded (resize rw rh iw ih dpr s).
Proof. intros []. by constructor. Qed.

Lemma bounded_pulseHero t s : bounded s -> bounded (pulseHero t s).
Proof. intros []. unfold pulseHero. destruct heroEl; by constructor. Qed.

Lemma triggerBigBang_particles t t' s :
  particles (triggerBigBang t t' s)
  = (pushN (Nat.min CONFIG.maxParticles 140) (burstParticle (cx s) (cy s)) []
       (seed s)).1.
Proof.
  unfold triggerBigBang, pulseHero.
  destruct (pushN _ _ _ _) as [l n]. by destruct heroEl.
Qed.

Lemma bounded_triggerBigBang t t' s :
  bounded s -> bounded (triggerBigBang t t' s).
Proof.
  intros Hb.
  assert (length (particles (triggerBigBang t t' s)) <= CONFIG.maxParticles)%nat
    as Hlen.
  { rewrite triggerBigBang_particles, pushN_length.
    unfold CONFIG.maxParticles. cbn [length]. lia. }
  revert Hlen. unfold triggerBigBang, pulseHero.
  destruct (pushN _ _ _ _) as [l n]. destruct Hb.
  destruct heroEl; by constructor.
Qed.

Lemma createMeteor_full s :
  (CONFIG.maxMeteors <= length (meteors s))%nat -> createMeteor s = s.
Proof. intros H. unfold createMeteor. by rewrite decide_True. Qed.

(** A call of [createMeteor] below the ceiling appends one meteor, taken
    from the pool when the pool has one. *)
Lemma createMeteor_spawn s :
  (length (meteors s) < CONFIG.maxMeteors)%nat ->
  let m := default freshMeteor (Array_pop (meteorPool s)).1 in
  let r := spawnMeteor (width s) (height s) m (seed s) in
  createMeteor s
  = set_seed r.2
      (set_meteors (meteors s ++ [r.1])
         (set_meteorPool (Array_pop (meteorPool s)).2 s)).
Proof.
  intros H. cbv zeta. unfold createMeteor. rewrite decide_False by lia.
  destruct (Array_pop (meteorPool s)) as [popped pool]. cbn [fst snd].
  by destruct (spawnMeteor _ _ _ _).
Qed.

Lemma bounded_createMeteor s : bounded s -> bounded (createMeteor s).
Proof.
  intros Hb.
  destruct (decide (CONFIG.maxMeteors <= length (meteors s))%nat) as [Hfull|Hfree].
  { by rewrite createMeteor_full. }
  rewrite createMeteor_spawn by lia.
  destruct (Array_pop_length (meteorPool s)) as [Hlen _].
  destruct (spawnMeteor_trail (width s) (height s)
              (default freshMeteor (Array_pop (meteorPool s)).1) (seed s))
    as [Htrail _].
  destruct Hb. constructor; scene_simpl; cfg; try done.
  - rewrite length_app. cbn. lia.
  - rewrite length_app, Hlen. cbn. lia.
  - apply Forall_app. split; [done|]. apply Forall_singleton.
    rewrite Htrail. cbn. lia.
Qed.

Lemma spawnLightning_lightnings s :
  lightnings (spawnLightning s)
  = (if decide (6 <= length (lightnings s))%nat
     then Array_shift (lightnings s) else lightnings s)
    ++ [(newBolt (width s) (height s) (seed s)).1].
Proof.
  unfold spawnLightning. destruct (newBolt _ _ _) as [b n]. cbn.
  rewrite length_app. cbn [length].
  destruct (lightnings s) as [|b0 l]; cbn [length].
  - rewrite decide_False, decide_False by lia. done.
  - destruct (decide (6 < S (length l) + 1)%nat);
      [rewrite decide_True by lia | rewrite decide_False by lia]; done.
Qed.

Lemma bounded_spawnLightning s : bounded s -> bounded (spawnLightning s).
Proof.
  intros Hb.
  pose proof (spawnLightning_lightnings s) as Hl.
  destruct (newBolt_points (width s) (height s) (seed s)) as (seg & _ & Hpts & _).
  assert (Forall (fun b => (1 <= length (Bolt.points b))%nat) (lightnings (spawnLightning s))
          /\ (length (lightnings (spawnLightning s)) <= 6)%nat) as [H1 H2].
  { rewrite Hl. destruct Hb. split.
    - apply Forall_app. split.
      + case_decide; [|done]. destruct (lightnings s); [done|].
        by apply Forall_cons in bounded_paths0 as [_ ?].
      + apply Forall_singleton. lia.
    - rewrite length_app. cbn [length].
      case_decide; rewrite ?Array_shift_length; lia. }
  revert H1 H2. unfold spawnLightning. destruct (newBolt _ _ _) as [b n].
  destruct Hb. by constructor.
Qed.

Lemma bounded_set_seed n s : bounded s -> bounded (set_seed n s).
Proof. intros []. by constructor. Qed.

Lemma bounded_set_lastTime t s : bounded s -> bounded (set_lastTime t s).
Proof. intros []. by constructor. Qed.

Lemma bounded_set_lastMeteorSpawn t s :
  bounded s -> bounded (set_lastMeteorSpawn t s).
Proof. intros []. by constructor. Qed.

Lemma bounded_set_heroTransform t s :
  bounded s -> bounded (set_heroTransform t s).
Proof. intros []. by constructor. Qed.

Lemma bounded_set_running b s : bounded s -> bounded (set_running b s).
Proof. intros []. by constructor. Qed.

Lemma bounded_meteorTimer now s : bounded s -> bounded (meteorTimer now s).
Proof.
  intros Hb. unfold meteorTimer. destruct (rand _ _ _) as [r n].
  case_decide;
    auto using bounded_set_seed, bounded_set_lastMeteorSpawn, bounded_createMeteor.
Qed.

Lemma bounded_lightningTimer dt s : bounded s -> bounded (lightningTimer dt s).
Proof.
  intros Hb. unfold lightningTimer. destruct (random _) as [r n].
  case_decide; auto using bounded_set_seed, bounded_spawnLightning.
Qed.

Lemma bounded_heroShake now s : bounded s -> bounded (heroShake now s).
Proof.
  intros Hb. unfold heroShake. destruct heroEl; [|done].
  case_decide; [|by apply bounded_set_heroTransform].
  destruct (rand _ _ (seed s)) as [a n]. destruct (rand _ _ n) as [b n'].
  auto using bounded_set_seed, bounded_set_heroTransform.
Qed.

Lemma bounded_timers now s : bounded s -> bounded (timers now s).
Proof.
  intros Hb. unfold timers.
  auto using bounded_heroShake, bounded_lightningTimer, bounded_meteorTimer,
    bounded_set_lastTime.
Qed.

Lemma length_omap_le {A B} (f : A -> option B) (l : list A) :
  (length (omap f l) <= length l)%nat.
Proof. induction l as [|a l IH]; cbn; [lia|]. destruct (f a); cbn; lia. Qed.

Lemma bounded_drawParticles dt s :
  bounded s ->
  exists s' out, drawParticles dt s = Some (s', out) /\ bounded s'.
Proof.
  intros Hb. rewrite drawParticles_spec. do 2 eexists. split; [done|].
  pose proof (length_omap_le (stepParticle dt) (particles s)).
  destruct Hb. constructor; scene_simpl; try done. lia.
Qed.

Lemma trails_primed s :
  bounded s -> Forall (fun m => Meteor.trail m <> []) (meteors s).
Proof.
  intros Hb. eapply Forall_impl; [apply (bounded_trails s Hb)|].
  intros m Hm E. cbn beta in Hm. rewrite E in Hm. cbn in Hm. lia.
Qed.

Lemma paths_primed s :
  bounded s -> Forall (fun b => Bolt.points b <> []) (lightnings s).
Proof.
  intros Hb. eapply Forall_impl; [apply (bounded_paths s Hb)|].
  intros m Hm E. cbn beta in Hm. rewrite E in Hm. cbn in Hm. lia.
Qed.

Lemma bounded_drawMeteors dt s :
  bounded s ->
  exists s' out, drawMeteors dt s = Some (s', out) /\ bounded s'.
Proof.
  intros Hb. destruct (drawMeteors_spec dt s (trails_primed s Hb)) as [out ->].
  do 2 eexists. split; [done|].
  pose proof (filter_split_length (leaves (width s) (height s))
                (advance dt <$> meteors s)) as Hsplit.
  rewrite length_fmap in Hsplit.
  destruct Hb. constructor; scene_simpl; cfg; try done.
  - lia.
  - rewrite length_app, filter_reverse, length_reverse. lia.
  - apply Forall_forall. intros m' [_ Hin]%list_elem_of_filter.
    apply list_elem_of_fmap in Hin as (m & -> & Hin).
    apply advance_trail. cfg. by eapply Forall_forall in bounded_trails0.
Qed.

Lemma bounded_drawLightning dt s :
  bounded s ->
  exists s' out, drawLightning dt s = Some (s', out) /\ bounded s'.
Proof.
  intros Hb. destruct (drawLightning_spec dt s (paths_primed s Hb)) as [out ->].
  do 2 eexists. split; [done|].
  pose proof (length_filter (fun b => ~ fades b) (stepBolt dt <$> lightnings s))
    as Hlen.
  rewrite length_fmap in Hlen.
  destruct Hb. constructor; scene_simpl; try done.
  - lia.
  - apply Forall_forall. intros b' [_ Hin]%list_elem_of_filter.
    apply list_elem_of_fmap in Hin as (b & -> & Hin).
    cbn. by eapply Forall_forall in bounded_paths0.
Qed.

Lemma bounded_paint now dt s :
  bounded s -> exists s' out, paint now dt s = Some (s', out) /\ bounded s'.
Proof.
  intros Hb. unfold paint.
  destruct (bounded_drawParticles dt s Hb) as (s1 & d1 & -> & Hb1).
  cbn [mbind option_bind].
  destruct (bounded_drawMeteors dt s1 Hb1) as (s2 & d2 & -> & Hb2).
  cbn [mbind option_bind].
  destruct (bounded_drawLightning dt s2 Hb2) as (s3 & d3 & -> & Hb3).
  cbn [mbind option_bind]. eauto.
Qed.

Lemma flares_particles now s :
  particles (flares now s) = particles s
  \/ exists p,
       particles (flares now s)
       = (if decide (CONFIG.maxParticles <= length (particles s))%nat
          then Array_shift (particles s) else particles s) ++ [p]
       /\ Particle.age p = 0
       /\ exists r, p = (flare (cx s) (cy s) r).1.
Proof.
  unfold flares. destruct (bigBangTime s) as [t0|]; [|by left].
  case_decide; [|by left]. destruct (random (seed s)) as [r n].
  case_decide; [|by left]. right. scene_simpl.
  exists (flare (cx s) (cy s) n).1.
  split; [|split; [reflexivity | by exists n]].
  destruct (flare (cx s) (cy s) n) as [p n']. scene_simpl.
  rewrite length_app. cbn [length]. cfg.
  destruct (particles s) as [|p0 l]; cbn [length].
  - rewrite decide_False, decide_False by lia. done.
  - destruct (decide (180 < S (length l) + 1)%nat);
      [rewrite decide_True by lia | rewrite decide_False by lia]; done.
Qed.

Lemma bounded_flares now s : bounded s -> bounded (flares now s).
Proof.
  intros Hb.
  assert (length (particles (flares now s)) <= CONFIG.maxParticles)%nat as Hlen.
  { destruct (flares_particles now s) as [->|(p & -> & _)].
    - by destruct Hb.
    - destruct Hb. rewrite length_app. cbn [length]. cfg.
      case_decide; rewrite ?Array_shift_length; lia. }
  revert Hlen. unfold flares. destruct (bigBangTime s) as [t0|]; [|done].
  case_decide; [|done]. destruct (random (seed s)) as [r n].
  case_decide; [|by intros; apply bounded_set_seed].
  scene_simpl. destruct (flare _ _ _) as [p n']. scene_simpl.
  destruct Hb. by constructor.
Qed.

Lemma bounded_loop now s :
  bounded s -> exists s' out, loop now s = Some (s', out) /\ bounded s'.
Proof.
  intros Hb. unfold loop. destruct (running s); [|eauto].
  destruct (bounded_paint now (clampedDt now s) (timers now s))
    as (s' & out & -> & Hb'); [by apply bounded_timers|].
  cbn [mbind option_bind]. eauto using bounded_flares.
Qed.

Lemma bounded_handle s ev :
  bounded s -> exists s', handle s ev = Some s' /\ bounded s'.
Proof.
  intros Hb. destruct ev as [now|t t'|rw rh iw ih dpr|visible now]; cbn.
  - destruct (bounded_loop now s Hb) as (s' & out & -> & Hb'). cbn. eauto.
  - eauto using bounded_triggerBigBang.
  - eauto using bounded_resize.
  - eexists. split; [done|].
    destruct visible; auto using bounded_set_lastTime, bounded_set_running.
Qed.

Lemma bounded_run s evs :
  bounded s -> exists s', run s evs = Some s' /\ bounded s'.
Proof.
  revert s. induction evs as [|ev evs IH]; intros s Hb; cbn; [eauto|].
  destruct (bounded_handle s ev Hb) as (s' & -> & Hb'). cbn. auto.
Qed.

Lemma bounded_initStars s :
  (length (meteors s) <= CONFIG.maxMeteors)%nat ->
  length (meteorPool s) = O -> particles s = [] -> lightnings s = [] ->
  meteors s = [] ->
  bounded (initStars s).
Proof.
  intros H1 H2 H3 H4 H5. unfold initStars.
  pose proof (pushN_length (newStar (width s) (height s)) CONFIG.maxStars []
                (seed s)) as Hlen.
  destruct (pushN _ _ _ _) as [l n]. cbn [fst] in Hlen.
  constructor; scene_simpl; rewrite ?H3, ?H4, ?H5, ?H2; cbn; try done; cfg; lia.
Qed.

Lemma bounded_boot rw rh iw ih dpr tLoad now :
  bounded (boot rw rh iw ih dpr tLoad now).
Proof.
  unfold boot, init. apply bounded_set_lastTime.
  do 2 apply bounded_createMeteor. apply bounded_initStars; cbn; cfg; done || lia.
Qed.

(** ** A frame, step by step *)

Lemma paint_spec now dt s :
  bounded s -> exists out, paint now dt s = Some (painted dt s, out).
Proof.
  intros Hb. unfold paint. rewrite drawParticles_spec. cbn [mbind option_bind].
  set (s1 := set_particles _ s).
  destruct (drawMeteors_spec dt s1) as [d2 ->]; [exact (trails_primed s Hb)|].
  cbn [mbind option_bind]. set (s2 := set_seed _ _).
  destruct (drawLightning_spec dt s2) as [d3 ->]; [exact (paths_primed s Hb)|].
  cbn [mbind option_bind]. eauto.
Qed.

Lemma loop_spec now s :
  bounded s -> running s = true ->
  exists out,
    loop now s
    = Some (flares now (painted (clampedDt now s) (timers now s)), out).
Proof.
  intros Hb Hrun. unfold loop. rewrite Hrun.
  destruct (paint_spec now (clampedDt now s) (timers now s)) as [out ->];
    [by apply bounded_timers|].
  cbn [mbind option_bind]. eauto.
Qed.

Lemma loop_paused now s : running s = false -> loop now s = Some (s, []).
Proof. intros Hrun. unfold loop. by rewrite Hrun. Qed.

(** What the spawn timers and the hero shake of a frame leave of the pools:
    at most one meteor and one bolt are added. *)
Lemma timers_spec now s :
  let s1 := timers now s in
  width s1 = width s /\ height s1 = height s /\ particles s1 = particles s
  /\ stars s1 = stars s /\ lastTime s1 = now
  /\ ((meteors s1 = meteors s /\ meteorPool s1 = meteorPool s)
      \/ ((length (meteors s) < CONFIG.maxMeteors)%nat
          /\ exists n,
               meteors s1
               = meteors s
                 ++ [(spawnMeteor (width s) (height s)
                        (default freshMeteor (Array_pop (meteorPool s)).1) n).1]
               /\ meteorPool s1 = (Array_pop (meteorPool s)).2))
  /\ (lightnings s1 = lightnings s
      \/ exists n,
           lightnings s1
           = (if decide (6 <= length (lightnings s))%nat
              then Array_shift (lightnings s) else lightnings s)
             ++ [(newBolt (width s) (height s) n).1]).
Proof.
  cbv zeta. unfold timers.
  set (s0 := set_lastTime now s).
  assert (Hm : exists sm : Scene,
    meteorTimer now s0 = sm /\ width sm = width s /\ height sm = height s
    /\ particles sm = particles s /\ stars sm = stars s /\ lastTime sm = now
    /\ lightnings sm = lightnings s
    /\ ((meteors sm = meteors s /\ meteorPool sm = meteorPool s)
        \/ ((length (meteors s) < CONFIG.maxMeteors)%nat
            /\ exists n,
                 meteors sm
                 = meteors s
                   ++ [(spawnMeteor (width s) (height s)
                          (default freshMeteor (Array_pop (meteorPool s)).1) n).1]
                 /\ meteorPool sm = (Array_pop (meteorPool s)).2))).
  { eexists. split; [reflexivity|]. unfold meteorTimer.
    destruct (rand _ _ _) as [r n]. case_decide; [|by repeat split; auto].
    destruct (decide (CONFIG.maxMeteors <= length (meteors s))%nat).
    - rewrite createMeteor_full by done. repeat split; auto.
    - rewrite createMeteor_spawn by (subst s0; scene_simpl; cfg; lia).
      repeat split; auto. right. split; [cfg; lia|]. by exists n. }
  destruct Hm as (sm & -> & Hw & Hh & Hp & Hst & Ht & Hl & Hmm).
  assert (Hb : exists sl : Scene,
    lightningTimer (clampedDt now s) sm = sl /\ width sl = width s
    /\ height sl = height s /\ particles sl = particles s /\ stars sl = stars s
    /\ lastTime sl = now /\ meteors sl = meteors sm
    /\ meteorPool sl = meteorPool sm
    /\ (lightnings sl = lightnings s
        \/ exists n,
             lightnings sl
             = (if decide (6 <= length (lightnings s))%nat
                then Array_shift (lightnings s) else lightnings s)
               ++ [(newBolt (width s) (height s) n).1])).
  { eexists. split; [reflexivity|]. unfold lightningTimer.
    destruct (random _) as [r n]. case_decide; [|by repeat split; auto].
    pose proof (spawnLightning_lightnings (set_seed n sm)) as Hsl.
    revert Hsl. unfold spawnLightning. scene_simpl.
    destruct (newBolt _ _ _) as [b n'] eqn:E. scene_simpl. intros Hsl.
    rewrite Hw, Hh in E.
    repeat split; auto. right. exists n. rewrite Hsl, Hl, E. done. }
  destruct Hb as (sl & -> & Hw' & Hh' & Hp' & Hst' & Ht' & Hm' & Hmp' & Hl').
  rewrite <- Hm', <- Hmp' in Hmm. clear Hm' Hmp' Hw Hh Hp Hst Ht Hl.
  unfold heroShake. destruct heroEl; [|by repeat split].
  destruct (decide (now < heroShakeUntil sl)); [|by repeat split].
  destruct (rand _ _ (seed sl)) as [a n]. destruct (rand _ _ n) as [b n'].
  by repeat split.
Qed.

Lemma flares_frame now s :
  let s' := flares now s in
  width s' = width s /\ height s' = height s /\ stars s' = stars s
  /\ meteors s' = meteors s /\ meteorPool s' = meteorPool s
  /\ lightnings s' = lightnings s /\ lastTime s' = lastTime s.
Proof.
  cbv zeta. unfold flares. destruct (bigBangTime s); [|done].
  case_decide; [|done]. destruct (random _) as [r n]. case_decide; [|done].
  scene_simpl. by destruct (flare _ _ _).
Qed.

Lemma triggerBigBang_frame t t' s :
  let s' := triggerBigBang t t' s in
  width s' = width s /\ height s' = height s /\ stars s' = stars s
  /\ meteors s' = meteors s /\ meteorPool s' = meteorPool s
  /\ lightnings s' = lightnings s /\ lastTime s' = lastTime s
  /\ bigBangTime s' = Some t.
Proof.
  cbv zeta. unfold triggerBigBang, pulseHero.
  destruct (pushN _ _ _ _). by destruct heroEl.
Qed.

(** ** What the generators produce *)

Lemma burstParticle_spec cx cy n :
  seeded ->
  let p := (burstParticle cx cy n).1 in
  Particle.x p = cx /\ Particle.y p = cy /\ Particle.age p = 0
  /\ lit 700 <= Particle.life p /\ Particle.life p < lit 1400
  /\ (exists angle speed,
        0 <= angle /\ angle < Math_PI * lit 2
        /\ lit 80 <= speed /\ speed < lit 480
        /\ Particle.vx p = Math_cos angle * speed * CONFIG.timeScale
        /\ Particle.vy p = Math_sin angle * speed * CONFIG.timeScale)
  /\ (20 <= Particle.hue p <= 60)%Z /\ (50 <= Particle.light p <= 70)%Z.
Proof.
  intros Hs. rand_simpl burstParticle.
  cbn [Particle.x Particle.y Particle.age Particle.life Particle.vx Particle.vy
       Particle.hue Particle.light].
  destruct (Hs n) as [Ha0 Ha1]. destruct (Hs (S n)) as [Hb0 Hb1].
  destruct (Hs (S (S n))) as [Hc0 Hc1].
  split; [done|]. split; [done|]. split; [done|].
  split; [apply affine_range; [done..|qc_lra]|].
  split; [apply affine_below; [done..|qc_lra]|].
  split.
  - eexists _, _. repeat split; [| |apply affine_range; [done..|qc_lra]
                                | apply affine_below; [done..|qc_lra]].
    + unfold Math_PI. qc_nra.
    + unfold Math_PI. qc_nra.
  - split.
    + apply (randInt_range 20 60 (S (S (S (S n)))) Hs). lia.
    + apply (randInt_range 50 70 (S (S (S (S (S n))))) Hs). lia.
Qed.

Lemma flare_spec cx cy n :
  seeded ->
  let p := (flare cx cy n).1 in
  Particle.age p = 0 /\ lit 200 <= Particle.life p /\ Particle.life p < lit 900.
Proof.
  intros Hs. rand_simpl flare. cbn [Particle.age Particle.life].
  destruct (Hs (S (S (S (S n))))) as [H0 H1].
  split; [done|].
  split; [apply affine_range; [done..|qc_lra] | apply affine_below; [done..|qc_lra]].
Qed.

Lemma spawnMeteor_life w h m n :
  seeded ->
  let m' := (spawnMeteor w h m n).1 in
  Meteor.age m' = 0 /\ lit 900 <= Meteor.life m' /\ Meteor.life m' < lit 2200.
Proof.
  intros Hs. rand_simpl spawnMeteor.
  repeat case_decide; cbn [fst Meteor.age Meteor.life];
    (split; [done|]);
    (split; [apply affine_range; [apply Hs..|qc_lra]
            | apply affine_below; [apply Hs..|qc_lra]]).
Qed.

Lemma newBolt_spec w h n :
  seeded ->
  let b := (newBolt w h n).1 in
  Bolt.age b = 0 /\ lit 120 <= Bolt.life b /\ Bolt.life b < lit 260
  /\ exists segments : Z,
       (4 <= segments <= 8)%Z
       /\ length (Bolt.points b) = S (Z.to_nat segments).
Proof.
  intros Hs. cbv zeta.
  destruct (newBolt_points w h n) as (seg & Hseg & Hlen & Hage & Hlife).
  rewrite Hage, Hlife. split; [done|].
  split; [apply affine_range; [apply Hs..|qc_lra]|].
  split; [apply affine_below; [apply Hs..|qc_lra]|].
  exists seg. split; [|done]. subst seg.
  apply (randInt_range 4 8 (n + 3) Hs). lia.
Qed.

(** ** No expired entity survives a frame *)

Lemma Forall_shift {A} (P : A -> Prop) (l : list A) :
  Forall P l -> Forall P (Array_shift l).
Proof. intros H. destruct l; [done|]. by apply Forall_cons in H as [_ ?]. Qed.

Lemma Forall_shift_push {A} (P : A -> Prop) (l : list A) (full : Prop)
    `{!Decision full} (a : A) :
  Forall P l -> P a ->
  Forall P ((if decide full then Array_shift l else l) ++ [a]).
Proof.
  intros Hl Ha. apply Forall_app. split; [|by apply Forall_singleton].
  case_decide; auto using Forall_shift.
Qed.

Lemma fresh_timers now s : seeded -> fresh s -> fresh (timers now s).
Proof.
  intros Hs [Hp Hm Hl].
  destruct (timers_spec now s) as (_ & _ & Ep & _ & _ & Em & El).
  constructor.
  - by rewrite Ep.
  - destruct Em as [[-> _]|(_ & n & -> & _)]; [done|].
    apply Forall_app. split; [done|]. apply Forall_singleton.
    destruct (spawnMeteor_life (width s) (height s)
                (default freshMeteor (Array_pop (meteorPool s)).1) n Hs)
      as (-> & Hlife & _).
    qc_lra.
  - destruct El as [->|(n & ->)]; [done|].
    apply Forall_shift_push; [done|].
    destruct (newBolt_spec (width s) (height s) n Hs)
      as (-> & Hlife & _ & seg & Hseg & ->).
    split; [qc_lra | lia].
Qed.

Lemma fresh_painted dt s : fresh s -> fresh (painted dt s).
Proof.
  intros [Hp Hm Hl]. constructor; unfold painted; scene_simpl.
  - apply Forall_forall. intros p' (p & _ & Hstep)%list_elem_of_omap.
    unfold stepParticle in Hstep. case_decide; [done|].
    injection Hstep as <-. cbn. by apply Qclt_nge.
  - apply Forall_forall. intros m' [Hstay _]%list_elem_of_filter.
    apply Qcle_ngt. intros Hold. apply Hstay. by left.
  - apply Forall_forall. intros b' [Hstay Hin]%list_elem_of_filter.
    apply list_elem_of_fmap in Hin as (b & -> & Hin).
    split; [by apply Qcle_ngt|].
    cbn. by eapply Forall_forall in Hl as [_ ?].
Qed.

Lemma fresh_flares now s : seeded -> fresh s -> fresh (flares now s).
Proof.
  intros Hs [Hp Hm Hl].
  destruct (flares_frame now s) as (_ & _ & _ & Em & _ & El & _).
  constructor; rewrite ?Em, ?El; try done.
  destruct (flares_particles now s) as [->|(p & -> & _ & r & ->)]; [done|].
  apply Forall_shift_push; [done|].
  destruct (flare_spec (cx s) (cy s) r Hs) as (-> & Hlife & _). qc_lra.
Qed.

Lemma fresh_triggerBigBang t t' s :
  seeded -> fresh s -> fresh (triggerBigBang t t' s).
Proof.
  intros Hs [Hp Hm Hl].
  destruct (triggerBigBang_frame t t' s) as (_ & _ & _ & Em & _ & El & _).
  constructor; rewrite ?Em, ?El; try done.
  rewrite triggerBigBang_particles. apply pushN_Forall; [|done].
  intros k. destruct (burstParticle_spec (cx s) (cy s) k Hs)
    as (_ & _ & -> & Hlife & _).
  qc_lra.
Qed.

Lemma fresh_handle s ev s' :
  seeded -> bounded s -> fresh s -> handle s ev = Some s' -> fresh s'.
Proof.
  intros Hs Hb Hf.
  destruct ev as [now|t t'|rw rh iw ih dpr|visible now]; cbn.
  - destruct (running s) eqn:Hrun.
    + destruct (loop_spec now s Hb Hrun) as [out ->]. cbn. intros [= <-].
      auto using fresh_flares, fresh_painted, fresh_timers.
    + rewrite loop_paused by done. cbn. by intros [= <-].
  - intros [= <-]. by apply fresh_triggerBigBang.
  - intros [= <-]. destruct Hf. by constructor.
  - intros [= <-]. destruct Hf. destruct visible; by constructor.
Qed.

Lemma initStars_frame s :
  let s' := initStars s in
  width s' = width s /\ height s' = height s /\ particles s' = particles s
  /\ meteors s' = meteors s /\ meteorPool s' = meteorPool s
  /\ lightnings s' = lightnings s.
Proof. cbv zeta. unfold initStars. by destruct (pushN _ _ _ _). Qed.

Lemma createMeteor_frame s :
  let s' := createMeteor s in
  width s' = width s /\ height s' = height s /\ particles s' = particles s
  /\ stars s' = stars s /\ lightnings s' = lightnings s.
Proof.
  cbv zeta. unfold createMeteor. case_decide; [done|].
  destruct (Array_pop _). by destruct (spawnMeteor _ _ _ _).
Qed.

Lemma createMeteor_Forall (P : Meteor.t -> Prop) s :
  (forall m n, P (spawnMeteor (width s) (height s) m n).1) ->
  Forall P (meteors s) -> Forall P (meteors (createMeteor s)).
Proof.
  intros Hspawn Hm.
  destruct (decide (CONFIG.maxMeteors <= length (meteors s))%nat).
  - by rewrite createMeteor_full.
  - rewrite createMeteor_spawn by lia. scene_simpl.
    apply Forall_app. split; [done|]. by apply Forall_singleton.
Qed.

Lemma fresh_createMeteor s : seeded -> fresh s -> fresh (createMeteor s).
Proof.
  intros Hs [Hp Hm Hl].
  destruct (createMeteor_frame s) as (_ & _ & Ep & _ & El).
  constructor; rewrite ?Ep, ?El; try done.
  apply createMeteor_Forall; [|done]. intros m n.
  destruct (spawnMeteor_life (width s) (height s) m n Hs) as (-> & ? & _).
  qc_lra.
Qed.

Lemma fresh_boot rw rh iw ih dpr tLoad now :
  seeded -> fresh (boot rw rh iw ih dpr tLoad now).
Proof.
  intros Hs. unfold boot, init.
  set (s0 := resize rw rh iw ih dpr (initial dpr tLoad)).
  assert (fresh (initStars s0)) as Hf.
  { destruct (initStars_frame s0) as (_ & _ & Ep & Em & _ & El).
    constructor; rewrite ?Ep, ?Em, ?El; constructor. }
  do 2 apply fresh_createMeteor in Hf; [|done..].
  revert Hf. generalize (createMeteor (createMeteor (initStars s0))).
  intros s []. by constructor.
Qed.

Lemma fresh_run s evs s' :
  seeded -> bounded s -> fresh s -> run s evs = Some s' -> fresh s'.
Proof.
  intros Hs. revert s. induction evs as [|ev evs IH]; intros s Hb Hf; cbn.
  - by intros [= <-].
  - destruct (bounded_handle s ev Hb) as (s1 & E & Hb1). rewrite E. cbn.
    eauto using fresh_handle.
Qed.

(** ** No meteor leaves through the top *)

Lemma clampedDt_nonneg now s : lastTime s <= now -> 0 <= clampedDt now s.
Proof. intros H. unfold clampedDt, Math_min. case_decide; qc_lra. Qed.

Lemma advance_fields dt m :
  let m' := advance dt m in
  let i := integrateMeteor dt m in
  Meteor.x m' = Meteor.x i /\ Meteor.y m' = Meteor.y i
  /\ Meteor.vx m' = Meteor.vx i /\ Meteor.vy m' = Meteor.vy i
  /\ Meteor.life m' = Meteor.life i /\ Meteor.age m' = Meteor.age i
  /\ Meteor.size m' = Meteor.size i /\ Meteor.hue m' = Meteor.hue i.
Proof.
  cbv zeta. unfold advance, updateTrail.
  destruct (_ !! _); cbn [mbind option_bind default]; [|done].
  by case_decide.
Qed.

Lemma integrate_airborne dt m :
  0 <= dt -> airborne m -> airborne (integrateMeteor dt m).
Proof.
  unfold airborne, climb, integrateMeteor, CONFIG.timeScale.
  cbn [Meteor.y Meteor.vy]. intros Hdt Hm.
  repeat case_decide; qc_nra.
Qed.

Lemma advance_airborne dt m : 0 <= dt -> airborne m -> airborne (advance dt m).
Proof.
  intros Hdt Hm. pose proof (integrate_airborne dt m Hdt Hm) as Hi.
  destruct (advance_fields dt m) as (_ & Ey & _ & Evy & _).
  unfold airborne in *. by rewrite Ey, Evy.
Qed.

Lemma spawnMeteor_airborne w h m n :
  seeded -> sin_dives -> 0 <= h -> airborne (spawnMeteor w h m n).1.
Proof.
  intros Hs Hsin Hh. rand_simpl spawnMeteor.
  unfold airborne, climb, CONFIG.timeScale.
  destruct (decide (Math_random n < lit 0.6)).
  - cbn [fst Meteor.y Meteor.vy].
    set (angle := _ + Math_PI * lit 0.15).
    assert (0 <= Math_sin angle) as Hsa.
    { destruct (Hs (S (S n))). apply Hsin; subst angle.
      - apply affine_range; [done..|]. unfold Math_PI. qc_lra.
      - apply affine_range; [done..|]. unfold Math_PI. qc_lra. }
    case_decide; qc_nra.
  - destruct (decide (Math_random (S n) < lit 0.5));
      cbn [fst Meteor.y Meteor.vy];
      destruct (Hs (S (S n))); destruct (Hs (S (S (S (S n)))));
      case_decide; qc_nra.
Qed.

Lemma aloft_timers now s :
  seeded -> sin_dives -> aloft s -> aloft (timers now s).
Proof.
  intros Hs Hsin [Hh Hm].
  destruct (timers_spec now s) as (_ & Eh & _ & _ & _ & Em & _).
  constructor; [by rewrite Eh|].
  destruct Em as [[-> _]|(_ & n & -> & _)]; [done|].
  apply Forall_app. split; [done|]. apply Forall_singleton.
  by apply spawnMeteor_airborne.
Qed.

Lemma aloft_painted dt s : 0 <= dt -> aloft s -> aloft (painted dt s).
Proof.
  intros Hdt [Hh Hm]. constructor; unfold painted; scene_simpl; [done|].
  apply Forall_forall. intros m' [_ Hin]%list_elem_of_filter.
  apply list_elem_of_fmap in Hin as (m & -> & Hin).
  apply advance_airborne; [done|]. by eapply Forall_forall in Hm.
Qed.

Lemma aloft_flares now s : aloft s -> aloft (flares now s).
Proof.
  intros [Hh Hm].
  destruct (flares_frame now s) as (_ & Eh & _ & Em & _).
  constructor; by rewrite ?Eh, ?Em.
Qed.

Lemma Math_max_ge a b : a <= Math_max a b.
Proof. unfold Math_max. case_decide; qc_lra. Qed.

Lemma Math_max_pos b : 0 <= Math_max 1 b.
Proof. unfold Math_max. case_decide; qc_lra. Qed.

Lemma aloft_resize rw rh iw ih dpr s :
  aloft s -> aloft (resize rw rh iw ih dpr s).
Proof.
  intros [Hh Hm]. constructor; [|done]. apply Math_max_pos.
Qed.

Lemma aloft_handle s ev s' :
  seeded -> sin_dives -> bounded s -> aloft s -> timely s ev ->
  handle s ev = Some s' -> aloft s'.
Proof.
  intros Hs Hsin Hb Ha Ht.
  destruct ev as [now|t t'|rw rh iw ih dpr|visible now]; cbn in *.
  - destruct (running s) eqn:Hrun.
    + destruct (loop_spec now s Hb Hrun) as [out ->]. cbn. intros [= <-].
      auto using aloft_flares, aloft_painted, aloft_timers, clampedDt_nonneg.
    + rewrite loop_paused by done. cbn. by intros [= <-].
  - intros [= <-]. destruct Ha as [Hh Hm].
    destruct (triggerBigBang_frame t t' s) as (_ & Eh & _ & Em & _).
    constructor; by rewrite ?Eh, ?Em.
  - intros [= <-]. by apply aloft_resize.
  - intros [= <-]. destruct Ha. destruct visible; by constructor.
Qed.

Lemma aloft_createMeteor s :
  seeded -> sin_dives -> aloft s -> aloft (createMeteor s).
Proof.
  intros Hs Hsin [Hh Hm].
  destruct (createMeteor_frame s) as (_ & Eh & _).
  constructor; [by rewrite Eh|].
  apply createMeteor_Forall; [|done]. intros m n.
  by apply spawnMeteor_airborne.
Qed.

Lemma aloft_boot rw rh iw ih dpr tLoad now :
  seeded -> sin_dives -> aloft (boot rw rh iw ih dpr tLoad now).
Proof.
  intros Hs Hsin. unfold boot, init.
  set (s0 := resize rw rh iw ih dpr (initial dpr tLoad)).
  assert (aloft (initStars s0)) as Ha.
  { destruct (initStars_frame s0) as (_ & Eh & _ & Em & _).
    constructor; rewrite ?Eh, ?Em; [|constructor].
    subst s0. apply Math_max_pos. }
  do 2 apply aloft_createMeteor in Ha; [|done..].
  revert Ha. generalize (createMeteor (createMeteor (initStars s0))).
  intros s []. by constructor.
Qed.

(** ** The fields that frames leave alone *)

(** What no frame touches. *)
Definition still (s s' : Scene) : Prop :=
  running s' = running s /\ bigBangTime s' = bigBangTime s
  /\ heroShakeUntil s' = heroShakeUntil s
  /\ DPR s' = DPR s /\ width s' = width s /\ height s' = height s
  /\ cx s' = cx s /\ cy s' = cy s
  /\ canvas_width s' = canvas_width s /\ canvas_height s' = canvas_height s
  /\ blackHoleGradient s' = blackHoleGradient s /\ stars s' = stars s.

Lemma still_refl s : still s s.
Proof. by repeat split. Qed.

Lemma still_trans s1 s2 s3 : still s1 s2 -> still s2 s3 -> still s1 s3.
Proof.
  unfold still. intros H12 H23.
  destruct H12 as (?&?&?&?&?&?&?&?&?&?&?&?).
  destruct H23 as (?&?&?&?&?&?&?&?&?&?&?&?).
  repeat split; congruence.
Qed.

Lemma still_createMeteor s : still s (createMeteor s).
Proof.
  unfold createMeteor. case_decide; [apply still_refl|].
  destruct (Array_pop _). destruct (spawnMeteor _ _ _ _). by repeat split.
Qed.

Lemma still_spawnLightning s : still s (spawnLightning s).
Proof. unfold spawnLightning. destruct (newBolt _ _ _). by repeat split. Qed.

Lemma still_timers now s : still s (timers now s).
Proof.
  unfold timers.
  apply still_trans with (set_lastTime now s); [by repeat split|].
  generalize (set_lastTime now s). intros s0.
  apply still_trans with (meteorTimer now s0).
  { unfold meteorTimer. destruct (rand _ _ _) as [r n].
    case_decide; [|by repeat split].
    apply still_trans with (set_seed n s0); [by repeat split|].
    apply still_trans with (createMeteor (set_seed n s0));
      [apply still_createMeteor|by repeat split]. }
  generalize (meteorTimer now s0). intros s1.
  apply still_trans with (lightningTimer (clampedDt now s) s1).
  { unfold lightningTimer. destruct (random _) as [r n].
    case_decide; [|by repeat split].
    apply still_trans with (set_seed n s1); [by repeat split|].
    apply still_spawnLightning. }
  generalize (lightningTimer (clampedDt now s) s1). intros s2.
  unfold heroShake. destruct heroEl; [|apply still_refl].
  case_decide; [|by repeat split].
  destruct (rand _ _ (seed s2)) as [a n]. destruct (rand _ _ n) as [b n'].
  by repeat split.
Qed.

Lemma still_flares now s : still s (flares now s).
Proof.
  unfold flares. destruct (bigBangTime s); [|apply still_refl].
  case_decide; [|apply still_refl]. destruct (random _) as [r n].
  case_decide; [|by repeat split].
  cbn [cx cy seed set_seed]. destruct (flare _ _ _). by repeat split.
Qed.

Lemma still_loop now s :
  still s (flares now (painted (clampedDt now s) (timers now s))).
Proof.
  apply still_trans with (timers now s); [apply still_timers|].
  generalize (timers now s). intros s1.
  apply still_trans with (painted (clampedDt now s) s1);
    [by repeat split|apply still_flares].
Qed.

(** All three invariants along a run of the program. *)
Lemma run_invariant rw rh iw ih dpr tLoad t0 evs :
  seeded -> sin_dives ->
  chronological (boot rw rh iw ih dpr tLoad t0) evs ->
  exists s,
    run (boot rw rh iw ih dpr tLoad t0) evs = Some s
    /\ bounded s /\ fresh s /\ aloft s.
Proof.
  intros Hs Hsin.
  pose proof (bounded_boot rw rh iw ih dpr tLoad t0) as Hb.
  pose proof (fresh_boot rw rh iw ih dpr tLoad t0 Hs) as Hf.
  pose proof (aloft_boot rw rh iw ih dpr tLoad t0 Hs Hsin) as Ha.
  revert Hb Hf Ha. generalize (boot rw rh iw ih dpr tLoad t0). intros s.
  revert s. induction evs as [|ev evs IH]; intros s Hb Hf Ha Hc; cbn in *.
  - eauto.
  - destruct Hc as [Ht Hc].
    destruct (bounded_handle s ev Hb) as (s1 & E & Hb1).
    rewrite E in *. cbn.
    eauto using fresh_handle, aloft_handle.
Qed.

(** ** The claims on space.js *)

(** C1.  Whatever the events after the start (frames, big bangs, resizes,
    visibility changes), the run does not raise and the pools keep their
    ceilings: at most [CONFIG.maxMeteors] = 6 live meteors, at most
    [CONFIG.maxParticles] = 180 particles, at most 6 bolts, exactly
    [CONFIG.maxStars] stars, and at most 6 meteors in the live list and the
    recycle pool together.  A bolt pushed on a full list and a flare pushed
    on a full particle list shift the oldest element out. *)
Theorem capacity_ceilings rw rh iw ih dpr tLoad t0 evs :
  (exists s,
     run (boot rw rh iw ih dpr tLoad t0) evs = Some s
     /\ (length (meteors s) <= 6)%nat
     /\ (length (particles s) <= 180)%nat
     /\ (length (lightnings s) <= 6)%nat
     /\ length (stars s) = 250%nat
     /\ (length (meteors s) + length (meteorPool s) <= 6)%nat)
  /\ CONFIG.maxMeteors = 6%nat /\ CONFIG.maxParticles = 180%nat
  /\ (forall s,
        lightnings (spawnLightning s)
        = (if decide (6 <= length (lightnings s))%nat
           then Array_shift (lightnings s) else lightnings s)
          ++ [(newBolt (width s) (height s) (seed s)).1])
  /\ (forall now s,
        particles (flares now s) = particles s
        \/ exists p,
             particles (flares now s)
             = (if decide (180 <= length (particles s))%nat
                then Array_shift (particles s) else particles s) ++ [p]).
Proof.
  split; [|split; [done|split; [done|split]]].
  - pose proof (bounded_boot rw rh iw ih dpr tLoad t0) as Hb0.
    destruct (bounded_run _ evs Hb0) as (s & -> & Hb).
    exists s. destruct Hb. cfg. by repeat split.
  - apply spawnLightning_lightnings.
  - intros now s. destruct (flares_particles now s) as [H|(p & H & _)]; eauto.
Qed.

Lemma chronological_app s evs evs' s1 :
  chronological s (evs ++ evs') -> run s evs = Some s1 ->
  chronological s evs /\ chronological s1 evs'.
Proof.
  revert s. induction evs as [|ev evs IH]; intros s Hc Hrun; cbn in *.
  - by injection Hrun as <-.
  - destruct Hc as [Ht Hc]. destruct (handle s ev) as [s2|]; [|done].
    cbn in Hrun. destruct (IH s2 Hc Hrun). auto.
Qed.

Lemma elem_of_shift_push {A} (l : list A) (full : Prop) `{!Decision full}
    (a x : A) :
  x ∈ (if decide full then Array_shift l else l) ++ [a] -> x ∈ l \/ x = a.
Proof.
  intros [Hin|Hin%list_elem_of_singleton]%elem_of_app; [left|by right].
  case_decide; [|done]. destruct l; [done|]. cbn in Hin. by right.
Qed.

(** The time that the frame at [now] adds to the ages: none when the
    animation is paused. *)
Definition elapsed (now : Qc) (s : Scene) : Qc :=
  if running s then clampedDt now s else 0.

(** C2.  With [Math.random] in its range and frame time stamps that do not
    go back: after any events no pool holds an entity whose age exceeds its
    life, before the frame at [now] as after it (so none is there at the
    start of the next frame), and the frame does not raise.  While the
    animation runs the frame feeds its draw loops with the pools as they
    were, plus at most one meteor and one bolt spawned with age 0 by this
    very frame; it leaves the updates [advance], [stepBolt] and
    [stepParticle] of these entities, without the removed ones and in their
    order, plus at most one flare of age 0; each of these updates adds the
    elapsed time to the age, and the elapsed time is not negative.  Paused,
    the frame leaves the scene as it is.  Hence every entity left in a pool
    is the update of an entity that was there before the frame or was
    spawned by it, with an age that did not decrease. *)
Theorem ages_never_decrease rw rh iw ih dpr tLoad t0 evs now :
  seeded ->
  chronological (boot rw rh iw ih dpr tLoad t0) (evs ++ [Frame now]) ->
  exists s s' out,
    run (boot rw rh iw ih dpr tLoad t0) evs = Some s
    /\ loop now s = Some (s', out)
    /\ Forall (fun p => ~ Particle.life p < Particle.age p) (particles s)
    /\ Forall (fun m => ~ Meteor.life m < Meteor.age m) (meteors s)
    /\ Forall (fun b => ~ Bolt.life b < Bolt.age b) (lightnings s)
    /\ Forall (fun p => ~ Particle.life p < Particle.age p) (particles s')
    /\ Forall (fun m => ~ Meteor.life m < Meteor.age m) (meteors s')
    /\ Forall (fun b => ~ Bolt.life b < Bolt.age b) (lightnings s')
    /\ 0 <= elapsed now s
    /\ (if running s then
          let dt := clampedDt now s in
          let s1 := timers now s in
          let kept := omap (stepParticle dt) (particles s) in
          elapsed now s = dt
          /\ particles s1 = particles s
          /\ (meteors s1 = meteors s
              \/ exists m, meteors s1 = meteors s ++ [m] /\ Meteor.age m = 0)
          /\ (lightnings s1 = lightnings s
              \/ exists b,
                   lightnings s1
                   = (if decide (6 <= length (lightnings s))%nat
                      then Array_shift (lightnings s) else lightnings s) ++ [b]
                   /\ Bolt.age b = 0)
          /\ (particles s' = kept
              \/ exists p,
                   particles s'
                   = (if decide (180 <= length kept)%nat
                      then Array_shift kept else kept) ++ [p]
                   /\ Particle.age p = 0)
          /\ meteors s'
             = filter (fun m => ~ leaves (width s) (height s) m)
                 (advance dt <$> meteors s1)
          /\ lightnings s'
             = filter (fun b => ~ fades b) (stepBolt dt <$> lightnings s1)
        else elapsed now s = 0 /\ s' = s)
    /\ (forall dt p,
          match stepParticle dt p with
          | Some p' => Particle.age p' = Particle.age p + dt
          | None => Particle.life p <= Particle.age p + dt
          end)
    /\ (forall dt m, Meteor.age (advance dt m) = Meteor.age m + dt)
    /\ (forall dt b, Bolt.age (stepBolt dt b) = Bolt.age b + dt)
    /\ (forall p', p' ∈ particles s' ->
          Particle.age p' = 0
          \/ exists p, p ∈ particles s
                       /\ (p' = p \/ stepParticle (elapsed now s) p = Some p')
                       /\ Particle.age p' = Particle.age p + elapsed now s
                       /\ Particle.age p <= Particle.age p')
    /\ (forall m', m' ∈ meteors s' ->
          exists m, (m ∈ meteors s \/ Meteor.age m = 0)
                    /\ (m' = m \/ m' = advance (elapsed now s) m)
                    /\ Meteor.age m' = Meteor.age m + elapsed now s
                    /\ Meteor.age m <= Meteor.age m')
    /\ (forall b', b' ∈ lightnings s' ->
          exists b, (b ∈ lightnings s \/ Bolt.age b = 0)
                    /\ (b' = b \/ b' = stepBolt (elapsed now s) b)
                    /\ Bolt.age b' = Bolt.age b + elapsed now s
                    /\ Bolt.age b <= Bolt.age b').
Proof.
  intros Hs Hc.
  pose proof (bounded_boot rw rh iw ih dpr tLoad t0) as Hb0.
  destruct (bounded_run _ evs Hb0) as (s & Hrun & Hb).
  pose proof (fresh_run _ _ _ Hs Hb0 (fresh_boot rw rh iw ih dpr tLoad t0 Hs) Hrun)
    as Hf.
  destruct (chronological_app _ _ _ _ Hc Hrun) as [_ [Ht _]]. cbn in Ht.
  assert (Hdt : 0 <= elapsed now s).
  { unfold elapsed. destruct (running s); [by apply clampedDt_nonneg|done]. }
  destruct (bounded_loop now s Hb) as (s' & out & Hloop & Hb').
  assert (Hf' : fresh s').
  { apply (fresh_handle s (Frame now) s' Hs Hb Hf). cbn. by rewrite Hloop. }
  assert (Hage : forall dt m, Meteor.age (advance dt m) = Meteor.age m + dt).
  { intros dt m. by destruct (advance_fields dt m) as (_ & _ & _ & _ & _ & -> & _). }
  assert (Hstep : forall dt p,
            match stepParticle dt p with
            | Some p' => Particle.age p' = Particle.age p + dt
            | None => Particle.life p <= Particle.age p + dt
            end).
  { intros dt p. unfold stepParticle. by case_decide. }
  exists s, s', out. split; [done|]. split; [done|].
  split.
  { eapply Forall_impl; [apply Hf|]. intros p Hp. cbn in Hp.
    by apply Qcle_ngt, Qclt_le_weak. }
  split. { eapply Forall_impl; [apply Hf|]. intros m Hm. by apply Qcle_ngt. }
  split. { eapply Forall_impl; [apply Hf|]. intros b [Hm _]. by apply Qcle_ngt. }
  split.
  { eapply Forall_impl; [apply Hf'|]. intros p Hp. cbn in Hp.
    by apply Qcle_ngt, Qclt_le_weak. }
  split. { eapply Forall_impl; [apply Hf'|]. intros m Hm. by apply Qcle_ngt. }
  split. { eapply Forall_impl; [apply Hf'|]. intros b [Hm _]. by apply Qcle_ngt. }
  split; [done|].
  assert (Hpools :
    if running s then
      let dt := clampedDt now s in
      let s1 := timers now s in
      let kept := omap (stepParticle dt) (particles s) in
      elapsed now s = dt
      /\ particles s1 = particles s
      /\ (meteors s1 = meteors s
          \/ exists m, meteors s1 = meteors s ++ [m] /\ Meteor.age m = 0)
      /\ (lightnings s1 = lightnings s
          \/ exists b,
               lightnings s1
               = (if decide (6 <= length (lightnings s))%nat
                  then Array_shift (lightnings s) else lightnings s) ++ [b]
               /\ Bolt.age b = 0)
      /\ (particles s' = kept
          \/ exists p,
               particles s'
               = (if decide (180 <= length kept)%nat
                  then Array_shift kept else kept) ++ [p]
               /\ Particle.age p = 0)
      /\ meteors s'
         = filter (fun m => ~ leaves (width s) (height s) m)
             (advance dt <$> meteors s1)
      /\ lightnings s'
         = filter (fun b => ~ fades b) (stepBolt dt <$> lightnings s1)
    else elapsed now s = 0 /\ s' = s).
  { unfold elapsed. destruct (running s) eqn:Hr.
    - destruct (loop_spec now s Hb Hr) as [out' E]. rewrite E in Hloop.
      injection Hloop as <- _. clear E out'. cbv zeta.
      set (dt := clampedDt now s) in *. set (s1 := timers now s).
      destruct (timers_spec now s) as (Ew & Eh & Ep & _ & _ & Em & El).
      fold s1 in Ew, Eh, Ep, Em, El.
      destruct (flares_frame now (painted dt s1)) as (_ & _ & _ & Em' & _ & El' & _).
      split; [done|]. split; [done|].
      split.
      { destruct Em as [[E _]|(_ & n & E & _)]; [by left|right].
        eexists. split; [exact E|].
        by destruct (spawnMeteor_trail (width s) (height s)
          (default freshMeteor (Array_pop (meteorPool s)).1) n) as [_ ?]. }
      split.
      { destruct El as [E|(n & E)]; [by left|right].
        eexists. split; [exact E|].
        by destruct (newBolt_points (width s) (height s) n) as (? & _ & _ & ? & _). }
      split.
      { destruct (flares_particles now (painted dt s1)) as [E|(p & E & Hp0 & _)];
          rewrite E; unfold painted;
          cbn [particles set_lightnings set_seed set_meteors set_meteorPool
               set_particles];
          rewrite Ep; [by left|right].
        exists p. by split. }
      split.
      { rewrite Em'. unfold painted.
        cbn [meteors width height set_lightnings set_seed set_meteors].
        by rewrite Ew, Eh. }
      rewrite El'. unfold painted. by cbn [lightnings set_lightnings].
    - rewrite loop_paused in Hloop by done. by injection Hloop as <- _. }
  split; [exact Hpools|]. split; [exact Hstep|]. split; [exact Hage|].
  split; [done|].
  destruct (running s) eqn:Hr.
  - cbv zeta in Hpools.
    destruct Hpools as (Edt & Ep & Em & El & Ep' & Em' & El').
    rewrite Edt in *. set (dt := clampedDt now s) in *.
    split; [|split].
    + intros p' Hin.
      assert (Hcase : p' ∈ omap (stepParticle dt) (particles s)
                      \/ Particle.age p' = 0).
      { destruct Ep' as [E|(p & E & Hp0)]; rewrite E in Hin; [by left|].
        apply elem_of_shift_push in Hin as [?| ->]; auto. }
      destruct Hcase as [(p & Hp & Hp')%list_elem_of_omap|Hp0]; [|by left].
      right. exists p. pose proof (Hstep dt p) as Ha. rewrite Hp' in Ha.
      split; [done|]. split; [by right|]. split; [done|].
      rewrite Ha. clear -Hdt. qc_lra.
    + intros m'. rewrite Em'.
      intros [_ Hin]%list_elem_of_filter.
      apply list_elem_of_fmap in Hin as (m & -> & Hin).
      exists m. split.
      { destruct Em as [E|(m0 & E & Hm0)]; rewrite E in Hin; [by left|].
        apply elem_of_app in Hin as [?|Hin%list_elem_of_singleton]; [by left|].
        right. by subst m. }
      split; [by right|]. split; [apply Hage|].
      rewrite Hage. clear -Hdt. qc_lra.
    + intros b'. rewrite El'.
      intros [_ Hin]%list_elem_of_filter.
      apply list_elem_of_fmap in Hin as (b & -> & Hin).
      exists b. split.
      { destruct El as [E|(b0 & E & Hb0')]; rewrite E in Hin; [by left|].
        apply elem_of_shift_push in Hin as [?| ->]; [by left|by right]. }
      split; [by right|]. split; [done|].
      cbn [stepBolt Bolt.age]. clear -Hdt. qc_lra.
  - destruct Hpools as [Edt ->]. rewrite Edt.
    split; [|split].
    + intros p Hin. right. exists p. split; [done|]. split; [by left|].
      split; [by rewrite Qcplus_0_r|done].
    + intros m Hin. exists m. split; [by left|]. split; [by left|].
      split; [by rewrite Qcplus_0_r|done].
    + intros b Hin. exists b. split; [by left|]. split; [by left|].
      split; [by rewrite Qcplus_0_r|done].
Qed.

Lemma climb_nonneg vy : 0 <= climb vy.
Proof. unfold climb. case_decide; qc_nra. Qed.

Lemma airborne_not_above w h m :
  airborne m -> (leaves w h m <-> Meteor.life m < Meteor.age m \/ exits w h m).
Proof.
  intros Ha. pose proof (climb_nonneg (Meteor.vy m)) as Hc.
  unfold airborne in Ha. unfold leaves, exits. split.
  - intros [?|[?|[?|?]]]; auto.
  - intros [?|[?|[?|[Htop|?]]]]; auto. exfalso. clear -Ha Hc Htop. qc_lra.
Qed.

(** C3.  With [Math.random] in its range, [Math.sin] not negative on the
    angles of a dropped meteor and frame time stamps that do not go back:
    the frame at [now] keeps in the live list exactly the updated meteors
    that fail the removal test, in their order, and pushes the others on the
    recycle pool; for every updated meteor the removal test is equivalent to
    "its age exceeds its life, or it is more than 200 pixels off the surface
    on the left, right, top or bottom" (the code has no test for the top:
    no meteor of a run ever is more than 37.5 pixels above the surface).
    A spawn takes its meteor from the pool when there is one, and replaces
    whatever trail it had by the spawn point alone. *)
Theorem meteor_removal rw rh iw ih dpr tLoad t0 evs now :
  seeded -> sin_dives ->
  chronological (boot rw rh iw ih dpr tLoad t0) (evs ++ [Frame now]) ->
  exists s s' out,
    run (boot rw rh iw ih dpr tLoad t0) evs = Some s
    /\ loop now s = Some (s', out)
    /\ let s1 := timers now s in
       let ms := advance (clampedDt now s) <$> meteors s1 in
       (if running s then
          meteors s' = filter (fun m => ~ leaves (width s) (height s) m) ms
          /\ meteorPool s'
             = meteorPool s1 ++ filter (leaves (width s) (height s)) (reverse ms)
        else s' = s)
       /\ (forall m, m ∈ ms ->
             (leaves (width s) (height s) m
              <-> Meteor.life m < Meteor.age m \/ exits (width s) (height s) m)
             /\ - lit 37.5 <= Meteor.y m)
       /\ (forall s0, (length (meteors s0) < CONFIG.maxMeteors)%nat ->
             exists m',
               meteors (createMeteor s0) = meteors s0 ++ [m']
               /\ meteorPool (createMeteor s0) = (Array_pop (meteorPool s0)).2
               /\ Meteor.trail m' = [Point.mk (Meteor.x m') (Meteor.y m')]
               /\ (forall m, last (meteorPool s0) = Some m ->
                     m' = (spawnMeteor (width s0) (height s0) m (seed s0)).1)).
Proof.
  intros Hs Hsin Hc.
  assert (Hpre : chronological (boot rw rh iw ih dpr tLoad t0) evs
                 /\ exists s, run (boot rw rh iw ih dpr tLoad t0) evs = Some s).
  { destruct (bounded_run _ evs (bounded_boot rw rh iw ih dpr tLoad t0))
      as (s & Hrun & _).
    destruct (chronological_app _ _ _ _ Hc Hrun). eauto. }
  destruct Hpre as [Hc0 _].
  destruct (run_invariant rw rh iw ih dpr tLoad t0 evs Hs Hsin Hc0)
    as (s & Hrun & Hb & Hf & Ha).
  destruct (chronological_app _ _ _ _ Hc Hrun) as [_ [Ht _]]. cbn in Ht.
  destruct (bounded_loop now s Hb) as (s' & out & Hloop & _).
  exists s, s', out. split; [done|]. split; [done|]. cbv zeta.
  split; [|split].
  - destruct (running s) eqn:Hr.
    + destruct (loop_spec now s Hb Hr) as [out' E]. rewrite E in Hloop.
      injection Hloop as <- _.
      destruct (flares_frame now (painted (clampedDt now s) (timers now s)))
        as (_ & _ & _ & -> & -> & _).
      destruct (timers_spec now s) as (Ew & Eh & _).
      unfold painted.
      cbn [meteors meteorPool set_lightnings set_seed set_meteors set_meteorPool].
      by rewrite Ew, Eh.
    + rewrite loop_paused in Hloop by done. by injection Hloop as <- _.
  - intros m (m0 & -> & Hin)%list_elem_of_fmap.
    pose proof (aloft_timers now s Hs Hsin Ha) as [_ Ham].
    eapply Forall_forall in Ham; [|done].
    pose proof (advance_airborne (clampedDt now s) m0
                  (clampedDt_nonneg now s Ht) Ham) as Ha'.
    split; [by apply airborne_not_above|].
    pose proof (climb_nonneg (Meteor.vy (advance (clampedDt now s) m0))) as Hcl.
    unfold airborne in Ha'. clear -Ha' Hcl. qc_lra.
  - intros s0 Hlen. rewrite createMeteor_spawn by done.
    eexists. cbn [meteors meteorPool set_seed set_meteors set_meteorPool].
    split; [done|]. split; [done|]. split.
    + apply spawnMeteor_trail.
    + intros m Hlast. unfold Array_pop. cbn [fst]. by rewrite Hlast.
Qed.


(** C4.  After any events every live meteor has a trail of 1 to
    [CONFIG.maxMeteorTrail] = 8 points.  A frame replaces every live meteor
    by its update [advance] (and drops those that leave); the update of a
    meteor whose trail ends with [lastp] appends the new position when its
    squared distance to [lastp] exceeds 16, shifting the oldest point out
    when that makes more than 8 points, and otherwise overwrites [lastp]
    with the new position, the other points staying as they are. *)
Theorem trail_within_bounds rw rh iw ih dpr tLoad t0 evs now :
  (exists s s' out,
     run (boot rw rh iw ih dpr tLoad t0) evs = Some s
     /\ loop now s = Some (s', out)
     /\ Forall (fun m => (1 <= length (Meteor.trail m) <= 8)%nat) (meteors s)
     /\ Forall (fun m => (1 <= length (Meteor.trail m) <= 8)%nat) (meteors s')
     /\ (if running s then
           meteors s'
           = filter (fun m => ~ leaves (width s) (height s) m)
               (advance (clampedDt now s) <$> meteors (timers now s))
         else s' = s))
  /\ CONFIG.maxMeteorTrail = 8%nat
  /\ forall dt m tr lastp,
       let i := integrateMeteor dt m in
       let here := Point.mk (Meteor.x i) (Meteor.y i) in
       let dx := Meteor.x i - Point.x lastp in
       let dy := Meteor.y i - Point.y lastp in
       Meteor.trail (advance dt (set_trail (tr ++ [lastp]) m))
       = if decide (lit 16 < dx * dx + dy * dy) then
           if decide (8 < length (tr ++ [lastp; here]))%nat
           then Array_shift (tr ++ [lastp; here]) else tr ++ [lastp; here]
         else tr ++ [here].
Proof.
  split; [|split; [done|]].
  - destruct (bounded_run _ evs (bounded_boot rw rh iw ih dpr tLoad t0))
      as (s & Hrun & Hb).
    destruct (bounded_loop now s Hb) as (s' & out & Hloop & Hb').
    exists s, s', out. split; [done|]. split; [done|].
    split; [apply Hb|]. split; [apply Hb'|].
    destruct (running s) eqn:Hr.
    + destruct (loop_spec now s Hb Hr) as [out' E]. rewrite E in Hloop.
      injection Hloop as <- _.
      destruct (flares_frame now (painted (clampedDt now s) (timers now s)))
        as (_ & _ & _ & -> & _).
      destruct (timers_spec now s) as (Ew & Eh & _).
      unfold painted. cbn [meteors set_lightnings set_seed set_meteors].
      by rewrite Ew, Eh.
    + rewrite loop_paused in Hloop by done. by injection Hloop as <- _.
  - intros dt m tr lastp. cbv zeta. unfold advance.
    rewrite (updateTrail_snoc (integrateMeteor dt (set_trail (tr ++ [lastp]) m))
               tr lastp) by done.
    reflexivity.
Qed.

(** A generator that always draws [k] numbers fills the array with its
    values at the cursors [n], [n + k], [n + 2 k], ... *)
Lemma pushN_draws {A} (gen : Rand A) (k count : nat) (arr : list A) (n : nat) :
  (forall j, (gen j).2 = (j + k)%nat) ->
  pushN count gen arr n
  = (arr ++ ((fun i => (gen (n + k * i)%nat).1) <$> seq 0 count),
     (n + k * count)%nat).
Proof.
  intros Hk. revert arr n. induction count as [|count IH]; intros arr n.
  - cbn. by rewrite app_nil_r, Nat.mul_0_r, Nat.add_0_r.
  - cbn [pushN]. unfold mbind, Rand_bind.
    pose proof (Hk n) as Hn. destruct (gen n) as [a n'] eqn:E.
    cbn [snd] in Hn. subst n'. rewrite IH, <- app_assoc. f_equal.
    + f_equal. cbn [seq fmap list_fmap app].
      rewrite Nat.mul_0_r, Nat.add_0_r, E. cbn [fst]. f_equal.
      rewrite <- seq_shift, <- list_fmap_compose.
      apply list_fmap_ext. intros _ i _. cbn. do 2 f_equal. lia.
    + lia.
Qed.

(** C5.  With [Math.random] in its range, [triggerBigBang] called at time
    [t] forgets the particles there were and leaves exactly
    [min(CONFIG.maxParticles, 140)] = 140 of them; it sets [bigBangTime] to
    [t].  Particle [i] is built from the six draws that follow the cursor
    [seed + 6 i], in this order: the angle is the first draw times [2 pi],
    the speed the second draw scaled to [[80, 480]], the life the third
    draw scaled to [[700, 1400]], the size the fourth, the hue and the
    lightness the floors of the fifth and sixth scaled to [[20, 61)] and
    [[50, 71)].  The particle sits at the centre of the surface with age 0
    and the velocity [(cos angle, sin angle) * speed * timeScale]; the hue
    is in 20..60. *)
Theorem big_bang_burst t t' s :
  seeded ->
  let s' := triggerBigBang t t' s in
  length (particles s') = Nat.min 140 CONFIG.maxParticles
  /\ length (particles s') = 140%nat
  /\ particles s' = particles (triggerBigBang t t' (set_particles [] s))
  /\ bigBangTime s' = Some t
  /\ Forall (fun p =>
       Particle.x p = cx s /\ Particle.y p = cy s /\ Particle.age p = 0
       /\ lit 700 <= Particle.life p /\ Particle.life p <= lit 1400
       /\ (exists angle speed,
             0 <= angle /\ angle < Math_PI * lit 2
             /\ lit 80 <= speed /\ speed <= lit 480
             /\ Particle.vx p = Math_cos angle * speed * CONFIG.timeScale
             /\ Particle.vy p = Math_sin angle * speed * CONFIG.timeScale)
       /\ (20 <= Particle.hue p <= 60)%Z) (particles s')
  /\ particles s'
     = (fun i => (burstParticle (cx s) (cy s) (seed s + 6 * i)%nat).1)
       <$> seq 0 140
  /\ seed s' = (seed s + 6 * 140)%nat
  /\ forall x y n,
       let angle := Math_random n * Math_PI * lit 2 in
       let speed := Math_random (n + 1)%nat * (lit 480 - lit 80) + lit 80 in
       burstParticle x y n
       = ({| Particle.x := x;
             Particle.y := y;
             Particle.vx := Math_cos angle * speed * CONFIG.timeScale;
             Particle.vy := Math_sin angle * speed * CONFIG.timeScale;
             Particle.life :=
               Math_random (n + 2)%nat * (lit 1400 - lit 700) + lit 700;
             Particle.age := 0;
             Particle.size := Math_random (n + 3)%nat * lit 2.5 + lit 0.6;
             Particle.hue :=
               Math_floor (Math_random (n + 4)%nat * (lit 60 + 1 - lit 20)
                           + lit 20);
             Particle.light :=
               Math_floor (Math_random (n + 5)%nat * (lit 70 + 1 - lit 50)
                           + lit 50) |},
          (n + 6)%nat).
Proof.
  intros Hs. cbv zeta.
  assert (Hgen : forall x y n,
    burstParticle x y n
    = ({| Particle.x := x;
          Particle.y := y;
          Particle.vx :=
            Math_cos (Math_random n * Math_PI * lit 2)
            * (Math_random (n + 1)%nat * (lit 480 - lit 80) + lit 80)
            * CONFIG.timeScale;
          Particle.vy :=
            Math_sin (Math_random n * Math_PI * lit 2)
            * (Math_random (n + 1)%nat * (lit 480 - lit 80) + lit 80)
            * CONFIG.timeScale;
          Particle.life :=
            Math_random (n + 2)%nat * (lit 1400 - lit 700) + lit 700;
          Particle.age := 0;
          Particle.size := Math_random (n + 3)%nat * lit 2.5 + lit 0.6;
          Particle.hue :=
            Math_floor (Math_random (n + 4)%nat * (lit 60 + 1 - lit 20)
                        + lit 20);
          Particle.light :=
            Math_floor (Math_random (n + 5)%nat * (lit 70 + 1 - lit 50)
                        + lit 50) |},
       (n + 6)%nat)).
  { intros x y n.
    replace (n + 1)%nat with (S n) by lia.
    replace (n + 2)%nat with (S (S n)) by lia.
    replace (n + 3)%nat with (S (S (S n))) by lia.
    replace (n + 4)%nat with (S (S (S (S n)))) by lia.
    replace (n + 5)%nat with (S (S (S (S (S n))))) by lia.
    replace (n + 6)%nat with (S (S (S (S (S (S n)))))) by lia.
    reflexivity. }
  assert (Hpush :
    pushN (Nat.min CONFIG.maxParticles 140) (burstParticle (cx s) (cy s)) []
      (seed s)
    = ((fun i => (burstParticle (cx s) (cy s) (seed s + 6 * i)%nat).1)
       <$> seq 0 140, (seed s + 6 * 140)%nat)).
  { change (Nat.min CONFIG.maxParticles 140) with 140%nat.
    rewrite (pushN_draws (burstParticle (cx s) (cy s)) 6); [done|].
    intros j. by rewrite Hgen. }
  destruct (triggerBigBang_frame t t' s) as (_ & _ & _ & _ & _ & _ & _ & Et).
  rewrite !triggerBigBang_particles, pushN_length.
  split; [done|]. split; [done|]. split; [done|]. split; [done|].
  split.
  { apply pushN_Forall; [|done]. intros k.
    destruct (burstParticle_spec (cx s) (cy s) k Hs)
      as (Hx & Hy & Ha & Hl0 & Hl1 & (angle & speed & H1 & H2 & H3 & H4 & H5 & H6)
          & Hh & _).
    split; [exact Hx|]. split; [exact Hy|]. split; [exact Ha|].
    split; [exact Hl0|]. split; [by apply Qclt_le_weak|]. split; [|exact Hh].
    exists angle, speed. split; [exact H1|]. split; [exact H2|].
    split; [exact H3|]. split; [by apply Qclt_le_weak|].
    split; [exact H5|exact H6]. }
  split; [by rewrite Hpush|]. split; [|exact Hgen].
  unfold triggerBigBang, pulseHero. rewrite Hpush.
  by destruct heroEl.
Qed.

(** C6.  [drawParticles] with elapsed time [dt] never raises; it keeps, in
    order, the particles whose aged age stays below their life and removes
    the others (exactly those with [age + dt >= life]).  A kept particle has
    [vy] increased by [600 * dt/1000 * 0.45 * timeScale], its position
    advanced by [vx * dt/1000 * timeScale] and (new) [vy * dt/1000 *
    timeScale], its age advanced by [dt]; it is painted at its new position
    with opacity [1 - age/life] and radius [size * (1 - age/life) + 0.3]. *)
Theorem particle_frame dt s :
  drawParticles dt s
  = Some (set_particles (omap (stepParticle dt) (particles s)) s,
          omap (dotParticle dt) (reverse (particles s)))
  /\ forall p,
       (stepParticle dt p = None <-> Particle.life p <= Particle.age p + dt)
       /\ (dotParticle dt p = None <-> Particle.life p <= Particle.age p + dt)
       /\ forall p', stepParticle dt p = Some p' ->
            Particle.age p' = Particle.age p + dt
            /\ Particle.age p' < Particle.life p'
            /\ Particle.vy p'
               = Particle.vy p
                 + lit 600 * (dt / lit 1000) * lit 0.45 * CONFIG.timeScale
            /\ Particle.vx p' = Particle.vx p
            /\ Particle.x p'
               = Particle.x p + Particle.vx p * (dt / lit 1000) * CONFIG.timeScale
            /\ Particle.y p'
               = Particle.y p + Particle.vy p' * (dt / lit 1000) * CONFIG.timeScale
            /\ Particle.life p' = Particle.life p
            /\ Particle.size p' = Particle.size p
            /\ dotParticle dt p
               = Some (ParticleDot (1 - Particle.age p' / Particle.life p')
                         (Particle.x p') (Particle.y p')
                         (Particle.size p
                          * (1 - Particle.age p' / Particle.life p') + lit 0.3)
                         (Particle.hue p) (Particle.light p)).
Proof.
  split; [apply drawParticles_spec|]. intros p.
  unfold dotParticle, stepParticle.
  destruct (decide (Particle.life p <= Particle.age p + dt)) as [Hd|Hd];
    cbn [mbind option_bind].
  - repeat split; done.
  - split; [split; [done|tauto]|]. split; [split; [done|tauto]|].
    intros p' [= <-]. cbn. repeat split; try done. by apply Qclt_nge.
Qed.

(** A running frame paints the background, the stars and the black hole of
    the scene it starts from, then the entities. *)
Lemma loop_paints now s :
  bounded s -> running s = true ->
  exists rest,
    loop now s
    = Some (flares now (painted (clampedDt now s) (timers now s)),
            drawBackground s ++ drawStars now s ++ drawBlackHole s ++ rest).
Proof.
  intros Hb Hrun. unfold loop. rewrite Hrun.
  destruct (paint_spec now (clampedDt now s) (timers now s)) as [out E];
    [by apply bounded_timers|].
  rewrite E. cbn [mbind option_bind].
  revert E. unfold paint.
  destruct (still_timers now s)
    as (_ & _ & _ & _ & Ew & Eh & Ex & Ey & _ & _ & Eg & Est).
  assert (drawBackground (timers now s) ++ drawStars now (timers now s)
          ++ drawBlackHole (timers now s)
          = drawBackground s ++ drawStars now s ++ drawBlackHole s) as ->.
  { unfold drawBackground, drawStars, drawBlackHole.
    by rewrite Ew, Eh, Ex, Ey, Eg, Est. }
  generalize (timers now s). intros s1.
  destruct (drawParticles _ s1) as [[s2 d1]|]; [|done]. cbn [mbind option_bind].
  destruct (drawMeteors _ s2) as [[s3 d2]|]; [|done]. cbn [mbind option_bind].
  destruct (drawLightning _ s3) as [[s4 d3]|]; [|done]. cbn [mbind option_bind].
  intros [= _ <-]. exists (d1 ++ d2 ++ d3). by rewrite <- !app_assoc.
Qed.

(** C8 as amended.  [resize] is total.  It sets the width and the height to
    the floor of the dimension it reads (the bounding rectangle of the
    canvas, or the window when that is 0), clamped to at least 1, puts the
    centre at their halves, rebuilds the gradient of the black hole around
    that centre with outer radius [min(width, height) * 0.12], and leaves
    stars, meteors, recycle pool, particles, bolts, timers, the hero shake,
    the running flag and the cursor of the random source as they are.
    After any events a resize is handled without raising and so is the
    frame that follows; that frame already works with the new size: it
    paints the background and the black hole of the new surface, and it
    removes the meteors in flight by the test [leaves] at the new width and
    height. *)
Theorem resize_floors_and_clamps rw rh iw ih dpr s
    rw0 rh0 iw0 ih0 dpr0 tLoad t0 evs now :
  (let s' := resize rw rh iw ih dpr s in
   width s' = Math_max 1 (ofZ (Math_floor (orElse rw iw)))
   /\ height s' = Math_max 1 (ofZ (Math_floor (orElse rh ih)))
   /\ 1 <= width s' /\ 1 <= height s'
   /\ cx s' = width s' / lit 2 /\ cy s' = height s' / lit 2
   /\ blackHoleGradient s'
      = Some (Gradient.mk (cx s') (cy s')
                (Math_min (width s') (height s') * lit 0.12 * lit 0.06)
                (cx s') (cy s') (Math_min (width s') (height s') * lit 0.12))
   /\ stars s' = stars s /\ meteors s' = meteors s
   /\ meteorPool s' = meteorPool s /\ particles s' = particles s
   /\ lightnings s' = lightnings s /\ lastTime s' = lastTime s
   /\ lastMeteorSpawn s' = lastMeteorSpawn s /\ bigBangTime s' = bigBangTime s
   /\ seed s' = seed s /\ running s' = running s
   /\ heroShakeUntil s' = heroShakeUntil s
   /\ heroTransform s' = heroTransform s)
  /\ exists s0 s2 out,
       let s1 := resize rw rh iw ih dpr s0 in
       run (boot rw0 rh0 iw0 ih0 dpr0 tLoad t0) evs = Some s0
       /\ handle s0 (Resize rw rh iw ih dpr) = Some s1
       /\ loop now s1 = Some (s2, out)
       /\ if running s0 then
            (exists rest,
               out = [Background (width s1) (height s1)] ++ drawStars now s0
                     ++ [HoleGlow (cx s1) (cy s1)
                           (Math_min (width s1) (height s1) * lit 0.12)
                           (blackHoleGradient s1);
                         HoleDisc (cx s1) (cy s1)
                           (Math_min (width s1) (height s1) * lit 0.12
                            * lit 0.38)]
                     ++ rest)
            /\ meteors s2
               = filter (fun m => ~ leaves (width s1) (height s1) m)
                   (advance (clampedDt now s0) <$> meteors (timers now s1))
            /\ meteorPool s2
               = meteorPool (timers now s1)
                 ++ filter (leaves (width s1) (height s1))
                      (reverse (advance (clampedDt now s0)
                                <$> meteors (timers now s1)))
          else s2 = s1 /\ out = [].
Proof.
  split.
  { cbv zeta. repeat split; try done; apply Math_max_ge. }
  destruct (bounded_run _ evs (bounded_boot rw0 rh0 iw0 ih0 dpr0 tLoad t0))
    as (s0 & Hrun & Hb0).
  pose proof (bounded_resize rw rh iw ih dpr s0 Hb0) as Hb1.
  set (s1 := resize rw rh iw ih dpr s0) in *.
  assert (Er : running s1 = running s0) by done.
  assert (Edt : clampedDt now s1 = clampedDt now s0) by done.
  destruct (running s0) eqn:Hr.
  - destruct (loop_paints now s1 Hb1 Er) as [rest Hloop].
    eexists s0, _, _. cbv zeta. fold s1.
    split; [exact Hrun|]. split; [reflexivity|]. split; [exact Hloop|].
    rewrite Hr. split; [by exists rest|].
    destruct (flares_frame now (painted (clampedDt now s1) (timers now s1)))
      as (_ & _ & _ & -> & -> & _).
    destruct (timers_spec now s1) as (Ew & Eh & _).
    unfold painted.
    cbn [meteors meteorPool set_lightnings set_seed set_meteors set_meteorPool].
    by rewrite Ew, Eh, Edt.
  - exists s0, s1, []. cbv zeta. fold s1.
    split; [exact Hrun|]. split; [reflexivity|].
    split; [by apply loop_paused|]. by rewrite Hr.
Qed.


(** The states and the paint of successive frames. *)
Fixpoint play (s : Scene) (nows : list Qc) : list (option (Scene * list Draw)) :=
  match nows with
  | [] => []
  | now :: nows' =>
      match loop now s with
      | Some (s', out) => Some (s', out) :: play s' nows'
      | None => [None]
      end
  end.

(** The three tests of [loop] on the time stamp itself: the meteor spawn
    timer, the end of the hero shake and the window of the flares. *)
Definition spawnDue (now : Qc) (s : Scene) : Prop :=
  (rand (lit 200) CONFIG.meteorSpawnInterval (seed s)).1
  < now - lastMeteorSpawn s.

Definition shaking (now : Qc) (s : Scene) : Prop :=
  heroEl = true /\ now < heroShakeUntil s.

Definition flaring (now : Qc) (s : Scene) : Prop :=
  match bigBangTime s with
  | Some t0 => now - t0 < lit 1200
  | None => False
  end.

(** The scene without its clock: the last time stamp, the time of the last
    meteor spawn and the offset of the hero element are blanked. *)
Definition erase (s : Scene) : Scene :=
  set_heroTransform None (set_lastMeteorSpawn 0 (set_lastTime 0 s)).

(** Scenes that differ at most by their clock. *)
Definition alike (s1 s2 : Scene) : Prop := erase s1 = erase s2.

(** Two sequences of time stamps that, frame after frame, give the same
    clamped time step and the same outcome of the three tests. *)
Fixpoint concur (s1 s2 : Scene) (nows1 nows2 : list Qc) : Prop :=
  match nows1, nows2 with
  | [], [] => True
  | now1 :: nows1', now2 :: nows2' =>
      clampedDt now1 s1 = clampedDt now2 s2
      /\ (spawnDue now1 s1 <-> spawnDue now2 s2)
      /\ (shaking now1 s1 <-> shaking now2 s2)
      /\ (flaring now1 s1 <-> flaring now2 s2)
      /\ match loop now1 s1, loop now2 s2 with
         | Some (s1', _), Some (s2', _) => concur s1' s2' nows1' nows2'
         | _, _ => True
         end
  | _, _ => False
  end.

Ltac alike_open H :=
  match type of H with
  | alike ?s1 ?s2 =>
      destruct s1, s2; unfold alike, erase in H; scene_simpl;
      injection H; clear H; intros; subst
  end.

Lemma alike_fields s1 s2 :
  alike s1 s2 ->
  running s1 = running s2 /\ bigBangTime s1 = bigBangTime s2
  /\ heroShakeUntil s1 = heroShakeUntil s2 /\ seed s1 = seed s2
  /\ width s1 = width s2 /\ height s1 = height s2
  /\ stars s1 = stars s2 /\ particles s1 = particles s2
  /\ meteors s1 = meteors s2 /\ meteorPool s1 = meteorPool s2
  /\ lightnings s1 = lightnings s2.
Proof. intros H. alike_open H. by repeat split. Qed.

Lemma alike_set_lastTime a b s1 s2 :
  alike s1 s2 -> alike (set_lastTime a s1) (set_lastTime b s2).
Proof. intros H. alike_open H. reflexivity. Qed.

Lemma alike_meteorTimer now1 now2 s1 s2 :
  alike s1 s2 -> (spawnDue now1 s1 <-> spawnDue now2 s2) ->
  alike (meteorTimer now1 s1) (meteorTimer now2 s2).
Proof.
  intros H Hdue. alike_open H. revert Hdue. unfold spawnDue, meteorTimer.
  scene_simpl. destruct (rand _ _ _) as [r n]. scene_simpl. intros Hdue.
  destruct (decide (r < now1 - _)) as [H1|H1],
           (decide (r < now2 - _)) as [H2|H2]; try tauto; [|reflexivity].
  unfold createMeteor, alike, erase. scene_simpl.
  case_decide; [reflexivity|].
  destruct (Array_pop _) as [popped pool].
  by destruct (spawnMeteor _ _ _ _).
Qed.

Lemma alike_lightningTimer dt s1 s2 :
  alike s1 s2 -> alike (lightningTimer dt s1) (lightningTimer dt s2).
Proof.
  intros H. alike_open H. unfold lightningTimer. scene_simpl.
  destruct (random _) as [r n]. scene_simpl.
  case_decide; [|reflexivity].
  unfold spawnLightning, alike, erase. scene_simpl.
  by destruct (newBolt _ _ _).
Qed.

Lemma alike_heroShake now1 now2 s1 s2 :
  alike s1 s2 -> (shaking now1 s1 <-> shaking now2 s2) ->
  alike (heroShake now1 s1) (heroShake now2 s2).
Proof.
  intros H Hsh. alike_open H. revert Hsh. unfold shaking, heroShake.
  scene_simpl. intros Hsh. destruct heroEl; [|reflexivity].
  destruct (decide (now1 < _)) as [H1|H1], (decide (now2 < _)) as [H2|H2];
    try tauto; [|reflexivity].
  scene_simpl. destruct (rand _ _ _) as [a n]. by destruct (rand _ _ n).
Qed.

Lemma alike_painted dt s1 s2 :
  alike s1 s2 -> alike (painted dt s1) (painted dt s2).
Proof. intros H. alike_open H. reflexivity. Qed.

Lemma alike_flares now1 now2 s1 s2 :
  alike s1 s2 -> (flaring now1 s1 <-> flaring now2 s2) ->
  alike (flares now1 s1) (flares now2 s2).
Proof.
  intros H Hfl. alike_open H. revert Hfl. unfold flaring, flares.
  scene_simpl. intros Hfl.
  match goal with |- context [match ?b with Some _ => _ | None => _ end] =>
    destruct b as [tb|] end; [|reflexivity].
  destruct (decide (now1 - tb < _)) as [H1|H1],
           (decide (now2 - tb < _)) as [H2|H2]; try tauto; [|reflexivity].
  destruct (random _) as [r n]. scene_simpl.
  case_decide; [|reflexivity].
  by destruct (flare _ _ _).
Qed.

Lemma heroShake_until now s : heroShakeUntil (heroShake now s) = heroShakeUntil s.
Proof.
  unfold heroShake. destruct heroEl; [|done]. case_decide; [|done].
  destruct (rand _ _ _) as [a n]. by destruct (rand _ _ n).
Qed.

(** One frame on two scenes that differ by their clock. *)
Lemma alike_loop now1 now2 s1 s2 :
  bounded s1 -> bounded s2 -> alike s1 s2 ->
  clampedDt now1 s1 = clampedDt now2 s2 ->
  (spawnDue now1 s1 <-> spawnDue now2 s2) ->
  (shaking now1 s1 <-> shaking now2 s2) ->
  (flaring now1 s1 <-> flaring now2 s2) ->
  exists s1' out1 s2' out2,
    loop now1 s1 = Some (s1', out1) /\ loop now2 s2 = Some (s2', out2)
    /\ bounded s1' /\ bounded s2' /\ alike s1' s2'.
Proof.
  intros Hb1 Hb2 Ha Hdt Hdue Hsh Hfl.
  destruct (bounded_loop now1 s1 Hb1) as (s1' & out1 & E1 & Hb1').
  destruct (bounded_loop now2 s2 Hb2) as (s2' & out2 & E2 & Hb2').
  exists s1', out1, s2', out2. do 4 (split; [done|]).
  destruct (alike_fields s1 s2 Ha) as (Er & Ebt & Ehs & _).
  destruct (running s1) eqn:Hr1; symmetry in Er.
  - destruct (loop_spec now1 s1 Hb1 Hr1) as [o1 E1'].
    destruct (loop_spec now2 s2 Hb2 Er) as [o2 E2'].
    rewrite E1' in E1. rewrite E2' in E2.
    injection E1 as <- _. injection E2 as <- _.
    assert (Ht : alike (timers now1 s1) (timers now2 s2)).
    { unfold timers. apply alike_heroShake.
      - rewrite Hdt. apply alike_lightningTimer, alike_meteorTimer;
          [by apply alike_set_lastTime|done].
      - unfold shaking in *.
        pose proof (heroShake_until now1
          (lightningTimer (clampedDt now1 s1)
             (meteorTimer now1 (set_lastTime now1 s1)))) as Eu1.
        pose proof (heroShake_until now2
          (lightningTimer (clampedDt now2 s2)
             (meteorTimer now2 (set_lastTime now2 s2)))) as Eu2.
        destruct (still_timers now1 s1) as (_ & _ & Es1 & _).
        destruct (still_timers now2 s2) as (_ & _ & Es2 & _).
        unfold timers in Es1, Es2. rewrite Eu1 in Es1. rewrite Eu2 in Es2.
        by rewrite Es1, Es2. }
    apply alike_flares; [rewrite Hdt; by apply alike_painted|].
    destruct (still_timers now1 s1) as (_ & Eb1 & _).
    destruct (still_timers now2 s2) as (_ & Eb2 & _).
    unfold flaring in *. unfold painted. scene_simpl.
    by rewrite Eb1, Eb2.
  - rewrite loop_paused in E1 by done. rewrite loop_paused in E2 by done.
    injection E1 as <- _. by injection E2 as <- _.
Qed.

Lemma alike_play nows1 s1 s2 nows2 :
  alike s1 s2 -> bounded s1 -> bounded s2 -> concur s1 s2 nows1 nows2 ->
  Forall2 (fun r1 r2 =>
             exists s1' out1 s2' out2,
               r1 = Some (s1', out1) /\ r2 = Some (s2', out2) /\ alike s1' s2')
    (play s1 nows1) (play s2 nows2).
Proof.
  revert s1 s2 nows2.
  induction nows1 as [|now1 nows1 IH]; intros s1 s2 [|now2 nows2] Ha Hb1 Hb2 Hc;
    cbn [concur] in Hc; [constructor|done..|].
  destruct Hc as (Hdt & Hdue & Hsh & Hfl & Hc).
  destruct (alike_loop now1 now2 s1 s2 Hb1 Hb2 Ha Hdt Hdue Hsh Hfl)
    as (s1' & out1 & s2' & out2 & E1 & E2 & Hb1' & Hb2' & Ha').
  cbn [play]. rewrite E1, E2 in *. constructor; [|by apply IH].
  by exists s1', out1, s2', out2.
Qed.

(** C10 as amended.  After any events, two sequences of frames whose time
    stamps give, frame after frame, the same clamped time step and the same
    outcome of the three tests made on the time stamp itself (is a meteor
    spawn due, is the hero still shaking, is the big bang recent) go through
    the same scenes up to the clock: no frame raises and, after every frame,
    stars, particles, meteors, recycle pool, bolts and the cursor of the
    random source, hence all positions and velocities, are identical.  The
    same random source, scene and clamped steps alone do not give that. *)
Theorem frames_follow_the_tests rw rh iw ih dpr tLoad t0 evs s nows1 nows2 :
  run (boot rw rh iw ih dpr tLoad t0) evs = Some s ->
  concur s s nows1 nows2 ->
  Forall2 (fun r1 r2 =>
             exists s1 out1 s2 out2,
               r1 = Some (s1, out1) /\ r2 = Some (s2, out2)
               /\ alike s1 s2
               /\ stars s1 = stars s2 /\ particles s1 = particles s2
               /\ meteors s1 = meteors s2 /\ meteorPool s1 = meteorPool s2
               /\ lightnings s1 = lightnings s2 /\ seed s1 = seed s2)
    (play s nows1) (play s nows2).
Proof.
  intros Hrun Hc.
  destruct (bounded_run _ evs (bounded_boot rw rh iw ih dpr tLoad t0))
    as (s' & Hrun' & Hb).
  rewrite Hrun in Hrun'. injection Hrun' as <-.
  eapply Forall2_impl; [by apply (alike_play nows1 s s nows2)|].
  intros r1 r2 (s1 & out1 & s2 & out2 & -> & -> & Ha).
  exists s1, out1, s2, out2. split; [done|]. split; [done|]. split; [done|].
  by destruct (alike_fields s1 s2 Ha)
    as (_ & _ & _ & ? & _ & _ & ? & ? & ? & ? & ?).
Qed.

(** ** The stars of space.js *)

Lemma clamp_range v a b : a <= b -> a <= clamp v a b /\ clamp v a b <= b.
Proof.
  intros Hab. unfold clamp, Math_max, Math_min. repeat case_decide; split; qc_lra.
Qed.

Lemma handle_stars s ev s' :
  bounded s -> handle s ev = Some s' ->
  stars s' = stars s
  /\ ((exists rw rh iw ih dpr, ev = Resize rw rh iw ih dpr)
      \/ (width s' = width s /\ height s' = height s)).
Proof.
  intros Hb. destruct ev as [now|t t'|rw rh iw ih dpr|visible now]; cbn.
  - destruct (running s) eqn:Hrun.
    + destruct (loop_spec now s Hb Hrun) as [out ->]. cbn. intros [= <-].
      destruct (flares_frame now (painted (clampedDt now s) (timers now s)))
        as (-> & -> & -> & _).
      destruct (timers_spec now s) as (Ew & Eh & _ & Es & _).
      unfold painted.
      cbn [stars width height set_lightnings set_seed set_meteors
           set_meteorPool set_particles].
      auto.
    + rewrite loop_paused by done. cbn. intros [= <-]. auto.
  - intros [= <-].
    destruct (triggerBigBang_frame t t' s) as (-> & -> & -> & _). auto.
  - intros [= <-]. split; [done|]. left. eauto 10.
  - intros [= <-]. destruct visible; auto.
Qed.

Lemma run_stars s evs s' :
  bounded s -> run s evs = Some s' -> stars s' = stars s.
Proof.
  revert s. induction evs as [|ev evs IH]; intros s Hb; cbn.
  - by intros [= <-].
  - destruct (bounded_handle s ev Hb) as (s1 & E & Hb1). rewrite E. cbn.
    intros Hrun. rewrite (IH s1 Hb1 Hrun).
    by destruct (handle_stars s ev s1 Hb E) as [-> _].
Qed.

Lemma newStar_spec w h n :
  seeded -> 0 <= w -> 0 <= h ->
  let st := (newStar w h n).1 in
  0 <= Star.x st /\ Star.x st <= w /\ 0 <= Star.y st /\ Star.y st <= h.
Proof.
  intros Hs Hw Hh. rand_simpl newStar. cbn [Star.x Star.y].
  destruct (Hs n), (Hs (S n)). repeat split; qc_nra.
Qed.

Lemma boot_stars rw rh iw ih dpr tLoad t0 :
  seeded ->
  let s := boot rw rh iw ih dpr tLoad t0 in
  Forall (fun st => 0 <= Star.x st /\ Star.x st <= width s
                    /\ 0 <= Star.y st /\ Star.y st <= height s) (stars s).
Proof.
  intros Hs. cbv zeta. unfold boot, init.
  set (s0 := resize rw rh iw ih dpr (initial dpr tLoad)).
  assert (Hw : 0 <= width s0) by apply Math_max_pos.
  assert (Hh : 0 <= height s0) by apply Math_max_pos.
  assert (H : Forall (fun st => 0 <= Star.x st /\ Star.x st <= width s0
                       /\ 0 <= Star.y st /\ Star.y st <= height s0)
                (stars (initStars s0))
              /\ width (initStars s0) = width s0
              /\ height (initStars s0) = height s0).
  { destruct (initStars_frame s0) as (-> & -> & _). split; [|done].
    unfold initStars.
    pose proof (pushN_Forall
      (fun st => 0 <= Star.x st /\ Star.x st <= width s0
                 /\ 0 <= Star.y st /\ Star.y st <= height s0)
      (newStar (width s0) (height s0)) CONFIG.maxStars [] (seed s0)) as HF.
    destruct (pushN _ _ _ _) as [l n]. cbn [stars set_seed set_stars].
    apply HF; [|done]. intros k. by apply newStar_spec. }
  revert H. generalize (initStars s0). clearbody s0. clear Hw Hh.
  intros s1 (HF & Ew & Eh).
  destruct (createMeteor_frame s1) as (Ew1 & Eh1 & _ & Es1 & _).
  destruct (createMeteor_frame (createMeteor s1)) as (Ew2 & Eh2 & _ & Es2 & _).
  cbn [stars width height set_lastTime].
  rewrite Es2, Es1, Ew2, Ew1, Eh2, Eh1, Ew, Eh. done.
Qed.

Lemma drawStars_alpha t s :
  Forall (fun d => exists a x y r,
            d = StarDot a x y r /\ lit 0.05 <= a /\ a <= 1) (drawStars t s).
Proof.
  unfold drawStars. apply Forall_fmap, Forall_forall. intros st _. cbn.
  eexists _, _, _, _. split; [done|]. apply clamp_range. qc_lra.
Qed.


(** ** Further properties of space.js *)

(** X1.  The helpers in double arithmetic.  With [Math.random] in
    [[0, 1)]: for doubles [a <= b] whose difference is a double,
    [rand(a, b)] lies in [[a, b]]; for integers [lo <= hi] such that [lo],
    [hi + 1] and [hi + 1 - lo] are doubles, [randInt(lo, hi)] is an integer
    of [lo..hi + 1]; each of them draws exactly one number.  Exact
    arithmetic would exclude the upper ends [b] and [hi + 1]; the rounding
    of the sum reaches them. *)
Theorem helpers_stay_in_range (lo hi : Z) (a b : Qc) n :
  seeded -> a <= b -> (lo <= hi)%Z ->
  double a = a -> double b = b -> double (b - a) = b - a ->
  double (ofZ lo) = ofZ lo -> double (ofZ hi + 1) = ofZ hi + 1 ->
  double (ofZ hi + 1 - ofZ lo) = ofZ hi + 1 - ofZ lo ->
  a <= (rand64 a b n).1 /\ (rand64 a b n).1 <= b
  /\ (lo <= (randInt64 (ofZ lo) (ofZ hi) n).1 <= hi + 1)%Z
  /\ (rand64 a b n).2 = S n /\ (randInt64 (ofZ lo) (ofZ hi) n).2 = S n.
Proof.
  intros Hs Hab Hlh Ea Eb Eba Elo Ehi Ehl.
  destruct (rand64_range a b n Hs Hab) as [H1 H2].
  rewrite Ea in H1. rewrite !Eba in H2.
  replace (b - a + a) with b in H2 by ring. rewrite Eb in H2.
  split; [done|]. split; [done|]. split; [|done].
  apply randInt64_range; [done..|].
  rewrite Ehi, !Ehl. replace (ofZ hi + 1 - ofZ lo + ofZ lo) with (ofZ hi + 1) by ring.
  rewrite Ehi. apply Qc_is_canon. qc_unfold. rewrite inject_Z_plus. reflexivity.
Qed.

(** X2.  [clamp(v, a, b)] with [a <= b] is [v] when [v] is in [[a, b]], [a]
    below and [b] above, hence always in [[a, b]] and idempotent; with
    crossed bounds ([b < a]) it is [a] whatever [v]. *)
Theorem clamp_cases v a b :
  (a <= b ->
   a <= clamp v a b /\ clamp v a b <= b
   /\ (a <= v -> v <= b -> clamp v a b = v)
   /\ (v < a -> clamp v a b = a)
   /\ (b < v -> clamp v a b = b)
   /\ clamp (clamp v a b) a b = clamp v a b)
  /\ (b < a -> clamp v a b = a).
Proof.
  assert (Hcases : forall v a b,
    (a <= b -> (a <= v -> v <= b -> clamp v a b = v)
               /\ (v < a -> clamp v a b = a) /\ (b < v -> clamp v a b = b))
    /\ (b < a -> clamp v a b = a)).
  { clear. intros v a b. unfold clamp, Math_max, Math_min.
    split; [intros Hab; split; [|split]|]; intros;
      repeat case_decide; try done; apply Qcle_antisym; qc_lra. }
  split; [|apply Hcases]. intros Hab.
  destruct (clamp_range v a b Hab) as [Hlo Hhi].
  destruct (Hcases v a b) as [(Hin & Hbelow & Habove) _]; [done|].
  repeat split; auto.
  destruct (Hcases (clamp v a b) a b) as [(Hin' & _) _]; auto.
Qed.

(** X3.  The time step of a frame is [now - lastTime] cut at 48 ms: it is
    never more than 48, it is [now - lastTime] itself up to 48, and after
    any events the frame at [now] does not raise, leaves [now] in [lastTime]
    when the animation runs (and [lastTime] as it was when it is paused) and
    does not change the size of the surface. *)
Theorem frame_time_step rw rh iw ih dpr tLoad t0 evs now :
  exists s s' out,
    run (boot rw rh iw ih dpr tLoad t0) evs = Some s
    /\ loop now s = Some (s', out)
    /\ clampedDt now s <= lit 48 /\ clampedDt now s <= now - lastTime s
    /\ (now - lastTime s <= lit 48 -> clampedDt now s = now - lastTime s)
    /\ (lit 48 <= now - lastTime s -> clampedDt now s = lit 48)
    /\ elapsed now s <= lit 48
    /\ lastTime s' = (if running s then now else lastTime s)
    /\ running s' = running s
    /\ width s' = width s /\ height s' = height s.
Proof.
  destruct (bounded_run _ evs (bounded_boot rw rh iw ih dpr tLoad t0))
    as (s & Hrun & Hb).
  destruct (bounded_loop now s Hb) as (s' & out & Hloop & _).
  exists s, s', out. split; [done|]. split; [done|].
  assert (Hc : clampedDt now s <= lit 48 /\ clampedDt now s <= now - lastTime s
               /\ (now - lastTime s <= lit 48 -> clampedDt now s = now - lastTime s)
               /\ (lit 48 <= now - lastTime s -> clampedDt now s = lit 48)).
  { unfold clampedDt, Math_min. case_decide.
    - repeat split; try done; try qc_lra. intros. apply Qcle_antisym; qc_lra.
    - repeat split; try done; try qc_lra. intros. apply Qcle_antisym; qc_lra. }
  destruct Hc as (Hc1 & Hc2 & Hc3 & Hc4).
  do 4 (split; [done|]).
  split; [unfold elapsed; destruct (running s); [done|qc_lra]|].
  destruct (running s) eqn:Hr.
  - destruct (loop_spec now s Hb Hr) as [out' E]. rewrite E in Hloop.
    injection Hloop as <- _.
    destruct (flares_frame now (painted (clampedDt now s) (timers now s)))
      as (-> & -> & _ & _ & _ & _ & ->).
    destruct (timers_spec now s) as (Ew & Eh & _ & _ & Et & _).
    destruct (still_loop now s) as (Er & _).
    unfold painted in *.
    cbn [lastTime width height set_lightnings set_seed set_meteors
         set_meteorPool set_particles] in *.
    by rewrite Er, Hr.
  - rewrite loop_paused in Hloop by done. injection Hloop as <- _.
    by rewrite Hr.
Qed.

(** X4.  Hiding the page stops the animation: the frames that still arrive
    change nothing, whatever their time stamps.  Showing it again at time
    [t] restarts the clock at [t], so that the next frame steps by
    [min(now - t, 48)] and not by the time spent hidden. *)
Theorem pause_and_resume s t nows now :
  run (set_running false s) (Frame <$> nows) = Some (set_running false s)
  /\ run s (Visibility false t :: (Frame <$> nows)) = Some (set_running false s)
  /\ handle s (Visibility true t) = Some (set_lastTime t (set_running true s))
  /\ clampedDt now (set_lastTime t (set_running true s))
     = Math_min (now - t) (lit 48)
  /\ elapsed now (set_lastTime t (set_running true s))
     = Math_min (now - t) (lit 48).
Proof.
  assert (H : run (set_running false s) (Frame <$> nows)
              = Some (set_running false s)).
  { generalize (eq_refl (running (set_running false s))).
    generalize (set_running false s) at 1 3 4. intros p Hp. cbn in Hp.
    induction nows as [|n nows IH]; [done|].
    cbn. rewrite loop_paused by done. cbn. exact IH. }
  split; [exact H|]. split; [exact H|]. by repeat split.
Qed.

Lemma createMeteor_heroTransform s :
  heroTransform (createMeteor s) = heroTransform s.
Proof.
  unfold createMeteor. case_decide; [done|].
  destruct (Array_pop _). by destruct (spawnMeteor _ _ _ _).
Qed.

(** X5.  [init] leaves two meteors at their spawn point with age 0, 250
    stars, no particle, no bolt and an empty recycle pool; the animation
    runs, no big bang has happened, and the clock starts at the time [init]
    read. *)
Theorem init_state rw rh iw ih dpr tLoad t0 :
  let b := boot rw rh iw ih dpr tLoad t0 in
  length (meteors b) = 2%nat
  /\ Forall (fun m => Meteor.age m = 0
                      /\ Meteor.trail m = [Point.mk (Meteor.x m) (Meteor.y m)])
       (meteors b)
  /\ meteorPool b = [] /\ particles b = [] /\ lightnings b = []
  /\ length (stars b) = 250%nat
  /\ running b = true /\ bigBangTime b = None /\ lastTime b = t0
  /\ heroTransform b = None.
Proof.
  cbv zeta. unfold boot, init.
  set (s0 := resize rw rh iw ih dpr (initial dpr tLoad)).
  assert (H0 : meteors (initStars s0) = [] /\ meteorPool (initStars s0) = []
               /\ particles (initStars s0) = [] /\ lightnings (initStars s0) = []
               /\ length (stars (initStars s0)) = 250%nat
               /\ running (initStars s0) = true
               /\ bigBangTime (initStars s0) = None
               /\ heroTransform (initStars s0) = None).
  { unfold initStars.
    pose proof (pushN_length (newStar (width s0) (height s0)) CONFIG.maxStars []
                  (seed s0)) as Hlen.
    destruct (pushN _ _ _ _) as [l n]. by repeat split. }
  revert H0. generalize (initStars s0). clear s0.
  intros s1 (Em & Ep & Epa & El & Es & Er & Eb & Eh).
  assert (H1 : meteors (createMeteor s1)
               = [(spawnMeteor (width s1) (height s1) freshMeteor (seed s1)).1]
               /\ meteorPool (createMeteor s1) = [] /\ still s1 (createMeteor s1)
               /\ particles (createMeteor s1) = []
               /\ lightnings (createMeteor s1) = []
               /\ heroTransform (createMeteor s1) = None).
  { pose proof (still_createMeteor s1) as Hst.
    destruct (createMeteor_frame s1) as (_ & _ & -> & _ & ->).
    rewrite createMeteor_heroTransform.
    rewrite createMeteor_spawn by (rewrite Em; cbn; cfg; lia).
    rewrite Em, Ep. by repeat split. }
  revert H1. generalize (createMeteor s1).
  intros s2 (Em2 & Ep2 & Hst2 & Epa2 & El2 & Eh2).
  pose proof (still_createMeteor s2) as Hst3.
  destruct (createMeteor_frame s2) as (_ & _ & Epa3 & _ & El3).
  pose proof (createMeteor_heroTransform s2) as Eh3.
  assert (Em3 : meteors (createMeteor s2)
                = meteors s2 ++ [(spawnMeteor (width s2) (height s2) freshMeteor
                                    (seed s2)).1]
                /\ meteorPool (createMeteor s2) = []).
  { rewrite createMeteor_spawn by (rewrite Em2; cbn; cfg; lia).
    by rewrite Ep2. }
  destruct Em3 as (Em3 & Ep3).
  destruct (still_trans _ _ _ Hst2 Hst3) as (Er3 & Eb3 & _ & _ & _ & _ & _ & _ & _ & _ & _ & Es3).
  revert Em3 Ep3 Epa3 El3 Eh3 Er3 Eb3 Es3. generalize (createMeteor s2).
  intros s3 Em3 Ep3 Epa3 El3 Eh3 Er3 Eb3 Es3.
  cbn [meteors meteorPool particles lightnings stars running bigBangTime
       lastTime heroTransform set_lastTime].
  rewrite Em3, Em2, Ep3, Epa3, Epa2, El3, El2, Eh3, Eh2, Er3, Er, Eb3, Eb, Es3, Es.
  repeat split; try done.
  repeat constructor; apply spawnMeteor_trail.
Qed.

Lemma handle_frame now s s' :
  bounded s -> handle s (Frame now) = Some s' ->
  s' = if running s
       then flares now (painted (clampedDt now s) (timers now s)) else s.
Proof.
  intros Hb. cbn [handle]. destruct (running s) eqn:Hr.
  - destruct (loop_spec now s Hb Hr) as [out ->]. cbn. by intros [= <-].
  - rewrite loop_paused by done. cbn. by intros [= <-].
Qed.

(** X6.  Particles only come from a big bang: as long as no big bang was
    triggered, no event puts a particle in the pool, and no frame draws a
    random number for a flare. *)
Theorem no_big_bang_no_particles rw rh iw ih dpr tLoad t0 evs :
  Forall (fun ev => forall t t', ev <> BigBang t t') evs ->
  exists s,
    run (boot rw rh iw ih dpr tLoad t0) evs = Some s
    /\ particles s = [] /\ bigBangTime s = None
    /\ forall now, flares now s = s.
Proof.
  intros Hevs.
  assert (H0 : particles (boot rw rh iw ih dpr tLoad t0) = []
               /\ bigBangTime (boot rw rh iw ih dpr tLoad t0) = None).
  { pose proof (init_state rw rh iw ih dpr tLoad t0) as H. cbv zeta in H.
    destruct H as (_ & _ & _ & Hp & _ & _ & _ & Hbb & _).
    split; [exact Hp|exact Hbb]. }
  pose proof (bounded_boot rw rh iw ih dpr tLoad t0) as Hb.
  revert H0 Hb. generalize (boot rw rh iw ih dpr tLoad t0). intros s.
  revert s. induction evs as [|ev evs IH]; intros s [Ep Eb] Hb; cbn.
  - exists s. repeat split; try done. intros now. unfold flares. by rewrite Eb.
  - apply Forall_cons in Hevs as [Hev Hevs].
    destruct (bounded_handle s ev Hb) as (s1 & E & Hb1). rewrite E. cbn.
    apply IH; [done| |done]. clear IH Hevs.
    destruct ev as [now|t t'|? ? ? ? ?|visible now].
    + apply (handle_frame now s s1 Hb) in E. subst s1.
      destruct (running s) eqn:Hr; [|done].
      * set (s2 := painted (clampedDt now s) (timers now s)).
        assert (Ep2 : particles s2 = [] /\ bigBangTime s2 = None).
        { destruct (timers_spec now s) as (_ & _ & Ept & _).
          destruct (still_timers now s) as (_ & Ebt & _).
          subst s2. unfold painted.
          cbn [particles bigBangTime set_lightnings set_seed set_meteors
               set_meteorPool set_particles].
          by rewrite Ept, Ep, Ebt, Eb. }
        destruct Ep2 as [Ep2 Eb2]. unfold flares. by rewrite Eb2.
    + by destruct (Hev t t').
    + revert E. cbn [handle]. by intros [= <-].
    + revert E. cbn [handle]. intros [= <-]. by destruct visible.
Qed.

(** X7.  With [Math.random] in its range and a surface that is not
    negative, a spawned meteor either drops from 20 px above the surface, at
    an abscissa between [-0.2 width] and [1.2 width] (first draw below 0.6,
    7 draws in all), or enters from 30 px left of the surface heading right,
    or from 30 px right of it heading left, at a height of the surface and
    with a horizontal speed of 450 to 825 px/s (8 draws): a meteor from a
    side always flies inward.  It is 1 to 2.6 px big, with a hue of at
    least 20 and at most 46.  All the bounds are closed: the upper ends,
    which exact arithmetic excludes, are reached when the result of
    [rand] is rounded up (see [rand64]); for the same reason the hue,
    45 at most in exact arithmetic, is bounded by 46. *)
Theorem meteor_spawn_geometry w h m n :
  seeded -> 0 <= w -> 0 <= h ->
  let r := spawnMeteor w h m n in
  let m' := r.1 in
  ((Math_random n < lit 0.6 /\ r.2 = (n + 7)%nat
    /\ Meteor.y m' = - lit 20
    /\ - w * lit 0.2 <= Meteor.x m' /\ Meteor.x m' <= w * lit 1.2)
   \/ (lit 0.6 <= Math_random n /\ r.2 = (n + 8)%nat
       /\ 0 <= Meteor.y m' /\ Meteor.y m' <= h
       /\ - lit 150 <= Meteor.vy m' /\ Meteor.vy m' <= lit 150
       /\ ((Meteor.x m' = - lit 30
            /\ lit 450 <= Meteor.vx m' /\ Meteor.vx m' <= lit 825)
           \/ (Meteor.x m' = w + lit 30
               /\ - lit 825 <= Meteor.vx m' /\ Meteor.vx m' <= - lit 450))))
  /\ 1 <= Meteor.size m' /\ Meteor.size m' <= lit 2.6
  /\ (20 <= Meteor.hue m' <= 46)%Z.
Proof.
  intros Hs Hw Hh. cbv zeta. rand_simpl spawnMeteor. unfold CONFIG.timeScale.
  destruct (decide (Math_random n < lit 0.6)) as [Htop|Hside].
  - cbn [fst snd Meteor.x Meteor.y Meteor.vx Meteor.vy Meteor.size Meteor.hue].
    destruct (Hs (S n)), (Hs (S (S (S (S (S n)))))).
    split; [left|split; [|split]].
    + split; [done|]. split; [f_equal; lia|]. split; [done|]. split; qc_nra.
    + qc_nra.
    + qc_nra.
    + pose proof (randInt_range 20 45 (S (S (S (S (S (S n)))))) Hs) as Hue.
      split; [apply Hue; lia|]. apply Z.le_trans with 45%Z; [apply Hue|]; lia.
  - assert (lit 0.6 <= Math_random n) as Hge by (by apply Qcnot_lt_le).
    destruct (decide (Math_random (S n) < lit 0.5));
      cbn [fst snd Meteor.x Meteor.y Meteor.vx Meteor.vy Meteor.size Meteor.hue];
      destruct (Hs (S (S n))), (Hs (S (S (S n)))), (Hs (S (S (S (S n))))),
        (Hs (S (S (S (S (S (S n)))))));
      (split; [right|split; [|split]]).
    + split; [done|]. split; [f_equal; lia|].
      split; [qc_nra|]. split; [qc_nra|]. split; [qc_nra|]. split; [qc_nra|].
      left. split; [done|]. split; qc_nra.
    + qc_nra.
    + qc_nra.
    + pose proof (randInt_range 20 45 (S (S (S (S (S (S (S n))))))) Hs) as Hue.
      split; [apply Hue; lia|]. apply Z.le_trans with 45%Z; [apply Hue|]; lia.
    + split; [done|]. split; [f_equal; lia|].
      split; [qc_nra|]. split; [qc_nra|]. split; [qc_nra|]. split; [qc_nra|].
      right. split; [done|]. split; qc_nra.
    + qc_nra.
    + qc_nra.
    + pose proof (randInt_range 20 45 (S (S (S (S (S (S (S n))))))) Hs) as Hue.
      split; [apply Hue; lia|]. apply Z.le_trans with 45%Z; [apply Hue|]; lia.
Qed.

(** X8.  Meteor objects are recycled, never lost: [createMeteor] does nothing
    at the ceiling of 6 live meteors, takes the last meteor of the pool when
    there is one, and allocates a new object only when the pool is empty;
    a frame moves the meteors it removes to the pool, so the number of
    objects in the live list and the pool together never decreases, grows by
    at most one in a frame, and does not grow when the pool had a meteor to
    give. *)
Theorem meteors_are_recycled rw rh iw ih dpr tLoad t0 evs now :
  (forall s,
     (length (meteors (createMeteor s)) + length (meteorPool (createMeteor s))
      = length (meteors s) + length (meteorPool s)
        + (if decide ((length (meteors s) < 6)%nat /\ meteorPool s = [])
           then 1 else 0))%nat
     /\ ((6 <= length (meteors s))%nat -> createMeteor s = s)
     /\ ((length (meteors s) < 6)%nat ->
         length (meteors (createMeteor s)) = S (length (meteors s))))
  /\ exists s s' out,
       run (boot rw rh iw ih dpr tLoad t0) evs = Some s
       /\ loop now s = Some (s', out)
       /\ (length (meteors s) + length (meteorPool s)
           <= length (meteors s') + length (meteorPool s')
           <= S (length (meteors s) + length (meteorPool s)))%nat
       /\ (meteorPool s <> [] ->
           length (meteors s') + length (meteorPool s')
           = length (meteors s) + length (meteorPool s))%nat.
Proof.
  split.
  - intros s. split; [|split].
    + destruct (decide (CONFIG.maxMeteors <= length (meteors s))%nat) as [Hf|Hf].
      * rewrite createMeteor_full by done. cfg.
        rewrite decide_False by (intros [? _]; lia). lia.
      * rewrite createMeteor_spawn by lia.
        cbn [meteors meteorPool set_seed set_meteors set_meteorPool].
        destruct (Array_pop_length (meteorPool s)) as [-> _].
        rewrite length_app. cbn [length]. cfg.
        destruct (meteorPool s) as [|m0 pool]; cbn [length].
        -- rewrite decide_True by (split; [lia|done]). lia.
        -- rewrite decide_False by (by intros [_ ?]). lia.
    + intros Hf. by apply createMeteor_full.
    + intros Hf. rewrite createMeteor_spawn by (cfg; lia).
      cbn [meteors set_seed set_meteors]. rewrite length_app. cbn. lia.
  - destruct (bounded_run _ evs (bounded_boot rw rh iw ih dpr tLoad t0))
      as (s & Hrun & Hb).
    destruct (bounded_loop now s Hb) as (s' & out & Hloop & _).
    exists s, s', out. split; [done|]. split; [done|].
    assert (Hl : handle s (Frame now) = Some s') by (cbn; by rewrite Hloop).
    apply (handle_frame now s s' Hb) in Hl. subst s'.
    destruct (running s) eqn:Hr; [|split; [lia|done]].
    destruct (flares_frame now (painted (clampedDt now s) (timers now s)))
      as (_ & _ & _ & -> & -> & _).
    unfold painted.
    cbn [meteors meteorPool set_lightnings set_seed set_meteors set_meteorPool].
    pose proof (filter_split_length
                  (leaves (width (timers now s)) (height (timers now s)))
                  (advance (clampedDt now s) <$> meteors (timers now s))) as Hsp.
    rewrite length_fmap in Hsp.
    rewrite length_app, filter_reverse, length_reverse.
    destruct (timers_spec now s) as (_ & _ & _ & _ & _ & Em & _).
    destruct (Array_pop_length (meteorPool s)) as [Hpop _].
    assert (Hcount :
      (length (meteors (timers now s)) = length (meteors s)
       /\ length (meteorPool (timers now s)) = length (meteorPool s))
      \/ (length (meteors (timers now s)) = S (length (meteors s))
          /\ length (meteorPool (timers now s)) = (length (meteorPool s) - 1)%nat)).
    { destruct Em as [[Em Ep]|(_ & n & Em & Ep)]; rewrite Em, Ep; [by left|].
      right. rewrite length_app. cbn [length]. split; [lia|done]. }
    clear Em.
    set (stay := length (filter _ _)) in *.
    set (gone := length (filter _ _)) in *.
    split; [lia|]. intros Hne.
    assert (0 < length (meteorPool s))%nat
      by (destruct (meteorPool s); [done|cbn; lia]).
    lia.
Qed.

(** The geometry derived from the size of the surface is up to date. *)
Definition centred (s : Scene) : Prop :=
  1 <= width s /\ 1 <= height s
  /\ cx s = width s / lit 2 /\ cy s = height s / lit 2
  /\ blackHoleGradient s
     = Some (createBlackHoleGradient (width s) (height s) (cx s) (cy s)).

Lemma still_set_lastTime t s : still s (set_lastTime t s).
Proof. by repeat split. Qed.

Lemma centred_still s s' : still s s' -> centred s -> centred s'.
Proof.
  intros (_ & _ & _ & _ & Ew & Eh & Ex & Ey & _ & _ & Eg & _).
  unfold centred. by rewrite Ew, Eh, Ex, Ey, Eg.
Qed.

Lemma centred_handle s ev s' :
  bounded s -> centred s -> handle s ev = Some s' -> centred s'.
Proof.
  intros Hb Hc. destruct ev as [now|t t'|rw rh iw ih dpr|visible now].
  - intros E. apply (handle_frame now s s' Hb) in E. subst s'.
    destruct (running s); [|done].
    eapply centred_still; [apply still_loop|done].
  - cbn [handle]. intros [= <-]. revert Hc.
    unfold centred, triggerBigBang, pulseHero.
    destruct (pushN _ _ _ _). destruct heroEl; intros H; exact H.
  - cbn [handle]. intros [= <-]. unfold centred.
    cbn [width height cx cy blackHoleGradient resize].
    repeat split; try done; apply Math_max_ge.
  - cbn [handle]. intros [= <-]. revert Hc. unfold centred.
    destruct visible; intros H; exact H.
Qed.

(** X9.  Whatever the events, a frame paints the black hole with the
    geometry of the current surface: the centre is the middle of the
    surface, the gradient is the one built for the current size, its radii
    are positive with the inner one smaller ([0 < r0 < r1], so building the
    gradient and the arcs never fails on a negative radius), the glow has
    radius [0.12 * min(width, height)] and the disc 0.38 of it. *)
Theorem black_hole_follows_surface rw rh iw ih dpr tLoad t0 evs :
  exists s g,
    run (boot rw rh iw ih dpr tLoad t0) evs = Some s
    /\ 1 <= width s /\ 1 <= height s
    /\ cx s = width s / lit 2 /\ cy s = height s / lit 2
    /\ blackHoleGradient s = Some g
    /\ Gradient.x0 g = cx s /\ Gradient.y0 g = cy s
    /\ Gradient.x1 g = cx s /\ Gradient.y1 g = cy s
    /\ Gradient.r1 g = Math_min (width s) (height s) * lit 0.12
    /\ 0 < Gradient.r0 g /\ Gradient.r0 g < Gradient.r1 g
    /\ lit 0.12 <= Gradient.r1 g
    /\ drawBlackHole s
       = [HoleGlow (cx s) (cy s) (Gradient.r1 g) (Some g);
          HoleDisc (cx s) (cy s) (Gradient.r1 g * lit 0.38)].
Proof.
  assert (Hc0 : centred (boot rw rh iw ih dpr tLoad t0)).
  { unfold boot, init.
    set (s0 := resize rw rh iw ih dpr (initial dpr tLoad)).
    assert (Hs0 : centred s0).
    { unfold centred. subst s0. cbn [width height cx cy blackHoleGradient resize].
      repeat split; try done; apply Math_max_ge. }
    revert Hs0. generalize s0. clear s0. intros s0 Hs0.
    assert (Hi : centred (initStars s0)).
    { revert Hs0. unfold centred, initStars.
      destruct (pushN _ _ _ _). intros H. exact H. }
    eapply centred_still; [|apply Hi].
    eapply still_trans; [apply still_createMeteor|].
    eapply still_trans; [apply still_createMeteor|].
    apply still_set_lastTime. }
  pose proof (bounded_boot rw rh iw ih dpr tLoad t0) as Hb0.
  assert (Hrun : exists s, run (boot rw rh iw ih dpr tLoad t0) evs = Some s
                           /\ centred s).
  { revert Hc0 Hb0. generalize (boot rw rh iw ih dpr tLoad t0).
    induction evs as [|ev evs IH]; intros s Hc Hb; cbn [run]; [eauto|].
    destruct (bounded_handle s ev Hb) as (s1 & E & Hb1). rewrite E.
    cbn [mbind option_bind]. apply IH; [|done].
    exact (centred_handle s ev s1 Hb Hc E). }
  destruct Hrun as (s & Hrun & Hw & Hh & Ex & Ey & Eg).
  exists s, (createBlackHoleGradient (width s) (height s) (cx s) (cy s)).
  unfold drawBlackHole. rewrite Eg.
  cbn [createBlackHoleGradient Gradient.x0 Gradient.y0 Gradient.x1 Gradient.y1
       Gradient.r0 Gradient.r1].
  assert (Hmin : 1 <= Math_min (width s) (height s))
    by (unfold Math_min; by case_decide).
  repeat split; try done; qc_lra.
Qed.

(** X10.  With [Math.random] in its range the stars seeded by [initStars],
    which are the stars of every later scene, have a size in [[0.2, 1.6]], a
    base opacity in [[0.2, 1]], a twinkle phase in [[0, 2 pi]] and a twinkle
    speed in [[0.0005, 0.0025]].  The bounds are closed: exact arithmetic
    excludes the upper ends, the rounding of the sums and products reaches
    them (base opacity 1 and twinkle speed 0.0025 when [Math.random]
    returns its largest value). *)
Theorem stars_are_seeded_in_range rw rh iw ih dpr tLoad t0 evs :
  seeded ->
  exists s,
    run (boot rw rh iw ih dpr tLoad t0) evs = Some s
    /\ stars s = stars (boot rw rh iw ih dpr tLoad t0)
    /\ Forall (fun st =>
         lit 0.2 <= Star.size st /\ Star.size st <= lit 1.6
         /\ lit 0.2 <= Star.baseAlpha st /\ Star.baseAlpha st <= 1
         /\ 0 <= Star.twinklePhase st /\ Star.twinklePhase st <= Math_PI * lit 2
         /\ lit 0.0005 <= Star.twinkleSpeed st
         /\ Star.twinkleSpeed st <= lit 0.0025) (stars s).
Proof.
  intros Hs.
  pose proof (bounded_boot rw rh iw ih dpr tLoad t0) as Hb0.
  destruct (bounded_run _ evs Hb0) as (s & Hrun & Hb).
  exists s. split; [done|].
  pose proof (run_stars _ evs s Hb0 Hrun) as Es. split; [done|]. rewrite Es.
  clear Hrun Hb Hb0 Es. unfold boot, init.
  generalize (resize rw rh iw ih dpr (initial dpr tLoad)). intros s0.
  assert (Est : stars (set_lastTime t0 (createMeteor (createMeteor (initStars s0))))
                = stars (initStars s0)).
  { generalize (initStars s0). intros s1.
    by destruct (still_trans _ _ _ (still_createMeteor s1)
                   (still_trans _ _ _ (still_createMeteor (createMeteor s1))
                      (still_set_lastTime t0 (createMeteor (createMeteor s1)))))
      as (_ & _ & _ & _ & _ & _ & _ & _ & _ & _ & _ & ?). }
  rewrite Est. clear Est. unfold initStars.
  pose proof (pushN_Forall
    (fun st =>
       lit 0.2 <= Star.size st /\ Star.size st <= lit 1.6
       /\ lit 0.2 <= Star.baseAlpha st /\ Star.baseAlpha st <= 1
       /\ 0 <= Star.twinklePhase st /\ Star.twinklePhase st <= Math_PI * lit 2
       /\ lit 0.0005 <= Star.twinkleSpeed st /\ Star.twinkleSpeed st <= lit 0.0025)
    (newStar (width s0) (height s0)) CONFIG.maxStars [] (seed s0)) as HF.
  destruct (pushN _ _ _ _) as [l n]. cbn [stars set_seed set_stars fst] in *.
  apply HF; [|done]. intros k. rand_simpl newStar.
  cbn [Star.size Star.baseAlpha Star.twinklePhase Star.twinkleSpeed].
  unfold CONFIG.starTwinkleSpeed, Math_PI.
  destruct (Hs (S (S k))), (Hs (S (S (S k)))), (Hs (S (S (S (S k))))),
    (Hs (S (S (S (S (S k)))))).
  repeat split; qc_nra.
Qed.

(** X11.  The hero shake.  Without a hero element neither [pulseHero] nor
    the frame touches the scene, and the frame draws no random number for
    it.  With one, [pulseHero] at time [t] arms the shake until [t + 900];
    a frame at or after the end resets the transform; a frame before the end
    draws two numbers and sets an offset of at most [3 mag] by [2 mag]
    pixels, with [mag = (heroShakeUntil - now) / 300]. *)
Theorem hero_shake now s :
  seeded ->
  if heroEl then
    heroShakeUntil (pulseHero now s) = now + lit 900
    /\ (heroShakeUntil s <= now -> heroShake now s = set_heroTransform None s)
    /\ (now < heroShakeUntil s ->
        let mag := (heroShakeUntil s - now) / lit 300 in
        exists tx ty,
          heroShake now s
          = set_seed (seed s + 2)%nat (set_heroTransform (Some (tx, ty)) s)
          /\ - (lit 3 * mag) <= tx /\ tx <= lit 3 * mag
          /\ - (lit 2 * mag) <= ty /\ ty <= lit 2 * mag)
  else pulseHero now s = s /\ heroShake now s = s.
Proof.
  intros Hs. unfold pulseHero, heroShake. destruct heroEl; [|done].
  split; [done|]. split.
  - intros Hend. rewrite decide_False; [done|]. by apply Qcle_not_lt.
  - intros Hbefore. cbv zeta. rewrite decide_True by done.
    rand_simpl rand. eexists _, _.
    split; [by rewrite Nat.add_comm|].
    destruct (Hs (seed s)), (Hs (S (seed s))).
    repeat split; qc_nra.
Qed.

Lemma bind_cons_match {A B} (f : A -> list B) (l : list A) :
  match l with [] => [] | a :: l' => f a ++ (l' ≫= f) end = l ≫= f.
Proof. by destruct l. Qed.

(** The two strokes of a bolt, the first with the line width in force. *)
Definition strokes (dt lineWidth : Qc) (b : Bolt.t) : list Draw :=
  let alpha := clamp (1 - (Bolt.age b + dt) / Bolt.life b) 0 1 in
  [BoltStroke (Bolt.points b) alpha lineWidth;
   BoltStroke (Bolt.points b) (alpha * lit 0.25) (lit 6)].

Lemma drawLightning_loop_out dt pre post lw out :
  Forall (fun b => Bolt.points b <> []) pre ->
  drawLightning_loop dt (length pre) (pre ++ post) lw out
  = Some (filter (fun b => ~ fades b) (stepBolt dt <$> pre) ++ post,
          out ++ match reverse pre with
                 | [] => []
                 | b :: rest => strokes dt lw b ++ (rest ≫= strokes dt (lit 6))
                 end).
Proof.
  revert post lw out.
  induction pre as [|b pre IH] using rev_ind; intros post lw out Hne.
  - cbn. by rewrite app_nil_r.
  - rewrite Forall_app, Forall_singleton in Hne. destruct Hne as [Hpre Hb].
    rewrite length_app, Nat.add_1_r, <- app_assoc. cbn [drawLightning_loop].
    change ([b] ++ post) with (b :: post).
    rewrite list_lookup_middle by done. cbn [mbind option_bind].
    destruct (Bolt.points b) as [|pt pts] eqn:Ept; [done|].
    cbn [lookup list_lookup mbind option_bind].
    rewrite fmap_app, filter_app, reverse_app.
    change (reverse [b]) with [b]. cbn [app].
    change (stepBolt dt <$> [b]) with [stepBolt dt b].
    rewrite filter_cons, filter_nil. unfold Array_splice1, fades at 2.
    cbn [stepBolt Bolt.life Bolt.age].
    assert (Hout : forall o : list Draw,
              (o ++ [BoltStroke (pt :: pts)
                       (clamp (1 - (Bolt.age b + dt) / Bolt.life b) 0 1) lw;
                     BoltStroke (pt :: pts)
                       (clamp (1 - (Bolt.age b + dt) / Bolt.life b) 0 1 * lit 0.25)
                       (lit 6)])
              ++ (reverse pre ≫= strokes dt (lit 6))
              = o ++ strokes dt lw b ++ (reverse pre ≫= strokes dt (lit 6))).
    { intros o. unfold strokes. rewrite Ept, <- !app_assoc. done. }
    destruct (decide (Bolt.life b < Bolt.age b + dt)) as [Hf|Hf].
    + rewrite decide_False by tauto. rewrite delete_middle.
      rewrite IH by done. rewrite bind_cons_match, app_nil_r. by rewrite Hout.
    + rewrite decide_True by tauto.
      rewrite insert_app_r_alt by done.
      rewrite Nat.sub_diag. cbn [insert list_insert app].
      rewrite IH by done. rewrite bind_cons_match, Hout, <- app_assoc.
      unfold stepBolt. by rewrite Ept.
Qed.

(** X12.  [drawLightning] strokes every bolt twice, from the newest to the
    oldest, with an opacity of [[0, 1]] and a quarter of it.  Only the very
    first stroke of a frame has the line width 2.2 set before the loop: the
    body leaves the width at 6, so the first stroke of every other bolt is
    6 px wide like its glow. *)
Theorem lightning_strokes rw rh iw ih dpr tLoad t0 evs dt :
  exists s s',
    run (boot rw rh iw ih dpr tLoad t0) evs = Some s
    /\ drawLightning dt s
       = Some (s', match reverse (lightnings s) with
                   | [] => []
                   | b :: rest =>
                       strokes dt (lit 2.2) b ++ (rest ≫= strokes dt (lit 6))
                   end)
    /\ (forall lw b,
          exists alpha,
            0 <= alpha /\ alpha <= 1
            /\ strokes dt lw b
               = [BoltStroke (Bolt.points b) alpha lw;
                  BoltStroke (Bolt.points b) (alpha * lit 0.25) (lit 6)]).
Proof.
  destruct (bounded_run _ evs (bounded_boot rw rh iw ih dpr tLoad t0))
    as (s & Hrun & Hb).
  exists s,
    (set_lightnings (filter (fun b => ~ fades b) (stepBolt dt <$> lightnings s)) s).
  split; [done|]. split.
  - unfold drawLightning. destruct (lightnings s) as [|b bs] eqn:E.
    + clear -E. destruct s; cbn in *; by subst.
    + pose proof (drawLightning_loop_out dt (b :: bs) [] (lit 2.2) []) as H.
      rewrite app_nil_r in H. rewrite H; [|rewrite <- E; by apply paths_primed].
      cbn [mbind option_bind app]. rewrite app_nil_r. reflexivity.
  - intros lw b. eexists. split; [|split; [|reflexivity]];
      apply clamp_range; qc_lra.
Qed.

Lemma ofNat_le n m : (n <= m)%nat -> ofNat n <= ofNat m.
Proof. intros H. qc_unfold. rewrite <- Zle_Qle. lia. Qed.

Lemma ofNat_lt n m : (n < m)%nat -> ofNat n < ofNat m.
Proof. intros H. qc_unfold. rewrite <- Zlt_Qlt. lia. Qed.

Lemma ratio_range (a b : Qc) : 0 <= a -> a < b -> 0 <= a / b /\ a / b < 1.
Proof.
  intros Ha Hab.
  assert (Hb : 0 < b) by (eapply Qcle_lt_trans; eassumption).
  assert (Hib : 0 < / b) by (by apply Qcinv_pos).
  assert (E : b * / b = 1).
  { apply Qcmult_inv_r. intros ->. by apply (irreflexivity Qclt (Q2Qc 0)). }
  unfold Qcdiv. split.
  - apply Qcmult_nonneg_nonneg; [done|by apply Qclt_le_weak].
  - rewrite <- E. by apply Qcmult_lt_compat_r.
Qed.

Lemma trailSegments_cons len size j p0 p1 tr :
  trailSegments len size j (p0 :: p1 :: tr)
  = TrailSegment p0 p1 (ofNat j / len * lit 0.65)
      (1 + size * (1 - ofNat j / len) * lit 1.8)
    :: trailSegments len size (S j) (p1 :: tr).
Proof. reflexivity. Qed.

Lemma trailSegments_lookup len size j tr k p0 p1 :
  tr !! k = Some p0 -> tr !! S k = Some p1 ->
  trailSegments len size j tr !! k
  = Some (TrailSegment p0 p1 (ofNat (j + k) / len * lit 0.65)
            (1 + size * (1 - ofNat (j + k) / len) * lit 1.8)).
Proof.
  revert j k. induction tr as [|q0 tr IH]; intros j k H0 H1; [done|].
  destruct tr as [|q1 tr]; [done|]. destruct k as [|k].
  - cbn in H0, H1. injection H0 as ->. injection H1 as ->.
    cbn. by rewrite Nat.add_0_r.
  - rewrite trailSegments_cons. rewrite <- Nat.add_succ_comm.
    exact (IH (S j) k H0 H1).
Qed.

Lemma trailSegments_length len size j tr :
  length (trailSegments len size j tr) = (length tr - 1)%nat.
Proof.
  revert j. induction tr as [|q0 tr IH]; intros j; [done|].
  destruct tr as [|q1 tr]; [done|].
  rewrite trailSegments_cons. cbn [length]. rewrite IH. cbn. lia.
Qed.

(** X13.  The tail of a meteor is drawn as one segment for each pair of
    consecutive trail points, from the oldest to the newest: a trail of [L]
    points gives [L - 1] segments (none for a freshly spawned meteor), the
    [j]-th with opacity [j / L * 0.65], which lies in [[0, 0.65)] and grows
    towards the head, and line width [1 + size * (1 - j / L) * 1.8]. *)
Theorem trail_is_drawn m :
  length (drawTrail m) = (length (Meteor.trail m) - 1)%nat
  /\ forall j p0 p1,
       Meteor.trail m !! j = Some p0 -> Meteor.trail m !! S j = Some p1 ->
       let t := ofNat j / ofNat (length (Meteor.trail m)) in
       drawTrail m !! j
       = Some (TrailSegment p0 p1 (t * lit 0.65)
                 (1 + Meteor.size m * (1 - t) * lit 1.8))
       /\ 0 <= t * lit 0.65 /\ t * lit 0.65 < lit 0.65.
Proof.
  split; [apply trailSegments_length|]. intros j p0 p1 H0 H1. cbv zeta.
  split.
  - unfold drawTrail. by rewrite (trailSegments_lookup _ _ 0 _ j p0 p1 H0 H1).
  - apply lookup_lt_Some in H1.
    destruct (ratio_range (ofNat j) (ofNat (length (Meteor.trail m))))
      as [Ht0 Ht1]; [apply (ofNat_le 0); lia|apply ofNat_lt; lia|].
    revert Ht0 Ht1. generalize (ofNat j / ofNat (length (Meteor.trail m))).
    intros t Ht0 Ht1. split; qc_lra.
Qed.

Lemma omap_cons_eq {A B} (f : A -> option B) a l :
  omap f (a :: l)
  = match f a with Some y => y :: omap f l | None => omap f l end.
Proof. reflexivity. Qed.

Lemma omap_reverse_length {A B} (f : A -> option B) l :
  length (omap f (reverse l)) = length (omap f l).
Proof.
  induction l as [|a l IH]; [done|].
  rewrite reverse_cons, omap_app, length_app, IH, !omap_cons_eq.
  destruct (f a); cbn; lia.
Qed.

Lemma dots_length dt l :
  length (omap (dotParticle dt) l) = length (omap (stepParticle dt) l).
Proof.
  induction l as [|p l IH]; [done|]. rewrite !omap_cons_eq.
  unfold dotParticle at 1. destruct (stepParticle dt p); cbn; by rewrite IH.
Qed.

(** Ages and sizes of the particles of a run. *)
Definition glowing (s : Scene) : Prop :=
  Forall (fun p => 0 <= Particle.age p /\ lit 0.6 <= Particle.size p
                   /\ Particle.age p < Particle.life p) (particles s).

Lemma glowing_handle s ev s' :
  seeded -> bounded s -> timely s ev -> glowing s ->
  handle s ev = Some s' -> glowing s'.
Proof.
  intros Hs Hb Ht Hg. destruct ev as [now|t t'|rw rh iw ih dpr|visible now].
  - intros E. apply (handle_frame now s s' Hb) in E. subst s'.
    destruct (running s); [|done]. cbn in Ht.
    pose proof (clampedDt_nonneg now s Ht) as Hdt.
    set (dt := clampedDt now s) in *. unfold glowing.
    assert (Hp : Forall (fun p => 0 <= Particle.age p /\ lit 0.6 <= Particle.size p
                                  /\ Particle.age p < Particle.life p)
                   (particles (painted dt (timers now s)))).
    { destruct (timers_spec now s) as (_ & _ & Ep & _).
      unfold painted.
      cbn [particles set_lightnings set_seed set_meteors set_meteorPool
           set_particles].
      rewrite Ep. apply Forall_forall.
      intros p' (p & Hin & Hstep)%list_elem_of_omap.
      eapply Forall_forall in Hg as (Ha & Hsz & _); [|done].
      unfold stepParticle in Hstep. case_decide; [done|].
      injection Hstep as <-. cbn [Particle.age Particle.size Particle.life].
      split; [clear -Ha Hdt; qc_lra|]. split; [done|]. by apply Qclt_nge. }
    destruct (flares_particles now (painted dt (timers now s)))
      as [->|(p & -> & _ & r & ->)]; [done|].
    apply Forall_shift_push; [done|].
    destruct (flare_spec (cx (painted dt (timers now s)))
                (cy (painted dt (timers now s))) r Hs) as (Ha & Hl & _).
    rewrite Ha. split; [done|]. split; [|clear -Hl; qc_lra].
    clear -Hs. rand_simpl flare. cbn [Particle.size].
    destruct (Hs (S (S (S (S (S r)))))). qc_nra.
  - cbn [handle]. intros [= <-]. unfold glowing.
    rewrite triggerBigBang_particles. apply pushN_Forall; [|done]. intros k.
    destruct (burstParticle_spec (cx s) (cy s) k Hs) as (_ & _ & -> & Hl & _).
    split; [done|]. split; [|clear -Hl; qc_lra].
    clear -Hs. rand_simpl burstParticle. cbn [Particle.size].
    destruct (Hs (S (S (S k)))). qc_nra.
  - cbn [handle]. by intros [= <-].
  - cbn [handle]. intros [= <-]. revert Hg. unfold glowing.
    destruct visible; intros H; exact H.
Qed.

(** X14.  With [Math.random] in its range and frame time stamps that do not
    go back, every particle that a frame paints has an opacity in [(0, 1]]
    and a radius above 0.3 and at most [size + 0.3]: a particle is never
    painted transparent or with a negative radius. *)
Theorem particles_are_visible rw rh iw ih dpr tLoad t0 evs now :
  seeded ->
  chronological (boot rw rh iw ih dpr tLoad t0) (evs ++ [Frame now]) ->
  exists s s' out,
    run (boot rw rh iw ih dpr tLoad t0) evs = Some s
    /\ drawParticles (clampedDt now s) (timers now s) = Some (s', out)
    /\ length out = length (particles s')
    /\ Forall (fun d => exists alpha x y r hue light p,
                 d = ParticleDot alpha x y r hue light
                 /\ p ∈ particles s
                 /\ 0 < alpha /\ alpha <= 1
                 /\ lit 0.3 < r /\ r <= Particle.size p + lit 0.3) out.
Proof.
  intros Hs Hc.
  pose proof (bounded_boot rw rh iw ih dpr tLoad t0) as Hb0.
  destruct (bounded_run _ evs Hb0) as (s & Hrun & Hb).
  destruct (chronological_app _ _ _ _ Hc Hrun) as [Hc0 [Ht _]]. cbn in Ht.
  assert (Hg : glowing s).
  { assert (Hg0 : glowing (boot rw rh iw ih dpr tLoad t0)).
    { pose proof (init_state rw rh iw ih dpr tLoad t0) as H. cbv zeta in H.
      destruct H as (_ & _ & _ & Hp & _). unfold glowing. rewrite Hp. constructor. }
    clear Hc Ht. revert Hg0 Hb0 Hc0 Hrun.
    generalize (boot rw rh iw ih dpr tLoad t0). clear Hb.
    induction evs as [|ev evs IH]; intros s0 Hg0 Hb0 Hc0; cbn [run].
    - by intros [= <-].
    - cbn [chronological] in Hc0. destruct Hc0 as [Ht Hc0].
      destruct (bounded_handle s0 ev Hb0) as (s1 & E & Hb1).
      rewrite E in *. cbn [mbind option_bind]. apply IH; [|done..].
      exact (glowing_handle s0 ev s1 Hs Hb0 Ht Hg0 E). }
  pose proof (clampedDt_nonneg now s Ht) as Hdt.
  set (dt := clampedDt now s) in *.
  destruct (timers_spec now s) as (_ & _ & Ep & _).
  eexists s, _, _. split; [done|]. split; [apply drawParticles_spec|].
  cbn [particles set_particles]. rewrite Ep. split.
  - rewrite omap_reverse_length. apply dots_length.
  - apply Forall_forall. intros d (p & Hin & Hdot)%list_elem_of_omap.
    rewrite elem_of_reverse in Hin. fold dt in Hdot.
    unfold glowing in Hg. rewrite Forall_forall in Hg.
    destruct (Hg p Hin) as (Ha & Hsz & _).
    unfold dotParticle, stepParticle in Hdot. case_decide as Hlife; [done|].
    cbn [mbind option_bind Particle.age Particle.life Particle.x Particle.y
         Particle.size Particle.hue Particle.light] in Hdot.
    injection Hdot as <-. eexists _, _, _, _, _, _, p.
    split; [reflexivity|]. split; [done|].
    apply Qclt_nge in Hlife.
    destruct (ratio_range (Particle.age p + dt) (Particle.life p))
      as [Ht0 Ht1]; [clear -Ha Hdt; qc_lra|done|].
    revert Ht0 Ht1. generalize ((Particle.age p + dt) / Particle.life p).
    intros t Ht0 Ht1. clear -Ht0 Ht1 Hsz. repeat split; qc_nra.
Qed.

End Model.

(** ** A concrete run *)

(** A source that always returns 1/2, a sine and a cosine that always return
    1/2, and a page with a hero element. *)
Definition half (n : nat) : Qc := lit 0.5.
Definition flat (a : Qc) : Qc := lit 0.5.

Definition demo : Scene :=
  boot half flat flat (lit 800) (lit 600) 0 0 1 0 0.

Ltac qc_eval := apply (bool_decide_unpack _); vm_compute; exact I.

Lemma half_seeded : seeded half.
Proof. intros n. split; qc_eval. Qed.

Lemma flat_dives : sin_dives flat.
Proof. intros a _ _. qc_eval. Qed.

Lemma demo_chronological :
  chronological half flat flat true demo [Frame (lit 16); Frame (lit 32)].
Proof. vm_compute. repeat split; intros H; discriminate H. Qed.


Lemma ages_never_decrease_witness :
  seeded half
  /\ chronological half flat flat true demo ([Frame (lit 16)] ++ [Frame (lit 32)])
  /\ exists s s' out,
       run half flat flat true demo [Frame (lit 16)] = Some s
       /\ loop half flat flat true (lit 32) s = Some (s', out)
       /\ Forall (fun m => ~ Meteor.life m < Meteor.age m) (meteors s')
       /\ 0 <= elapsed (lit 32) s
       /\ (forall dt m, Meteor.age (advance dt m) = Meteor.age m + dt)
       /\ (forall m', m' ∈ meteors s' ->
             exists m, (m ∈ meteors s \/ Meteor.age m = 0)
                       /\ (m' = m \/ m' = advance (elapsed (lit 32) s) m)
                       /\ Meteor.age m' = Meteor.age m + elapsed (lit 32) s
                       /\ Meteor.age m <= Meteor.age m').
Proof.
  assert (Hs : seeded half) by (intros n; split; qc_eval).
  assert (Hc : chronological half flat flat true demo
                 ([Frame (lit 16)] ++ [Frame (lit 32)]))
    by (vm_compute; repeat split; intros H; discriminate H).
  split; [exact Hs|]. split; [exact Hc|].
  destruct (ages_never_decrease half flat flat true (lit 800) (lit 600) 0 0 1 0 0
              [Frame (lit 16)] (lit 32) Hs Hc)
    as (s & s' & out & H1 & H2 & _ & _ & _ & _ & H3 & _ & H4 & _ & _ & H5 & _
        & _ & H6 & _).
  exists s, s', out.
  split; [exact H1|]. split; [exact H2|]. split; [exact H3|].
  split; [exact H4|]. split; [exact H5|exact H6].
Defined.

Lemma meteor_removal_witness :
  seeded half /\ sin_dives flat
  /\ chronological half flat flat true demo ([Frame (lit 16)] ++ [Frame (lit 32)])
  /\ exists s s' out,
       run half flat flat true demo [Frame (lit 16)] = Some s
       /\ loop half flat flat true (lit 32) s = Some (s', out)
       /\ forall m,
            m ∈ advance (clampedDt (lit 32) s)
                <$> meteors (timers half flat flat true (lit 32) s) ->
            leaves (width s) (height s) m
            <-> Meteor.life m < Meteor.age m \/ exits (width s) (height s) m.
Proof.
  assert (Hs : seeded half) by (intros n; split; qc_eval).
  assert (Hd : sin_dives flat) by (intros a _ _; qc_eval).
  assert (Hc : chronological half flat flat true demo
                 ([Frame (lit 16)] ++ [Frame (lit 32)]))
    by (vm_compute; repeat split; intros H; discriminate H).
  split; [exact Hs|]. split; [exact Hd|]. split; [exact Hc|].
  destruct (meteor_removal half flat flat true (lit 800) (lit 600) 0 0 1 0 0
              [Frame (lit 16)] (lit 32) Hs Hd Hc)
    as (s & s' & out & H1 & H2 & _ & H3 & _).
  exists s, s', out. split; [exact H1|]. split; [exact H2|].
  intros m Hm. exact (proj1 (H3 m Hm)).
Defined.

Lemma big_bang_burst_witness :
  seeded half
  /\ let s' := triggerBigBang half flat flat true (lit 800) (lit 800) demo in
     length (particles s') = 140%nat
     /\ seed s' = (seed demo + 6 * 140)%nat
     /\ Forall (fun p =>
          Particle.age p = 0
          /\ Particle.life p = lit 0.5 * (lit 1400 - lit 700) + lit 700
          /\ Particle.vx p
             = flat (lit 0.5 * Math_PI * lit 2)
               * (lit 0.5 * (lit 480 - lit 80) + lit 80) * CONFIG.timeScale)
          (particles s').
Proof.
  assert (Hs : seeded half) by (intros n; split; qc_eval).
  split; [exact Hs|].
  destruct (big_bang_burst half flat flat true (lit 800) (lit 800) demo Hs)
    as (_ & Hlen & _ & _ & _ & Hps & Hseed & Hgen).
  cbv zeta. split; [exact Hlen|]. split; [exact Hseed|].
  rewrite Hps. apply Forall_fmap, Forall_forall. intros i _.
  unfold compose. rewrite Hgen. cbn [fst Particle.age Particle.life Particle.vx].
  unfold half. by repeat split.
Defined.




Lemma frames_follow_the_tests_witness :
  run half flat flat true (boot half flat flat (lit 800) (lit 600) 0 0 1 0 0) []
  = Some demo
  /\ concur half flat flat true demo demo [lit 100] [lit 200]
  /\ Forall2 (fun r1 r2 =>
                exists s1 out1 s2 out2,
                  r1 = Some (s1, out1) /\ r2 = Some (s2, out2)
                  /\ alike s1 s2
                  /\ stars s1 = stars s2 /\ particles s1 = particles s2
                  /\ meteors s1 = meteors s2 /\ meteorPool s1 = meteorPool s2
                  /\ lightnings s1 = lightnings s2 /\ seed s1 = seed s2)
       (play half flat flat true demo [lit 100])
       (play half flat flat true demo [lit 200]).
Proof.
  assert (Hrun : run half flat flat true
                   (boot half flat flat (lit 800) (lit 600) 0 0 1 0 0) []
                 = Some demo) by reflexivity.
  assert (Hc : concur half flat flat true demo demo [lit 100] [lit 200]).
  { vm_compute. repeat split; tauto. }
  split; [exact Hrun|]. split; [exact Hc|].
  exact (frames_follow_the_tests half flat flat true (lit 800) (lit 600) 0 0 1 0 0
           [] demo [lit 100] [lit 200] Hrun Hc).
Defined.

(** C10, as stated, fails: from the same scene and with the same random
    source, the frames at 100 ms and at 1000 ms both integrate the clamped
    step of 48 ms, but only the second finds a meteor spawn due: it leaves
    three meteors, the first leaves two. *)
Lemma clamped_steps_counterexample :
  clampedDt (lit 100) demo = clampedDt (lit 1000) demo
  /\ exists s1 out1 s2 out2,
       loop half flat flat true (lit 100) demo = Some (s1, out1)
       /\ loop half flat flat true (lit 1000) demo = Some (s2, out2)
       /\ length (meteors s1) = 2%nat /\ length (meteors s2) = 3%nat
       /\ meteors s1 <> meteors s2.
Proof.
  split; [by apply Qc_is_canon|].
  eexists _, _, _, _. split; [vm_compute; reflexivity|].
  split; [vm_compute; reflexivity|].
  split; [reflexivity|]. split; [reflexivity|].
  intros H. apply (f_equal length) in H. discriminate H.
Qed.

(** C8, as stated, fails twice.  On a fractional bounding rectangle: a
    canvas 800.5 pixels wide gets the width 800, not 800.5.  And a resize
    does not only change future spawn bounds and the gradient: the two
    meteors in flight at abscissa 395.95 stay in the live list when the
    surface keeps its width of 800, and are removed by the next frame when
    it shrinks to 100 (they are then more than 200 pixels off its right
    edge). *)
Lemma resize_counterexample :
  (let s' := resize (lit 800.5) (lit 600) 0 0 1 (initial 1 0) in
   width s' = lit 800
   /\ Math_max 1 (orElse (lit 800.5) 0) = lit 800.5
   /\ width s' <> Math_max 1 (orElse (lit 800.5) 0))
  /\ exists s1 s2,
       run half flat flat true demo [Frame (lit 16)] = Some s1
       /\ run half flat flat true demo
            [Resize (lit 100) (lit 600) 0 0 1; Frame (lit 16)] = Some s2
       /\ length (meteors s1) = 2%nat
       /\ Forall (fun m => Meteor.x m = lit 395.95) (meteors s1)
       /\ meteors s2 = [] /\ length (meteorPool s2) = 2%nat.
Proof.
  split.
  - cbv zeta. split; [|split].
    + apply Qc_is_canon. reflexivity.
    + apply Qc_is_canon. reflexivity.
    + intros H. apply (f_equal this) in H. vm_compute in H. discriminate H.
  - eexists _, _. split; [vm_compute; reflexivity|].
    split; [vm_compute; reflexivity|].
    split; [reflexivity|].
    split; [repeat constructor; by apply Qc_is_canon|]. split; reflexivity.
Qed.


(** C7, as stated, fails on space.js: the stars seeded on a surface 800
    wide stay where they are when the surface shrinks to a width of 300, and
    the next frame paints one at abscissa 400. *)
Lemma stars_after_shrink_counterexample :
  exists s st,
    run half flat flat true demo [Resize (lit 300) (lit 200) 0 0 1; Frame (lit 16)]
    = Some s
    /\ head (stars s) = Some st
    /\ width s = lit 300 /\ Star.x st = lit 400
    /\ ~ (0 <= Star.x st /\ Star.x st <= width s).
Proof.
  eexists _, _. split; [vm_compute; reflexivity|].
  split; [reflexivity|]. split; [by apply Qc_is_canon|].
  split; [by apply Qc_is_canon|].
  intros [_ H]. revert H. apply Qclt_not_le. qc_eval.
Qed.


Lemma helpers_stay_in_range_witness :
  seeded half /\ lit 600 <= lit 1100 /\ (4 <= 8)%Z
  /\ double (lit 600) = lit 600 /\ double (lit 1100) = lit 1100
  /\ double (lit 1100 - lit 600) = lit 1100 - lit 600
  /\ double (ofZ 4) = ofZ 4 /\ double (ofZ 8 + 1) = ofZ 8 + 1
  /\ double (ofZ 8 + 1 - ofZ 4) = ofZ 8 + 1 - ofZ 4
  /\ lit 600 <= (rand64 half (lit 600) (lit 1100) O).1
  /\ (rand64 half (lit 600) (lit 1100) O).1 <= lit 1100
  /\ (4 <= (randInt64 half (ofZ 4) (ofZ 8) O).1 <= 8 + 1)%Z.
Proof.
  assert (Hs : seeded half) by (intros n; split; qc_eval).
  assert (Hq : lit 600 <= lit 1100) by qc_eval.
  assert (Hz : (4 <= 8)%Z) by lia.
  assert (E1 : double (lit 600) = lit 600) by (by apply Qc_is_canon).
  assert (E2 : double (lit 1100) = lit 1100) by (by apply Qc_is_canon).
  assert (E3 : double (lit 1100 - lit 600) = lit 1100 - lit 600)
    by (by apply Qc_is_canon).
  assert (E4 : double (ofZ 4) = ofZ 4) by (by apply Qc_is_canon).
  assert (E5 : double (ofZ 8 + 1) = ofZ 8 + 1) by (by apply Qc_is_canon).
  assert (E6 : double (ofZ 8 + 1 - ofZ 4) = ofZ 8 + 1 - ofZ 4)
    by (by apply Qc_is_canon).
  destruct (helpers_stay_in_range half 4 8 (lit 600) (lit 1100) O Hs Hq Hz E1 E2
              E3 E4 E5 E6) as (H1 & H2 & H3 & _).
  split; [exact Hs|]. split; [exact Hq|]. split; [exact Hz|].
  split; [exact E1|]. split; [exact E2|]. split; [exact E3|].
  split; [exact E4|]. split; [exact E5|]. split; [exact E6|].
  split; [exact H1|]. split; [exact H2|exact H3].
Defined.



Lemma no_big_bang_no_particles_witness :
  Forall (fun ev => forall t t', ev <> BigBang t t')
    [Frame (lit 16); Visibility false (lit 20); Frame (lit 32)]
  /\ exists s,
       run half flat flat true demo
         [Frame (lit 16); Visibility false (lit 20); Frame (lit 32)] = Some s
       /\ particles s = [].
Proof.
  assert (H : Forall (fun ev => forall t t', ev <> BigBang t t')
                [Frame (lit 16); Visibility false (lit 20); Frame (lit 32)])
    by (repeat constructor; intros t t' E; discriminate E).
  split; [exact H|].
  destruct (no_big_bang_no_particles half flat flat true (lit 800) (lit 600) 0 0 1
              0 0 _ H) as (s & H1 & H2 & _).
  exists s. split; [exact H1|exact H2].
Defined.

Lemma meteor_spawn_geometry_witness :
  seeded half /\ 0 <= lit 800 /\ 0 <= lit 600
  /\ Meteor.y (spawnMeteor half flat flat (lit 800) (lit 600) freshMeteor O).1
     = - lit 20.
Proof.
  assert (Hs : seeded half) by (intros n; split; qc_eval).
  assert (Hw : 0 <= lit 800) by qc_eval.
  assert (Hh : 0 <= lit 600) by qc_eval.
  split; [exact Hs|]. split; [exact Hw|]. split; [exact Hh|].
  destruct (meteor_spawn_geometry half flat flat (lit 800) (lit 600) freshMeteor
              O Hs Hw Hh) as ([(_ & _ & Hy & _)|(Hside & _)] & _).
  - exact Hy.
  - exfalso. revert Hside. apply Qclt_not_le. qc_eval.
Defined.

Lemma stars_are_seeded_in_range_witness :
  seeded half
  /\ exists s,
       run half flat flat true demo [Frame (lit 16)] = Some s
       /\ Forall (fun st => lit 0.2 <= Star.size st /\ Star.size st <= lit 1.6)
            (stars s).
Proof.
  assert (Hs : seeded half) by (intros n; split; qc_eval).
  split; [exact Hs|].
  destruct (stars_are_seeded_in_range half flat flat true (lit 800) (lit 600) 0 0
              1 0 0 [Frame (lit 16)] Hs) as (s & H1 & _ & H2).
  exists s. split; [exact H1|].
  eapply Forall_impl; [exact H2|]. intros st (H3 & H4 & _). by split.
Defined.

Lemma hero_shake_witness :
  seeded half
  /\ heroShakeUntil (pulseHero true (lit 800) demo) = lit 800 + lit 900.
Proof.
  assert (Hs : seeded half) by (intros n; split; qc_eval).
  split; [exact Hs|].
  exact (proj1 (hero_shake half true (lit 800) demo Hs)).
Defined.

Lemma particles_are_visible_witness :
  seeded half
  /\ chronological half flat flat true demo
       ([BigBang (lit 8) (lit 8); Frame (lit 16)] ++ [Frame (lit 32)])
  /\ exists s s' out,
       run half flat flat true demo [BigBang (lit 8) (lit 8); Frame (lit 16)]
       = Some s
       /\ drawParticles (clampedDt (lit 32) s)
            (timers half flat flat true (lit 32) s) = Some (s', out)
       /\ length out = length (particles s').
Proof.
  assert (Hs : seeded half) by (intros n; split; qc_eval).
  assert (Hc : chronological half flat flat true demo
                 ([BigBang (lit 8) (lit 8); Frame (lit 16)] ++ [Frame (lit 32)]))
    by (vm_compute; repeat split; intros H; discriminate H).
  split; [exact Hs|]. split; [exact Hc|].
  destruct (particles_are_visible half flat flat true (lit 800) (lit 600) 0 0 1
              0 0 [BigBang (lit 8) (lit 8); Frame (lit 16)] (lit 32) Hs Hc)
    as (s & s' & out & H1 & H2 & H3 & _).
  exists s, s', out. auto.
Defined.

End Space.

(** * The stars of script.js *)

Module ScriptFacts.
Import Script.

Section Facts.

Variable Math_random : nat -> Qc.

Definition seeded : Prop := forall n, 0 <= Math_random n /\ Math_random n < 1.

(** A star within the surface, and one with an opacity of [[0, 1]]. *)
Definition inside (w h : Qc) (st : Star.t) : Prop :=
  0 <= Star.x st /\ Star.x st <= w /\ 0 <= Star.y st /\ Star.y st <= h.

Definition visible (st : Star.t) : Prop :=
  0 <= Star.alpha st /\ Star.alpha st <= 1.

(** Window sizes are not negative. *)
Definition sane (ev : Event) : Prop :=
  match ev with
  | Animate => True
  | Resize w h => 0 <= w /\ 0 <= h
  end.

Lemma drawStar_spec w h st n :
  0 <= w -> 0 <= h ->
  let r := drawStar Math_random w h st n in
  inside w h r.1.1 /\ visible r.1.1
  /\ r.1.2 = StarDot (Star.x st) (Star.y st) (Star.r st) (Star.alpha st)
  /\ r.2 = S n.
Proof.
  intros Hw Hh. cbv zeta.
  cbv [drawStar random mbind Rand_bind mret Rand_ret]. cbn [fst snd].
  unfold inside, visible. cbn [Star.x Star.y Star.alpha].
  repeat split; try done; repeat case_decide; qc_lra.
Qed.

Lemma drawStars_loop_spec w h l n :
  0 <= w -> 0 <= h ->
  let r := drawStars_loop Math_random w h l n in
  Forall (inside w h) r.1.1 /\ Forall visible r.1.1
  /\ r.1.2 = (fun st => StarDot (Star.x st) (Star.y st) (Star.r st) (Star.alpha st))
             <$> l
  /\ length r.1.1 = length l.
Proof.
  intros Hw Hh. revert n. induction l as [|st l IH]; intros n; cbv zeta.
  - cbn. repeat split; constructor.
  - cbn [drawStars_loop]. unfold mbind, Rand_bind, mret, Rand_ret.
    pose proof (drawStar_spec w h st n Hw Hh) as Hst. cbv zeta in Hst.
    destruct (drawStar Math_random w h st n) as [[st' dot] n1].
    cbn [fst snd] in Hst. destruct Hst as (Hin & Hvis & -> & ->).
    specialize (IH (S n)). cbv zeta in IH.
    destruct (drawStars_loop Math_random w h l (S n)) as [[l' dots] n2].
    cbn [fst snd] in *. destruct IH as (IH1 & IH2 & -> & IH4).
    repeat split; try by constructor. cbn. by rewrite IH4.
Qed.

Lemma animate_spec s :
  let r := animate Math_random s in
  let d := drawStars_loop Math_random (width s) (height s) (stars s) (seed s) in
  width r.1 = width s /\ height r.1 = height s /\ stars r.1 = d.1.1
  /\ forall x y rr a, StarDot x y rr a ∈ r.2 -> StarDot x y rr a ∈ d.1.2.
Proof.
  cbv zeta. unfold animate, drawStars.
  destruct (drawStars_loop _ _ _ _ _) as [[l dots] n]. cbn [fst snd].
  cbn [width height stars timer blackHoleRadius seed].
  repeat case_decide; cbn [fst snd set_hole width height stars];
    (split; [done|]); (split; [done|]); (split; [done|]);
    intros x y rr a Hin;
    repeat (apply elem_of_app in Hin as [Hin|Hin]);
    repeat (apply elem_of_cons in Hin as [Hin|Hin]);
    try discriminate Hin; try done; try by apply elem_of_nil in Hin.
Qed.

(** What every state of a run keeps: shown opacities, and a surface that is
    not negative. *)
Definition steady (s : Scene) : Prop :=
  0 <= width s /\ 0 <= height s /\ Forall visible (stars s).

Lemma steady_start w h : seeded -> 0 <= w -> 0 <= h -> steady (start Math_random w h).
Proof.
  intros Hs Hw Hh. unfold steady, start.
  pose proof (Space.pushN_Forall visible (newStar Math_random w h) starCount [] O) as HF.
  destruct (pushN _ _ _ _) as [l n]. cbn [width height stars fst] in *.
  split; [done|]. split; [done|]. apply HF; [|done].
  intros k. cbv [newStar random mbind Rand_bind mret Rand_ret]. cbn [fst].
  unfold visible. cbn [Star.alpha].
  destruct (Hs (S (S (S k)))). split; [done|]. by apply Qclt_le_weak.
Qed.

Lemma steady_handle s ev : steady s -> sane ev -> steady (handle Math_random s ev).
Proof.
  intros (Hw & Hh & Hv) Hev. destruct ev as [|w h]; cbn [handle].
  - destruct (animate_spec s) as (Ew & Eh & Es & _).
    destruct (drawStars_loop_spec (width s) (height s) (stars s) (seed s) Hw Hh)
      as (_ & Hv' & _).
    unfold steady. rewrite Ew, Eh, Es. auto.
  - destruct Hev. by repeat split.
Qed.

Lemma steady_run s evs :
  steady s -> Forall sane evs -> steady (run Math_random s evs).
Proof.
  revert s. induction evs as [|ev evs IH]; intros s Hs Hevs; cbn; [done|].
  apply Forall_cons in Hevs as [Hev Hevs].
  apply IH; [|done]. by apply steady_handle.
Qed.

(** ** The cycle of script.js *)

(** The frames among the events. *)
Fixpoint animations (evs : list Event) : nat :=
  match evs with
  | [] => O
  | Animate :: evs' => S (animations evs')
  | Resize _ _ :: evs' => animations evs'
  end.

Lemma animate_clock s :
  let s' := (animate Math_random s).1 in
  timer s' = (if decide (S (timer s) < 720)%nat then S (timer s) else O)
  /\ blackHoleRadius s'
     = (if decide (S (timer s) < 300)%nat
        then Math_min (blackHoleRadius s + lit 0.5) (lit 80)
        else if decide (S (timer s) < 420)%nat then blackHoleRadius s
        else if decide (S (timer s) < 720)%nat
        then Math_min (blackHoleRadius s + lit 0.3) (lit 100)
        else lit 50).
Proof.
  cbv zeta. unfold animate, drawStars.
  destruct (drawStars_loop _ _ _ _ _) as [[l dots] n].
  cbn [timer blackHoleRadius].
  repeat case_decide; try lia; by cbn.
Qed.

(** The clock stays below 720 and the radius of the black hole within its
    range. *)
Definition cycling (s : Scene) : Prop :=
  (timer s < 720)%nat
  /\ lit 50 <= blackHoleRadius s /\ blackHoleRadius s <= lit 100
  /\ ((timer s < 420)%nat -> blackHoleRadius s <= lit 80)
  /\ (timer s = O -> blackHoleRadius s = lit 50).

Lemma cycling_handle s ev : cycling s -> cycling (handle Math_random s ev).
Proof.
  intros (Ht & Hlo & Hhi & H80 & H0). destruct ev as [|w h]; [|done].
  cbn [handle]. destruct (animate_clock s) as [Et Er]. unfold cycling.
  rewrite Et, Er. clear Et Er. unfold Math_min.
  repeat case_decide; try lia;
    (split; [lia|]); (split; [try done; try qc_lra|]);
    (split; [try done; try qc_lra|]);
    (split; [intros; try lia; try done; try qc_lra
            | intros; try lia; try done]).
  all: try (apply H80; lia).
  all: try (pose proof (H80 ltac:(lia)); qc_lra).
Qed.

Lemma run_snoc s evs ev :
  run Math_random s (evs ++ [ev])
  = handle Math_random (run Math_random s evs) ev.
Proof. unfold run. by rewrite foldl_app. Qed.

Lemma animations_snoc evs ev :
  animations (evs ++ [ev])
  = (animations evs + match ev with Animate => 1 | Resize _ _ => 0 end)%nat.
Proof.
  induction evs as [|e evs IH]; [by destruct ev|].
  destruct e; cbn [app animations]; rewrite IH; lia.
Qed.

(** X15.  script.js cycles with a period of 720 frames: after any events
    the clock is the number of frames so far modulo 720, whatever resizes
    came between; the radius of the black hole stays in [[50, 100]], is at
    most 80 until the explosion is over (clock below 420), and is back to 50
    whenever the clock is 0. *)
Theorem script_cycle iw ih evs :
  let s := run Math_random (start Math_random iw ih) evs in
  timer s = (animations evs mod 720)%nat
  /\ lit 50 <= blackHoleRadius s /\ blackHoleRadius s <= lit 100
  /\ ((timer s < 420)%nat -> blackHoleRadius s <= lit 80)
  /\ (timer s = O -> blackHoleRadius s = lit 50).
Proof.
  cbv zeta.
  assert (H : cycling (run Math_random (start Math_random iw ih) evs)
              /\ timer (run Math_random (start Math_random iw ih) evs)
                 = (animations evs mod 720)%nat).
  { induction evs as [|ev evs IH] using rev_ind.
    - unfold start. destruct (pushN _ _ _ _) as [l n]. cbn.
      unfold cycling. cbn. repeat split; try done; try lia; qc_lra.
    - destruct IH as [Hc Ht]. rewrite run_snoc, animations_snoc.
      split; [by apply cycling_handle|].
      destruct ev as [|w h]; cbn [handle].
      + destruct (animate_clock (run Math_random (start Math_random iw ih) evs))
          as [-> _].
        rewrite Ht. pose proof (Nat.mod_upper_bound (animations evs) 720).
        rewrite <- (Nat.Div0.add_mod_idemp_l (animations evs) 1 720).
        case_decide.
        * rewrite Nat.add_1_r. symmetry. apply Nat.mod_small. lia.
        * assert (animations evs mod 720 = 719)%nat as -> by lia. done.
      + by rewrite Nat.add_0_r. }
  destruct H as [(_ & ? & ? & ? & ?) ?]. auto.
Qed.

(** X16.  A frame of script.js clears the surface, paints every star where
    it was and as opaque as it was before this frame moved it, and then,
    by the clock after the frame: the black hole (clock 1..299 and
    420..719), the explosion of radius 300 (clock 300..419), or nothing
    more (the frame that resets the clock to 0). *)
Theorem script_frame s :
  let r := animate Math_random s in
  let c := S (timer s) in
  let centre := (width s / lit 2, height s / lit 2) in
  r.2 = Clear (width s) (height s)
        :: ((fun st => StarDot (Star.x st) (Star.y st) (Star.r st) (Star.alpha st))
            <$> stars s)
        ++ (if decide (c < 300 \/ 420 <= c < 720)%nat
            then [BlackHole centre.1 centre.2 (blackHoleRadius r.1)]
            else if decide (300 <= c < 420)%nat
            then [Explosion centre.1 centre.2 (lit 300)] else [])
  /\ length (stars r.1) = length (stars s)
  /\ seed r.1 = (seed s + length (stars s))%nat.
Proof.
  cbv zeta. unfold animate, drawStars.
  pose proof (drawStars_loop_spec (width s) (height s) (stars s) (seed s)) as Hl.
  assert (Hn : (drawStars_loop Math_random (width s) (height s) (stars s) (seed s)).2
               = (seed s + length (stars s))%nat
               /\ (drawStars_loop Math_random (width s) (height s) (stars s) (seed s)).1.2
                  = (fun st => StarDot (Star.x st) (Star.y st) (Star.r st) (Star.alpha st))
                    <$> stars s
               /\ length (drawStars_loop Math_random (width s) (height s) (stars s)
                            (seed s)).1.1 = length (stars s)).
  { clear. generalize (seed s). induction (stars s) as [|st l IH]; intros n.
    - cbn. by rewrite Nat.add_0_r.
    - cbn [drawStars_loop]. unfold mbind, Rand_bind, mret, Rand_ret.
      cbv [drawStar random mbind Rand_bind mret Rand_ret].
      destruct (IH (S n)) as (E2 & E12 & E11).
      destruct (drawStars_loop Math_random (width s) (height s) l (S n))
        as [[l' dots] n2].
      cbn [fst snd] in *. subst. cbn [length fmap list_fmap].
      split; [lia|]. split; [done|]. by f_equal. }
  clear Hl. destruct Hn as (Hn & Hd & Hlen).
  destruct (drawStars_loop _ _ _ _ _) as [[l dots] n]. cbn [fst snd] in *.
  subst n dots. cbn [timer width height stars blackHoleRadius seed].
  repeat case_decide; try lia;
    cbn [fst snd set_hole drawBlackHole drawExplosion width height stars
         blackHoleRadius seed app];
    rewrite ?app_nil_r; by repeat split.
Qed.

(** How a star of script.js relates to what it was. *)
Definition drifts (st0 st : Star.t) : Prop :=
  Star.r st = Star.r st0 /\ Star.dx st = Star.dx st0 /\ Star.dy st = Star.dy st0.

Lemma drawStars_loop_drifts w h l n :
  Forall2 drifts l (drawStars_loop Math_random w h l n).1.1.
Proof.
  revert n. induction l as [|st l IH]; intros n; [constructor|].
  cbn [drawStars_loop]. unfold mbind, Rand_bind, mret, Rand_ret.
  cbv [drawStar random mbind Rand_bind mret Rand_ret].
  specialize (IH (S n)).
  destruct (drawStars_loop Math_random w h l (S n)) as [[l' dots] n2].
  cbn [fst snd] in *. by constructor.
Qed.

(** X17.  script.js never adds, removes or reshapes a star: after any
    events there are 300 stars, each with the radius and the drift it was
    created with; with [Math.random] in its range the radius is in
    [[0, 1.5)] and the drift in [[-0.1, 0.1)] pixels per frame on each
    axis. *)
Theorem script_stars_drift iw ih evs :
  seeded ->
  let s0 := start Math_random iw ih in
  let s := run Math_random s0 evs in
  length (stars s) = 300%nat
  /\ Forall2 drifts (stars s0) (stars s)
  /\ Forall (fun st =>
       0 <= Star.r st /\ Star.r st < lit 1.5
       /\ - lit 0.1 <= Star.dx st /\ Star.dx st < lit 0.1
       /\ - lit 0.1 <= Star.dy st /\ Star.dy st < lit 0.1) (stars s).
Proof.
  intros Hs. cbv zeta.
  assert (H0 : length (stars (start Math_random iw ih)) = 300%nat
               /\ Forall (fun st =>
                    0 <= Star.r st /\ Star.r st < lit 1.5
                    /\ - lit 0.1 <= Star.dx st /\ Star.dx st < lit 0.1
                    /\ - lit 0.1 <= Star.dy st /\ Star.dy st < lit 0.1)
                    (stars (start Math_random iw ih))).
  { unfold start.
    pose proof (Space.pushN_length (newStar Math_random iw ih) starCount [] O)
      as Hlen.
    pose proof (Space.pushN_Forall
      (fun st => 0 <= Star.r st /\ Star.r st < lit 1.5
                 /\ - lit 0.1 <= Star.dx st /\ Star.dx st < lit 0.1
                 /\ - lit 0.1 <= Star.dy st /\ Star.dy st < lit 0.1)
      (newStar Math_random iw ih) starCount [] O) as HF.
    destruct (pushN _ _ _ _) as [l n]. cbn [stars fst] in *.
    split; [exact Hlen|]. apply HF; [|done]. intros k.
    cbv [newStar random mbind Rand_bind mret Rand_ret]. cbn [fst].
    cbn [Star.r Star.dx Star.dy].
    destruct (Hs (S (S k))), (Hs (S (S (S (S k))))), (Hs (S (S (S (S (S k)))))).
    repeat split; qc_lra. }
  destruct H0 as [Hlen0 HF0].
  assert (HD : Forall2 drifts (stars (start Math_random iw ih))
                 (stars (run Math_random (start Math_random iw ih) evs))).
  { induction evs as [|ev evs IH] using rev_ind.
    - apply Forall2_same_length_lookup_2; [done|].
      intros i x y Hx Hy. cbn in Hy. rewrite Hx in Hy. injection Hy as <-.
      by repeat split.
    - rewrite run_snoc. destruct ev as [|w h]; cbn [handle]; [|exact IH].
      destruct (animate_spec (run Math_random (start Math_random iw ih) evs))
        as (_ & _ & -> & _).
      eapply Forall2_trans; [|exact IH|apply drawStars_loop_drifts].
      clear. intros a b c (Er & Edx & Edy) (Er' & Edx' & Edy').
      split; [exact (eq_trans Er' Er)|].
      split; [exact (eq_trans Edx' Edx)|exact (eq_trans Edy' Edy)]. }
  split; [by rewrite <- (Forall2_length _ _ _ HD)|]. split; [exact HD|].
  clear Hlen0. revert HF0 HD.
  generalize (stars (start Math_random iw ih)).
  generalize (stars (run Math_random (start Math_random iw ih) evs)).
  intros k k0 HF0 HD.
  induction HD as [|a b k0 k (Er & Edx & Edy) HD IH]; [done|].
  apply Forall_cons in HF0 as [Ha Hk]. constructor; [|by apply IH].
  by rewrite Er, Edx, Edy.
Qed.

End Facts.
End ScriptFacts.

(** * The two star fields *)

Section Starfields.

Variable Math_random : nat -> Qc.
Variables Math_sin Math_cos : Qc -> Qc.
Variable heroEl : bool.

Definition unresized (ev : Space.Event) : Prop :=
  match ev with
  | Space.Resize _ _ _ _ _ => False
  | _ => True
  end.

Lemma run_surface s evs s' :
  Space.bounded s -> Forall unresized evs ->
  Space.run Math_random Math_sin Math_cos heroEl s evs = Some s' ->
  Space.width s' = Space.width s /\ Space.height s' = Space.height s.
Proof.
  revert s. induction evs as [|ev evs IH]; intros s Hb Hevs; cbn.
  - by intros [= <-].
  - apply Forall_cons in Hevs as [Hev Hevs].
    destruct (Space.bounded_handle Math_random Math_sin Math_cos heroEl s ev Hb)
      as (s1 & E & Hb1).
    rewrite E. cbn. intros Hrun.
    destruct (IH s1 Hb1 Hevs Hrun) as [-> ->].
    destruct (Space.handle_stars Math_random Math_sin Math_cos heroEl s ev s1 Hb E)
      as [_ [(rw & rh & iw & ih & dpr & ->)|H]]; [done|exact H].
Qed.

(** C7 as amended.  With [Math.random] in its range and window sizes that
    are not negative:
    - script.js: after every frame update, whatever frames and resizes came
      before, every star lies within [[0, width] x [0, height]] of the
      current surface, and every opacity the frame paints is in [[0, 1]];
    - space.js: every opacity a frame paints is in [[0.05, 1]]; the stars
      are seeded within the surface of [init] and no event moves or reseeds
      them, so they stay within the bounds the surface had at [init], which
      are its bounds as long as no resize happened. *)
Theorem starfield_bounds iw ih sevs rw rh iw' ih' dpr tLoad t0 evs now :
  Space.seeded Math_random -> 0 <= iw -> 0 <= ih ->
  Forall ScriptFacts.sane sevs ->
  (let s := Script.run Math_random (Script.start Math_random iw ih) sevs in
   let r := Script.animate Math_random s in
   Forall (ScriptFacts.inside (Script.width r.1) (Script.height r.1))
     (Script.stars r.1)
   /\ forall x y rr a, Script.StarDot x y rr a ∈ r.2 -> 0 <= a /\ a <= 1)
  /\ (let b := Space.boot Math_random Math_sin Math_cos rw rh iw' ih' dpr tLoad t0 in
      exists s,
        Space.run Math_random Math_sin Math_cos heroEl b evs = Some s
        /\ Space.stars s = Space.stars b
        /\ Forall (fun st =>
                     0 <= Space.Star.x st /\ Space.Star.x st <= Space.width b
                     /\ 0 <= Space.Star.y st /\ Space.Star.y st <= Space.height b)
             (Space.stars s)
        /\ (Forall unresized evs ->
            Space.width s = Space.width b /\ Space.height s = Space.height b)
        /\ Forall (fun d => exists a x y r,
                     d = Space.StarDot a x y r /\ 0 <= a /\ a <= 1)
             (Space.drawStars Math_sin now s)).
Proof.
  intros Hs Hiw Hih Hsane. split.
  - cbv zeta.
    pose proof (ScriptFacts.steady_run Math_random _ sevs
                  (ScriptFacts.steady_start Math_random iw ih Hs Hiw Hih) Hsane)
      as (Hw & Hh & Hv).
    set (s := Script.run Math_random (Script.start Math_random iw ih) sevs) in *.
    destruct (ScriptFacts.animate_spec Math_random s) as (Ew & Eh & Es & Hdots).
    destruct (ScriptFacts.drawStars_loop_spec Math_random (Script.width s)
                (Script.height s) (Script.stars s) (Script.seed s) Hw Hh)
      as (Hin & _ & Edots & _).
    rewrite Ew, Eh, Es. split; [done|].
    intros x y rr a Hd. apply Hdots in Hd. rewrite Edots in Hd.
    apply list_elem_of_fmap in Hd as (st & [= -> -> -> ->] & Hst).
    by eapply Forall_forall in Hv.
  - cbv zeta.
    pose proof (Space.bounded_boot Math_random Math_sin Math_cos rw rh iw' ih'
                  dpr tLoad t0) as Hb.
    destruct (Space.bounded_run Math_random Math_sin Math_cos heroEl _ evs Hb)
      as (s & Hrun & Hb').
    exists s. split; [done|].
    pose proof (Space.run_stars Math_random Math_sin Math_cos heroEl _ evs s Hb Hrun)
      as Es.
    split; [done|]. split; [|split].
    + rewrite Es. by apply Space.boot_stars.
    + intros Hevs. by apply (run_surface _ evs).
    + eapply Forall_impl; [apply Space.drawStars_alpha|].
      intros d (a & x & y & r & -> & Ha0 & Ha1).
      exists a, x, y, r. split; [done|]. split; [|done].
      clear -Ha0. qc_lra.
Qed.

End Starfields.

Lemma starfield_bounds_witness :
  Space.seeded Space.half /\ 0 <= lit 800 /\ 0 <= lit 600
  /\ Forall ScriptFacts.sane [Script.Animate; Script.Resize (lit 300) (lit 200)]
  /\ let s := Script.run Space.half (Script.start Space.half (lit 800) (lit 600))
                [Script.Animate; Script.Resize (lit 300) (lit 200)] in
     let r := Script.animate Space.half s in
     Forall (ScriptFacts.inside (Script.width r.1) (Script.height r.1))
       (Script.stars r.1).
Proof.
  assert (Hs : Space.seeded Space.half) by (intros n; split; Space.qc_eval).
  assert (H8 : 0 <= lit 800) by Space.qc_eval.
  assert (H6 : 0 <= lit 600) by Space.qc_eval.
  assert (Hev : Forall ScriptFacts.sane
                  [Script.Animate; Script.Resize (lit 300) (lit 200)]).
  { repeat constructor; Space.qc_eval. }
  split; [exact Hs|]. split; [exact H8|]. split; [exact H6|]. split; [exact Hev|].
  exact (proj1 (proj1 (starfield_bounds Space.half Space.flat Space.flat true
                         (lit 800) (lit 600) _ (lit 800) (lit 600) 0 0 1 0 0
                         [] (lit 16) Hs H8 H6 Hev))).
Defined.

Lemma script_stars_drift_witness :
  ScriptFacts.seeded Space.half
  /\ length (Script.stars
               (Script.run Space.half (Script.start Space.half (lit 800) (lit 600))
                  [Script.Animate; Script.Resize (lit 300) (lit 200);
                   Script.Animate])) = 300%nat.
Proof.
  assert (Hs : ScriptFacts.seeded Space.half) by (intros n; split; Space.qc_eval).
  split; [exact Hs|].
  exact (proj1 (ScriptFacts.script_stars_drift Space.half (lit 800) (lit 600)
                  [Script.Animate; Script.Resize (lit 300) (lit 200);
                   Script.Animate] Hs)).
Defined.
